(** * django_mongodb_engine/base.py: value coercion and connection set-up

    A shallow embedding of [DatabaseOperations] and [DatabaseWrapper] of
    [src/django_mongodb_engine/base.py].  Python values are a small inductive
    type; mutable containers (list, tuple, set, dict) live in a heap and are
    reached through references, so that aliasing and in-place mutation are
    visible.  Every method is a function in a state-and-exception monad over
    the [World] (heap, store contents, signals sent, the wrapper instance).

    The store driver (pymongo) and the mapper's generic converters
    (djangotoolbox) are outside the repository: they are the [Variable]s of
    the sections below. *)

From Stdlib Require Import ZArith Ascii String.
From stdpp Require Import base option list strings gmap.

Local Open Scope Z_scope.

(** ** Python values *)

Definition loc := nat.

Inductive seqkind := KList | KTuple | KSet.

Inductive val :=
| VNone
| VNotProvided                      (* the NOT_PROVIDED sentinel *)
| VBool (b : bool)
| VInt (z : Z)
| VStr (s : string)                 (* str: a byte string *)
| VUnicode (s : string)             (* unicode, code points below 256 *)
| VObjectId (binary : string)       (* pymongo ObjectId and its 12 bytes *)
| VDate (year month day : Z)
| VTime (hour minute second microsecond : Z)
| VDatetime (year month day hour minute second microsecond : Z)
| VLazy (pk : nat)                  (* serializer.LazyModelInstance *)
| VRef (l : loc).                   (* a list, tuple, set or dict object *)

(** Heap objects.  A set keeps its elements in iteration order; a dict is
    the list of its items in iteration order, its keys are strings. *)
Inductive obj :=
| OSeq (k : seqkind) (xs : list val)
| ODict (items : list (string * val)).

Global Instance seqkind_eq_dec : EqDecision seqkind.
Proof. solve_decision. Defined.
Global Instance val_eq_dec : EqDecision val.
Proof. solve_decision. Defined.
Global Instance obj_eq_dec : EqDecision obj.
Proof. solve_decision. Defined.

(** ** Exceptions *)

Inductive exn :=
| InvalidId (msg : string)              (* pymongo.objectid.InvalidId *)
| PyMongoError (msg : string)           (* any other error of the driver *)
| DatabaseError (msg : string)          (* the adapter's database error *)
| ImproperlyConfigured (msg : string)
| TypeError (msg : string)
| ValueError (msg : string)
| AttributeError (attr : string)
| KeyError (key : string)
| UnicodeDecodeError
| AssertionError.

Inductive res (A : Type) :=
| Ret (a : A)
| Raise (e : exn)
| Stuck.               (* no answer: the fuel is spent, or a reference is dangling *)
Arguments Ret {A} a.
Arguments Raise {A} e.
Arguments Stuck {A}.

(** ** The driver's handles and the wrapper instance *)

Record Connection := mkConnection {
  conn_host : val;
  conn_port : val;
  conn_options : list (string * val)    (* the keyword arguments received *)
}.

Record Database := mkDatabase {
  database_connection : Connection;
  database_name : string;
  son_manipulators : list string
}.

Record Wrapper := mkWrapper {
  settings_dict : val;
  operation_flags : option val;
  connection : option Connection;
  database : option Database;
  connected : bool
}.

Definition document := list (string * val).

Inductive signal :=
| connection_created (sender : string).

(** A call of the driver's [Connection] constructor, as the driver sees it. *)
Record ConnectionCall := mkConnectionCall {
  call_host : val;
  call_port : val;
  call_kwargs : list (string * val)
}.

Record World := mkWorld {
  heap : list obj;
  queries : nat;                        (* deferred lookups run so far *)
  store : gmap (string * string) (list document);
  signals : list signal;
  driver_calls : list ConnectionCall;
  wrapper : Wrapper
}.

Definition set_heap (h : list obj) (w : World) : World :=
  mkWorld h (queries w) (store w) (signals w) (driver_calls w) (wrapper w).
Definition set_queries (q : nat) (w : World) : World :=
  mkWorld (heap w) q (store w) (signals w) (driver_calls w) (wrapper w).
Definition set_store (s : gmap (string * string) (list document)) (w : World) : World :=
  mkWorld (heap w) (queries w) s (signals w) (driver_calls w) (wrapper w).
Definition set_signals (s : list signal) (w : World) : World :=
  mkWorld (heap w) (queries w) (store w) s (driver_calls w) (wrapper w).
Definition set_driver_calls (c : list ConnectionCall) (w : World) : World :=
  mkWorld (heap w) (queries w) (store w) (signals w) c (wrapper w).
Definition set_wrapper (x : Wrapper) (w : World) : World :=
  mkWorld (heap w) (queries w) (store w) (signals w) (driver_calls w) x.

(** ** The monad of Python code: state passing, exceptions keep the state *)

Definition M (A : Type) : Type := World -> res A * World.

Definition ret {A} (a : A) : M A := fun w => (Ret a, w).
Definition raise {A} (e : exn) : M A := fun w => (Raise e, w).
Definition stuck {A} : M A := fun w => (Stuck, w).
Definition bind {A B} (m : M A) (f : A -> M B) : M B :=
  fun w => match m w with
           | (Ret a, w') => f a w'
           | (Raise e, w') => (Raise e, w')
           | (Stuck, w') => (Stuck, w')
           end.
Definition get_world : M World := fun w => (Ret w, w).
Definition modify (f : World -> World) : M unit := fun w => (Ret tt, f w).
Definition lift {A} (r : exn + A) : M A :=
  match r with inl e => raise e | inr a => ret a end.

Declare Scope py_scope.
Delimit Scope py_scope with py.
Notation "x <- m ;; k" := (bind m (fun x => k))
  (at level 100, m at next level, right associativity) : py_scope.
Notation "m ;;; k" := (bind m (fun _ => k))
  (at level 100, right associativity) : py_scope.
Local Open Scope py_scope.

(** [try: m except: h], for the exceptions [h] is defined on. *)
Definition try_except {A} (m : M A) (h : exn -> option (M A)) : M A :=
  fun w => match m w with
           | (Raise e, w') => match h e with Some k => k w' | None => (Raise e, w') end
           | r => r
           end.

(** [[f(x) for x in xs]] *)
Fixpoint comprehension {A B} (f : A -> M B) (xs : list A) : M (list B) :=
  match xs with
  | [] => ret []
  | x :: xs' => y <- f x ;; ys <- comprehension f xs' ;; ret (y :: ys)
  end.

(** ** Python strings *)

Definition ascii_code (c : ascii) : N := N_of_ascii c.

(** [str.lower] on one character: the letters A..Z move to a..z. *)
Definition ascii_lower (c : ascii) : ascii :=
  if ((65 <=? ascii_code c) && (ascii_code c <=? 90))%N
  then ascii_of_N (ascii_code c + 32) else c.

Fixpoint lower (s : string) : string :=
  match s with
  | EmptyString => EmptyString
  | String c s' => String (ascii_lower c) (lower s')
  end.

(** [s.startswith(p)] *)
Definition startswith (p s : string) : bool := String.prefix p s.

(** [needle in hay] on strings *)
Fixpoint is_infix (needle hay : string) : bool :=
  String.prefix needle hay ||
  match hay with
  | EmptyString => false
  | String _ hay' => is_infix needle hay'
  end.

Fixpoint has_char (c : ascii) (s : string) : bool :=
  match s with
  | EmptyString => false
  | String d s' => Ascii.eqb c d || has_char c s'
  end.

Definition dquote : ascii := ascii_of_N 34.

Definition hexdigit (n : N) : ascii :=
  if (n <? 10)%N then ascii_of_N (48 + n) else ascii_of_N (87 + n).

(** One character of [repr(u)] for a [unicode] object [u], inside the
    quote character [q]. *)
Definition repr_char (q c : ascii) : string :=
  if Ascii.eqb c q || Ascii.eqb c "\"%char then String "\"%char (String c EmptyString)
  else if Ascii.eqb c "009"%char then "\t"
  else if Ascii.eqb c "010"%char then "\n"
  else if Ascii.eqb c "013"%char then "\r"
  else if ((ascii_code c <? 32) || (127 <=? ascii_code c))%N
       then String "\"%char (String "x"%char
              (String (hexdigit (ascii_code c / 16))
                (String (hexdigit (ascii_code c mod 16)) EmptyString)))
  else String c EmptyString.

Fixpoint repr_chars (q : ascii) (s : string) : string :=
  match s with
  | EmptyString => EmptyString
  | String c s' => repr_char q c +:+ repr_chars q s'
  end.

(** [repr(u)], what [%r] formats: [u'...'], in double quotes when the text
    has a single quote and no double quote. *)
Definition repr_unicode (s : string) : string :=
  let q := if has_char "'"%char s && negb (has_char dquote s)
           then dquote else "'"%char in
  String "u"%char (String q (repr_chars q s +:+ String q EmptyString)).

Definition is_ascii (s : string) : bool :=
  forallb (fun c => (ascii_code c <? 128)%N) (list_ascii_of_string s).

(** ** Dates and times *)

Definition is_leap (y : Z) : bool :=
  ((y mod 4 =? 0) && negb (y mod 100 =? 0)) || (y mod 400 =? 0).

Definition days_in_month (y m : Z) : Z :=
  if m =? 2 then (if is_leap y then 29 else 28)
  else if (m =? 4) || (m =? 6) || (m =? 9) || (m =? 11) then 30 else 31.

Definition valid_date (y m d : Z) : bool :=
  (1 <=? y) && (y <=? 9999) && (1 <=? m) && (m <=? 12) &&
  (1 <=? d) && (d <=? days_in_month y m).

Definition valid_time (h mi s us : Z) : bool :=
  (0 <=? h) && (h <? 24) && (0 <=? mi) && (mi <? 60) &&
  (0 <=? s) && (s <? 60) && (0 <=? us) && (us <? 1000000).

(** [datetime(year, month, day, hour, minute, second, microsecond)], the
    class bound by [from datetime import datetime]. *)
Definition datetime (y m d h mi s us : val) : exn + val :=
  match y, m, d, h, mi, s, us with
  | VInt y, VInt m, VInt d, VInt h, VInt mi, VInt s, VInt us =>
      if valid_date y m d && valid_time h mi s us
      then inr (VDatetime y m d h mi s us)
      else inl (ValueError "datetime field out of range")
  | _, _, _, _, _, _, _ => inl (TypeError "an integer is required")
  end.

(** [datetime.date] and [datetime.time]: with [datetime] the class, these
    are its methods [date()] and [time()] taken unbound; the first argument
    of the call is the instance they are applied to. *)
Definition datetime_date (args : list val) : exn + val :=
  match args with
  | [VDatetime y m d _ _ _ _] => inr (VDate y m d)
  | VDatetime _ _ _ _ _ _ _ :: _ => inl (TypeError "date() takes no arguments")
  | _ => inl (TypeError "descriptor 'date' requires a 'datetime.datetime' object")
  end.

Definition datetime_time (args : list val) : exn + val :=
  match args with
  | [VDatetime _ _ _ h mi s us] => inr (VTime h mi s us)
  | VDatetime _ _ _ _ _ _ _ :: _ => inl (TypeError "time() takes no arguments")
  | _ => inl (TypeError "descriptor 'time' requires a 'datetime.datetime' object")
  end.

(** [value.attr] for the attributes of dates and times. *)
Definition getattr (v : val) (attr : string) : exn + val :=
  match v, attr with
  | VDate y _ _, "year" | VDatetime y _ _ _ _ _ _, "year" => inr (VInt y)
  | VDate _ m _, "month" | VDatetime _ m _ _ _ _ _, "month" => inr (VInt m)
  | VDate _ _ d, "day" | VDatetime _ _ d _ _ _ _, "day" => inr (VInt d)
  | VTime h _ _ _, "hour" | VDatetime _ _ _ h _ _ _, "hour" => inr (VInt h)
  | VTime _ mi _ _, "minute" | VDatetime _ _ _ _ mi _ _, "minute" => inr (VInt mi)
  | VTime _ _ s _, "second" | VDatetime _ _ _ _ _ s _, "second" => inr (VInt s)
  | VTime _ _ _ us, "microsecond" | VDatetime _ _ _ _ _ _ us, "microsecond" => inr (VInt us)
  | _, _ => inl (AttributeError attr)
  end.

(** ** Identity tests and equality *)

(** [value is None] and [value is NOT_PROVIDED] compare object identity:
    they look at nothing but which object [value] is. *)
Definition is_None (v : val) : bool :=
  match v with VNone => true | _ => false end.
Definition is_NOT_PROVIDED (v : val) : bool :=
  match v with VNotProvided => true | _ => false end.

(** [value == None] calls [value.__eq__]; on a LazyModelInstance that runs
    a database query. *)
Definition eq_None (v : val) : M bool :=
  match v with
  | VNone => ret true
  | VLazy _ => modify (fun w => set_queries (S (queries w)) w) ;;; ret false
  | _ => ret false
  end.

(** ** Field descriptors *)

Record Field := mkField {
  field_name : string;
  db_table : string;                    (* field.model._meta.db_table *)
  primary_key : bool
}.

(** ** Heap access *)

Definition alloc (o : obj) : M val :=
  fun w => (Ret (VRef (length (heap w))), set_heap (heap w ++ [o]) w).

(** The elements of [value] when it is a list, a tuple or a set:
    [isinstance(value, (list, tuple, set))]. *)
Definition as_collection (h : list obj) (v : val) : option (list val) :=
  match v with
  | VRef l => match h !! l with Some (OSeq _ xs) => Some xs | _ => None end
  | _ => None
  end.

(** ** DatabaseOperations *)

Definition value_to_db_date (value : val) : M val :=
  if is_None value then ret VNone
  else
    year <- lift (getattr value "year") ;;
    month <- lift (getattr value "month") ;;
    day <- lift (getattr value "day") ;;
    lift (datetime year month day (VInt 0) (VInt 0) (VInt 0) (VInt 0)).

Definition value_to_db_time (value : val) : M val :=
  if is_None value then ret VNone
  else
    hour <- lift (getattr value "hour") ;;
    minute <- lift (getattr value "minute") ;;
    second <- lift (getattr value "second") ;;
    microsecond <- lift (getattr value "microsecond") ;;
    lift (datetime (VInt 1) (VInt 1) (VInt 1) hour minute second microsecond).

(** Modelled from the spec: the [safe_call] decorator, which base.py applies
    and does not define.  An exception of the store driver is re-raised as
    the adapter's database error; an InvalidId passes as it is, and so does
    anything that is not the driver's. *)
Definition safe_call {A} (m : M A) : M A :=
  try_except m (fun e =>
    match e with
    | PyMongoError msg => Some (raise (DatabaseError msg))
    | _ => None
    end).

Definition site_id_hint : string :=
  ". Please make sure your SITE_ID contains a valid ObjectId string.".

Definition invalid_id_text : string :=
  "AutoField (default primary key) values must be strings " +:+
  "representing an ObjectId on MongoDB (got ".

Definition invalid_id_message (value : string) (field : Field) : string :=
  let msg := invalid_id_text +:+ repr_unicode value +:+ " instead)" in
  if String.eqb (db_table field) "django_site"
  then msg +:+ site_id_hint
  else msg.

(** The text shown for a rejected key: [value[:10] + '...'] when
    [len(value) > 13]. *)
Definition preview (value : string) : string :=
  if (13 <? String.length value)%nat
  then String.substring 0 10 value +:+ "..." else value.

Section Operations.

(** The driver: [ObjectId(value)] gives the identifier's 12 bytes or
    raises; [ObjectId_str] is the text [str(oid)]. *)
Variable ObjectId : val -> exn + string.
Variable ObjectId_str : string -> string.

(** The mapper's generic converters, reached through [super]. *)
Variable super_value_for_db : val -> Field -> string -> string -> val -> M val.
Variable super_value_from_db : val -> Field -> string -> string -> M val.

(** [unicode(x)] for the objects whose text this file does not fix. *)
Variable unicode_other : World -> val -> string.

Definition unicode (value : val) : M val :=
  match value with
  | VUnicode s => ret (VUnicode s)
  | VStr s => if is_ascii s then ret (VUnicode s) else raise UnicodeDecodeError
  | VObjectId b => ret (VUnicode (ObjectId_str b))
  | _ => w <- get_world ;; ret (VUnicode (unicode_other w value))
  end.

(** The body of [value_for_db]; [self_value_for_db] is the method it
    calls on the elements of a collection. *)
Definition value_for_db_body
    (self_value_for_db : val -> Field -> string -> string -> val -> M val)
    (value : val) (field : Field) (field_kind db_type : string) (lookup : val)
    : M val :=
  value <- super_value_for_db value field field_kind db_type lookup ;;
  if String.eqb db_type "key" then
    w <- get_world ;;
    match as_collection (heap w) value with
    | Some subvalues =>
        converted <- comprehension (fun subvalue =>
                       self_value_for_db subvalue field field_kind db_type lookup)
                     subvalues ;;
        alloc (OSeq KList converted)
    | None =>
        try_except
          (binary <- lift (ObjectId value) ;; ret (VObjectId binary))
          (fun e =>
             match e with
             | InvalidId _ =>
                 Some (match value with
                       | VUnicode s => raise (InvalidId (invalid_id_message (preview s) field))
                       | _ => raise AssertionError
                       end)
             | _ => None
             end)
    end
  else ret value.

Fixpoint value_for_db (fuel : nat) (value : val) (field : Field)
    (field_kind db_type : string) (lookup : val) : M val :=
  match fuel with
  | O => stuck
  | S fuel' =>
      safe_call (value_for_db_body (value_for_db fuel')
                   value field field_kind db_type lookup)
  end.

Definition value_from_db_body (value : val) (field : Field)
    (field_kind db_type : string) : M val :=
  if is_None value || is_NOT_PROVIDED value then ret VNone
  else
    value <- (if String.eqb db_type "key" then unicode value else ret value) ;;
    value <- (if String.eqb db_type "date" then
                year <- lift (getattr value "year") ;;
                month <- lift (getattr value "month") ;;
                day <- lift (getattr value "day") ;;
                lift (datetime_date [year; month; day])
              else ret value) ;;
    value <- (if String.eqb db_type "time" then
                hour <- lift (getattr value "hour") ;;
                minute <- lift (getattr value "minute") ;;
                second <- lift (getattr value "second") ;;
                microsecond <- lift (getattr value "microsecond") ;;
                lift (datetime_time [hour; minute; second; microsecond])
              else ret value) ;;
    super_value_from_db value field field_kind db_type.

Definition value_from_db (value : val) (field : Field)
    (field_kind db_type : string) : M val :=
  safe_call (value_from_db_body value field field_kind db_type).

End Operations.

(** ** Dicts and other objects in the heap *)

Fixpoint dict_get {V} (key : string) (items : list (string * V)) : option V :=
  match items with
  | [] => None
  | (k, v) :: rest => if String.eqb key k then Some v else dict_get key rest
  end.

Fixpoint dict_del {V} (key : string) (items : list (string * V)) : list (string * V) :=
  match items with
  | [] => []
  | (k, v) :: rest =>
      if String.eqb key k then dict_del key rest else (k, v) :: dict_del key rest
  end.

(** [d[key] = value]: in place of the old item, or as a new last item. *)
Fixpoint dict_set {V} (key : string) (value : V) (items : list (string * V))
    : list (string * V) :=
  match items with
  | [] => [(key, value)]
  | (k, v) :: rest =>
      if String.eqb key k then (key, value) :: rest
      else (k, v) :: dict_set key value rest
  end.

Definition alloc_loc (o : obj) : M loc :=
  fun w => (Ret (length (heap w)), set_heap (heap w ++ [o]) w).

Definition load (l : loc) : M obj :=
  fun w => match heap w !! l with
           | Some o => (Ret o, w)
           | None => (Stuck, w)
           end.

Definition store_obj (l : loc) (o : obj) : M unit :=
  modify (fun w => set_heap (<[l := o]> (heap w)) w).

(** The items of [d] when [d] is a dict; [method] is the dict method being
    called, which other objects do not have or take otherwise. *)
Definition dict_items (d : val) (method : string) : M (loc * list (string * val)) :=
  match d with
  | VRef l =>
      o <- load l ;;
      match o with
      | ODict items => ret (l, items)
      | OSeq KList _ | OSeq KSet _ =>
          if String.eqb method "pop"
          then raise (TypeError "pop() does not take these arguments")
          else raise (AttributeError method)
      | OSeq KTuple _ => raise (AttributeError method)
      end
  | _ => raise (AttributeError method)
  end.

(** [d.pop(key)] *)
Definition dict_pop (d : val) (key : string) : M val :=
  p <- dict_items d "pop" ;;
  match dict_get key p.2 with
  | Some v => store_obj p.1 (ODict (dict_del key p.2)) ;;; ret v
  | None => raise (KeyError key)
  end.

(** [d.pop(key, default)] *)
Definition dict_pop_default (d : val) (key : string) (default : val) : M val :=
  p <- dict_items d "pop" ;;
  match dict_get key p.2 with
  | Some v => store_obj p.1 (ODict (dict_del key p.2)) ;;; ret v
  | None => ret default
  end.

(** [d.get(key)] *)
Definition dict_get_method (d : val) (key : string) : M val :=
  p <- dict_items d "get" ;;
  ret (default VNone (dict_get key p.2)).

(** [d[key] = value] *)
Definition dict_setitem (d : val) (key : string) (value : val) : M unit :=
  p <- dict_items d "__setitem__" ;;
  store_obj p.1 (ODict (dict_set key value p.2)).

(** [bool(value)] *)
Definition truthy (value : val) : M bool :=
  match value with
  | VNone => ret false
  | VBool b => ret b
  | VInt z => ret (negb (z =? 0))
  | VStr s | VUnicode s => ret (negb (String.eqb s ""))
  | VTime h mi s us => ret (negb ((h =? 0) && (mi =? 0) && (s =? 0) && (us =? 0)))
  | VRef l =>
      o <- load l ;;
      match o with
      | OSeq _ xs => ret (negb (bool_decide (xs = [])))
      | ODict items => ret (negb (bool_decide (items = [])))
      end
  | _ => ret true
  end.

Fixpoint chars (s : string) : list val :=
  match s with
  | EmptyString => []
  | String c s' => VStr (String c EmptyString) :: chars s'
  end.

(** What [for k in value] goes through. *)
Definition iterate (value : val) : M (list val) :=
  match value with
  | VRef l =>
      o <- load l ;;
      match o with
      | OSeq _ xs => ret xs
      | ODict items => ret (map (fun kv => VStr kv.1) items)
      end
  | VStr s => ret (chars s)
  | VUnicode s => ret (map (fun c => match c with VStr x => VUnicode x | _ => c end) (chars s))
  | _ => raise (TypeError "object is not iterable")
  end.

(** [k in names] for a list of string literals: [k == name] for each name
    in turn.  A lazy instance answers each comparison with a lookup. *)
Definition contained_in (k : val) (names : list string) : M bool :=
  match k with
  | VStr s | VUnicode s => ret (bool_decide (s ∈ names))
  | VLazy _ =>
      modify (fun w => set_queries (queries w + length names)%nat w) ;;; ret false
  | _ => ret false
  end.

(** [any(k in names for k in ks)] *)
Fixpoint any_contained_in (ks : list val) (names : list string) : M bool :=
  match ks with
  | [] => ret false
  | k :: ks' =>
      found <- contained_in k names ;;
      if found then ret true else any_contained_in ks' names
  end.

Fixpoint for_each {A} (xs : list A) (body : A -> M unit) : M unit :=
  match xs with
  | [] => ret tt
  | x :: xs' => body x ;;; for_each xs' body
  end.

(** The elements of a container. *)
Definition children (o : obj) : list val :=
  match o with
  | OSeq _ xs => xs
  | ODict items => map snd items
  end.

(** ** copy.deepcopy

    The copy of a container is a new object that holds the copies of its
    elements; the memo table keeps an object that is reached twice copied
    once.  A container enters the memo when its copy is complete, so the
    recursion ends on the values that hold no cycle, which is what settings
    are; on a cycle the fuel runs out.  Strings, numbers, dates and the
    other values without a place in the heap are their own copies. *)

Definition memo_table := list (loc * loc).

Fixpoint memo_get (l : loc) (memo : memo_table) : option loc :=
  match memo with
  | [] => None
  | (x, y) :: rest => if Nat.eqb l x then Some y else memo_get l rest
  end.

Fixpoint deepcopy_all (copy : val -> memo_table -> M (val * memo_table))
    (xs : list val) (memo : memo_table) : M (list val * memo_table) :=
  match xs with
  | [] => ret ([], memo)
  | x :: xs' =>
      p <- copy x memo ;;
      q <- deepcopy_all copy xs' p.2 ;;
      ret (p.1 :: q.1, q.2)
  end.

(** The object [o] with the elements [ys] in place of its own. *)
Definition with_children (o : obj) (ys : list val) : obj :=
  match o with
  | OSeq k _ => OSeq k ys
  | ODict items => ODict (zip (map fst items) ys)
  end.

Fixpoint deepcopy_memo (fuel : nat) (x : val) (memo : memo_table)
    : M (val * memo_table) :=
  match x with
  | VRef l =>
      match memo_get l memo with
      | Some y => ret (VRef y, memo)
      | None =>
          match fuel with
          | O => stuck
          | S fuel' =>
              o <- load l ;;
              p <- deepcopy_all (deepcopy_memo fuel') (children o) memo ;;
              y <- alloc_loc (with_children o p.1) ;;
              ret (VRef y, (l, y) :: p.2)
          end
      end
  | _ => ret (x, memo)
  end.

Definition deepcopy (fuel : nat) (x : val) : M val :=
  p <- deepcopy_memo fuel x [] ;; ret p.1.

(** ** DatabaseIntrospection and DatabaseWrapper *)

Definition modify_wrapper (f : Wrapper -> Wrapper) : M unit :=
  modify (fun w => set_wrapper (f (wrapper w)) w).

Definition set_operation_flags (flags : val) : M unit :=
  modify_wrapper (fun x =>
    mkWrapper (settings_dict x) (Some flags) (connection x) (database x) (connected x)).
Definition set_connection (c : option Connection) : M unit :=
  modify_wrapper (fun x =>
    mkWrapper (settings_dict x) (operation_flags x) c (database x) (connected x)).
Definition set_database (d : option Database) : M unit :=
  modify_wrapper (fun x =>
    mkWrapper (settings_dict x) (operation_flags x) (connection x) d (connected x)).
Definition set_connected (b : bool) : M unit :=
  modify_wrapper (fun x =>
    mkWrapper (settings_dict x) (operation_flags x) (connection x) (database x) b).

Definition string_of (v : val) : option string :=
  match v with
  | VStr s | VUnicode s => Some s
  | _ => None
  end.

Section Wrapper.

(** The driver.  [Connection_fault host port options] is the exception
    that [Connection(host=host, port=port, **options)] raises, if any;
    [Database_fault name] the one that [connection[name]] raises for the
    string [name]; [authenticate] is [database.authenticate]. *)
Variable Connection_fault : val -> val -> list (string * val) -> option exn.
Variable Database_fault : string -> option exn.
Variable authenticate : Database -> val -> val -> exn + bool.

(** [Connection(host=host, port=port, **options)].  The call is recorded
    with what it hands over; the interpreter refuses it when [options] has
    a key 'host' or 'port' of its own. *)
Definition Connection_call (host port options : val) : M Connection :=
  p <- dict_items options "keys" ;;
  modify (fun w => set_driver_calls
            (driver_calls w ++ [mkConnectionCall host port p.2]) w) ;;;
  if bool_decide ("host" ∈ map fst p.2) || bool_decide ("port" ∈ map fst p.2)
  then raise (TypeError "got multiple values for keyword argument")
  else match Connection_fault host port p.2 with
       | Some e => raise e
       | None => ret (mkConnection host port p.2)
       end.

(** [connection[name]] *)
Definition Connection_getitem (c : Connection) (name : val) : M Database :=
  match string_of name with
  | Some s =>
      match Database_fault s with
      | Some e => raise e
      | None => ret (mkDatabase c s [])
      end
  | None => raise (TypeError "name must be an instance of basestring")
  end.

(** The local function [pop] of [_connect]:
    [settings.pop(name) or default]. *)
Definition pop (settings : val) (name : string) (default : val) : M val :=
  value <- dict_pop settings name ;;
  keep <- truthy value ;;
  ret (if keep then value else default).

(** [_connect], from its [try] on: the connection is opened with the
    values read from the settings. *)
Definition open_connection (settings db_name host port user password options : val)
    : M unit :=
  try_except
    (c <- Connection_call host port options ;;
     set_connection (Some c) ;;;
     d <- Connection_getitem c db_name ;;
     set_database (Some d))
    (fun e => match e with
              | TypeError msg => Some (raise (ImproperlyConfigured msg))
              | _ => None
              end) ;;;
  has_user <- truthy user ;;
  has_password <- (if has_user then truthy password else ret false) ;;
  (if has_user && has_password then
     w <- get_world ;;
     match database (wrapper w) with
     | Some d =>
         ok <- lift (authenticate d user password) ;;
         if ok then ret tt
         else raise (ImproperlyConfigured "Invalid username or password")
     | None => raise (AttributeError "database")
     end
   else ret tt) ;;;
  referencing <- dict_get_method settings "MONGODB_AUTOMATIC_REFERENCING" ;;
  automatic <- truthy referencing ;;
  (if automatic then
     modify_wrapper (fun x =>
       mkWrapper (settings_dict x) (operation_flags x) (connection x)
         (option_map (fun d => mkDatabase (database_connection d) (database_name d)
                                 (son_manipulators d ++ ["TransformDjango"]))
            (database x))
         (connected x))
   else ret tt) ;;;
  set_connected true ;;;
  modify (fun w => set_signals (signals w ++ [connection_created "DatabaseWrapper"]) w).

Definition _connect (fuel : nat) : M unit :=
  w <- get_world ;;
  settings <- deepcopy fuel (settings_dict (wrapper w)) ;;
  db_name <- pop settings "NAME" VNone ;;
  host <- pop settings "HOST" VNone ;;
  port <- pop settings "PORT" VNone ;;
  user <- pop settings "USER" VNone ;;
  password <- pop settings "PASSWORD" VNone ;;
  empty <- alloc (ODict []) ;;
  options <- pop settings "OPTIONS" empty ;;
  empty <- alloc (ODict []) ;;
  flags <- dict_pop_default options "OPERATIONS" empty ;;
  set_operation_flags flags ;;;
  ks <- iterate flags ;;
  found <- any_contained_in ks ["save"; "delete"; "update"] ;;
  (if negb found then
     (* flags apply to all operations *)
     broadcast <- alloc (ODict [("save", flags); ("delete", flags); ("update", flags)]) ;;
     set_operation_flags broadcast
   else ret tt) ;;;
  (* lower-case all OPTIONS keys *)
  keys <- dict_items options "iterkeys" ;;
  for_each (map fst keys.2) (fun key =>
    value <- dict_pop options key ;;
    dict_setitem options (lower key) value) ;;;
  open_connection settings db_name host port user password options.

Definition _reconnect (fuel : nat) : M unit :=
  w <- get_world ;;
  (if connected (wrapper w) then
     set_connection None ;;;
     set_database None ;;;
     set_connected false
   else ret tt) ;;;
  _connect fuel.

(** [wrapper.database]: the attribute, or [__getattr__('database')] when
    the wrapper has none yet. *)
Definition getattr_database (fuel : nat) : M Database :=
  w <- get_world ;;
  match database (wrapper w) with
  | Some d => ret d
  | None =>
      (if connected (wrapper w) then raise AssertionError else ret tt) ;;;
      _connect fuel ;;;
      w <- get_world ;;
      match database (wrapper w) with
      | Some d => ret d
      | None => raise AssertionError
      end
  end.

(** [database[table].remove()]: the driver deletes every document of the
    collection. *)
Definition Collection_remove (d : Database) (table : string) : M unit :=
  modify (fun w => set_store (alter (fun _ => []) (database_name d, table) (store w)) w).

(** [DatabaseOperations.sql_flush]; [self.connection] is the wrapper. *)
Fixpoint sql_flush_tables (fuel : nat) (tables : list string) : M unit :=
  match tables with
  | [] => ret tt
  | table :: rest =>
      if startswith "system." table then
        (* do not try to drop system collections *)
        sql_flush_tables fuel rest
      else
        d <- getattr_database fuel ;;
        Collection_remove d table ;;;
        sql_flush_tables fuel rest
  end.

Definition sql_flush (fuel : nat) (style : val) (tables : list string)
    (sequence_list : val) : M (list string) :=
  sql_flush_tables fuel tables ;;; ret [].

(** [DatabaseIntrospection.table_names] *)
Definition table_names (fuel : nat) : M (list string) :=
  d <- getattr_database fuel ;;
  w <- get_world ;;
  ret (map snd (filter (fun k => k.1 = database_name d) (elements (dom (store w))))).

End Wrapper.

(** ** What a value stands for

    A value together with the heap stands for a tree: the value itself when
    it has no place in the heap, and otherwise the container with the trees
    of its elements.  Two values stand for the same tree when they are
    equal up to the identity of the containers. *)

#[local] Set Warnings "-register-all".
Inductive tree :=
| TLeaf (v : val)
| TSeq (k : seqkind) (ts : list tree)
| TDict (items : list (string * tree)).

Definition rebuild (o : obj) (ts : list tree) : tree :=
  match o with
  | OSeq k _ => TSeq k ts
  | ODict items => TDict (zip (map fst items) ts)
  end.

Fixpoint reify (n : nat) (h : list obj) (v : val) : option tree :=
  match v with
  | VRef l =>
      match n with
      | O => None
      | S n' =>
          match h !! l with
          | Some o =>
              match mapM (reify n' h) (children o) with
              | Some ts => Some (rebuild o ts)
              | None => None
              end
          | None => None
          end
      end
  | _ => Some (TLeaf v)
  end.

Definition denotes (h : list obj) (v : val) (t : tree) : Prop :=
  exists n, reify n h v = Some t.

(** [bool(value)], read off the tree. *)
Definition tree_truthy (t : tree) : bool :=
  match t with
  | TLeaf VNone => false
  | TLeaf (VBool b) => b
  | TLeaf (VInt z) => negb (z =? 0)
  | TLeaf (VStr s) | TLeaf (VUnicode s) => negb (String.eqb s "")
  | TLeaf (VTime h mi s us) => negb ((h =? 0) && (mi =? 0) && (s =? 0) && (us =? 0))
  | TLeaf _ => true
  | TSeq _ ts => negb (bool_decide (length ts = 0%nat))
  | TDict items => negb (bool_decide (length items = 0%nat))
  end.

(** ** A driver and a mapper to run the model on

    The theorems below hold for every driver and every generic converter.
    Their concrete cases use this instance: an [ObjectId] after pymongo's
    (12 raw bytes or 24 hexadecimal digits are accepted; the text of an
    identifier is its 24 lower-case hexadecimal digits), and generic
    converters that hand the value on as it is. *)
Module Driver.

Definition hex_value (c : ascii) : option N :=
  let n := ascii_code c in
  if ((48 <=? n) && (n <=? 57))%N then Some (n - 48)%N
  else if ((97 <=? n) && (n <=? 102))%N then Some (n - 87)%N
  else if ((65 <=? n) && (n <=? 70))%N then Some (n - 55)%N
  else None.

Fixpoint unhexlify (s : string) : option string :=
  match s with
  | EmptyString => Some EmptyString
  | String a (String b s') =>
      match hex_value a, hex_value b, unhexlify s' with
      | Some hi, Some lo, Some rest =>
          Some (String (ascii_of_N (16 * hi + lo)) rest)
      | _, _, _ => None
      end
  | String _ EmptyString => None
  end.

Fixpoint hexlify (s : string) : string :=
  match s with
  | EmptyString => EmptyString
  | String c s' =>
      String (hexdigit (ascii_code c / 16))
        (String (hexdigit (ascii_code c mod 16)) (hexlify s'))
  end.

Definition not_valid (s : string) : exn :=
  InvalidId (s +:+ " is not a valid ObjectId").

Definition ObjectId (v : val) : exn + string :=
  match v with
  | VObjectId b => inr b
  | VStr s | VUnicode s =>
      if (String.length s =? 12)%nat then inr s
      else if (String.length s =? 24)%nat then
        match unhexlify s with Some b => inr b | None => inl (not_valid s) end
      else inl (not_valid s)
  | _ => inl (TypeError "id must be an instance of (str, unicode, ObjectId)")
  end.

Definition ObjectId_str (binary : string) : string := hexlify binary.

Definition super_value_for_db (value : val) (_ : Field) (_ _ : string) (_ : val)
  : M val := ret value.
Definition super_value_from_db (value : val) (_ : Field) (_ _ : string)
  : M val := ret value.
Definition unicode_other (_ : World) (_ : val) : string := "<object>".

Definition value_for_db :=
  value_for_db ObjectId super_value_for_db.
Definition value_from_db :=
  value_from_db ObjectId_str super_value_from_db unicode_other.

Definition empty_wrapper : Wrapper := mkWrapper VNone None None None false.
Definition empty_world : World := mkWorld [] 0 ∅ [] [] empty_wrapper.

Definition pk_field : Field := mkField "id" "blog_post" true.
Definition site_field : Field := mkField "id" "django_site" true.

End Driver.

(** ** The vocabulary of the statements

    The predicates in which the properties below are stated, and the
    concrete worlds on which they are run. *)

(** [v] is the string [s] (a [str] or a [unicode]). *)
Definition is_string (v : val) (s : string) : Prop :=
  v = VStr s \/ v = VUnicode s.

(** [v] is a valid identifier string: the driver accepts it, and [s] is
    the text of the identifier it stands for. *)
Definition identifier_string (ObjectId : val -> exn + string)
    (ObjectId_str : string -> string) (v : val) (s : string) : Prop :=
  is_string v s /\
  exists binary, ObjectId v = inr binary /\ ObjectId_str binary = s.

(** The characters that [repr] shows as they are, inside single quotes. *)
Definition plain_char (c : ascii) : bool :=
  ((32 <=? ascii_code c) && (ascii_code c <? 127))%N &&
  negb (Ascii.eqb c "'"%char) && negb (Ascii.eqb c "\"%char).

Fixpoint plain (s : string) : bool :=
  match s with
  | EmptyString => true
  | String c s' => plain_char c && plain s'
  end.

(** *** Copies in the heap

    [h0] is the heap when a copy starts. *)

(** A value that is no old object: it has no place in the heap, or its
    place is past [h0] and below [bound]. *)
Definition young (h0 : list obj) (bound : nat) (v : val) : Prop :=
  match v with
  | VRef l => (length h0 <= l < bound)%nat
  | _ => True
  end.

(** The objects past [h0] hold young values placed below them. *)
Definition downward (h0 h : list obj) : Prop :=
  forall l o, (length h0 <= l)%nat -> h !! l = Some o ->
    Forall (young h0 l) (children o).

Definition memo_ok (h0 h : list obj) (memo : memo_table) : Prop :=
  forall l y, memo_get l memo = Some y ->
    young h0 (length h) (VRef y) /\
    forall t, denotes h0 (VRef l) t -> denotes h (VRef y) t.

(** What a successful copy gives, for the values of [h0] that stand for a
    tree: the copy stands for the same tree and lies past [h0]; the heap has
    only grown. *)
Definition copied (h0 : list obj) (w : World) (memo : memo_table) (v' : val) (t : tree)
    (r : res (val * memo_table) * World) : Prop :=
  exists memo' ext,
    r = (Ret (v', memo'), set_heap (heap w ++ ext) w) /\
    downward h0 (heap w ++ ext) /\ memo_ok h0 (heap w ++ ext) memo' /\
    young h0 (length (heap w ++ ext)) v' /\ denotes (heap w ++ ext) v' t.

(** *** Specifications of monadic code

    [triple P m Q E]: from a world where [P] holds, [m] either returns [a]
    in a world where [Q a] holds, or leaves by an exception (or without an
    answer) in a world where [E] holds. *)
Definition triple {A} (P : World -> Prop) (m : M A)
    (Q : A -> World -> Prop) (E : World -> Prop) : Prop :=
  forall w, P w ->
    match m w with
    | (Ret a, w') => Q a w'
    | (_, w') => E w'
    end.

(** [m] keeps the invariant [I] whatever its outcome, and returns answers
    that meet [Q]. *)
Definition keeps (I : World -> Prop) {A} (m : M A) (Q : A -> Prop) : Prop :=
  triple I m (fun a w => I w /\ Q a) I.

(** A value that is no object of [h0]. *)
Definition fresh (h0 : list obj) (v : val) : Prop :=
  match v with
  | VRef l => (length h0 <= l)%nat
  | _ => True
  end.

(** The heap is [h0] and, after it, objects that hold no object of [h0];
    the wrapper has the settings it had. *)
Definition untouched (h0 : list obj) (sd0 : val) (w : World) : Prop :=
  (exists ext, heap w = h0 ++ ext /\
               Forall (fun o => Forall (fresh h0) (children o)) ext) /\
  settings_dict (wrapper w) = sd0.

Definition memo_fresh (h0 : list obj) (memo : memo_table) : Prop :=
  forall l y, memo_get l memo = Some y -> (length h0 <= y)%nat.

(** *** The store *)

(** The documents of the collection [table] of the database [db]. *)
Definition rows (w : World) (db table : string) : list document :=
  default [] (store w !! (db, table)).

(** The collections that [sql_flush] empties. *)
Definition cleared (d : Database) (tables : list string) (k : string * string) : Prop :=
  k.1 = database_name d /\ k.2 ∈ tables /\ startswith "system." k.2 = false.

Global Instance cleared_dec d tables k : Decision (cleared d tables k).
Proof. unfold cleared. apply _. Defined.

(** *** Lower-casing the keys of a dict

    The loop [for key in options.iterkeys(): options[key.lower()] =
    options.pop(key)], on the items of [options]: it goes through the keys
    the dict has when the loop starts, each once. *)

Definition lower_key (key : string) (items : list (string * val))
    : option (list (string * val)) :=
  match dict_get key items with
  | Some v => Some (dict_set (lower key) v (dict_del key items))
  | None => None
  end.

Fixpoint lower_keys (keys : list string) (items : list (string * val))
    : option (list (string * val)) :=
  match keys with
  | [] => Some items
  | key :: keys' =>
      match lower_key key items with
      | Some items' => lower_keys keys' items'
      | None => None
      end
  end.

(** *** Settings in the heap *)

(** The items of a dict of the heap stand for the items of a tree. *)
Definition items_denote (h : list obj) (items : list (string * val))
    (S : list (string * tree)) : Prop :=
  Forall2 (fun kv kt => kv.1 = kt.1 /\ denotes h kv.2 kt.2) items S.

(** The dict at [l] is a copy in progress of use: it lies past [h0], and
    its items stand for the items [S]. *)
Definition settled (h0 h : list obj) (l : loc) items (S : list (string * tree)) : Prop :=
  downward h0 h /\ (length h0 <= l)%nat /\
  h !! l = Some (ODict items) /\ items_denote h items S.

(** The keys among which [any(k in [...] for k in flags)] looks. *)
Definition has_operation_key {V} (items : list (string * V)) : bool :=
  existsb (fun k => bool_decide (k ∈ ["save"; "delete"; "update"])) (map fst items).

(** The mapping that [options.pop('OPERATIONS', {})] stands for: the one
    under 'OPERATIONS', or the empty one. *)
Definition flags_tree (O : list (string * tree)) : option (list (string * tree)) :=
  match dict_get "OPERATIONS" O with
  | Some (TDict P) => Some P
  | Some _ => None
  | None => Some []
  end.

(** Settings that [_connect] reads to the end of its first half: a mapping
    with the six entries, whose [OPTIONS] is a mapping with distinct keys
    and, under 'OPERATIONS' if at all, a mapping. *)
Record well_formed_settings (S O P : list (string * tree)) : Prop := {
  wf_name : is_Some (dict_get "NAME" S);
  wf_host : is_Some (dict_get "HOST" S);
  wf_port : is_Some (dict_get "PORT" S);
  wf_user : is_Some (dict_get "USER" S);
  wf_password : is_Some (dict_get "PASSWORD" S);
  wf_options : dict_get "OPTIONS" S = Some (TDict O);
  wf_keys : NoDup (map fst O);
  wf_flags : flags_tree O = Some P
}.

(** What the first half of [_connect] has done when the connection is about
    to be opened with the options [VRef lo]: [w1] is the world then, [items]
    the items of the options, [lc] the flags read from them. *)
Record connect_state (w w1 : World) (O P : list (string * tree))
    (lo lc : loc) (items : list (string * val)) : Prop := {
  cs_calls : driver_calls w1 = driver_calls w;
  cs_options : heap w1 !! lo = Some (ODict items);
  cs_lower : forall k, k ∈ map fst items -> lower k = k;
  cs_values : forall k t,
    dict_get k O = Some t -> k <> "OPERATIONS" ->
    (forall k2, k2 ∈ map fst O -> k2 <> "OPERATIONS" -> k2 <> k ->
                lower k2 <> lower k) ->
    exists v, dict_get (lower k) items = Some v /\ denotes (heap w1) v t;
  cs_flags : denotes (heap w1) (VRef lc) (TDict P);
  cs_operation_flags :
    if has_operation_key P
    then operation_flags (wrapper w1) = Some (VRef lc)
    else exists lb,
           operation_flags (wrapper w1) = Some (VRef lb) /\
           heap w1 !! lb
           = Some (ODict [("save", VRef lc); ("delete", VRef lc); ("update", VRef lc)])
}.

(** *** Concrete worlds *)

Definition two_keys_world : World :=
  set_heap [OSeq KTuple [VUnicode "4f1e2d3c4b5a69788796a5b4"; VStr "abcdefghijkl"]]
    Driver.empty_world.

Definition two_keys_binaries : list string :=
  [default "" (Driver.unhexlify "4f1e2d3c4b5a69788796a5b4"); "abcdefghijkl"].

(** A generic converter that meets a fault of the driver. *)
Definition failing_super_value_for_db (_ : val) (_ : Field) (_ _ : string)
    (_ : val) : M val := raise (PyMongoError "connection closed").

(** A driver that accepts every connection, and settings for it. *)
Module Settings.

Definition Connection_fault (_ _ : val) (_ : list (string * val)) : option exn := None.
Definition Database_fault (_ : string) : option exn := None.
Definition authenticate (_ : Database) (_ _ : val) : exn + bool := inr true.

Definition _connect := _connect Connection_fault Database_fault authenticate.
Definition sql_flush := sql_flush Connection_fault Database_fault authenticate.

(** The settings record with the given OPTIONS, at the last place of the
    heap [h]; OPTIONS is the object before it. *)
Definition settings_items (options : loc) : list (string * val) :=
  [("NAME", VStr "test"); ("HOST", VStr "localhost"); ("PORT", VInt 27017);
   ("USER", VStr ""); ("PASSWORD", VStr ""); ("OPTIONS", VRef options)].

Definition settings_tree (O : list (string * tree)) : list (string * tree) :=
  [("NAME", TLeaf (VStr "test")); ("HOST", TLeaf (VStr "localhost"));
   ("PORT", TLeaf (VInt 27017)); ("USER", TLeaf (VStr ""));
   ("PASSWORD", TLeaf (VStr "")); ("OPTIONS", TDict O)].

Definition world_of (h : list obj) (settings : loc) : World :=
  mkWorld h 0 ∅ [] [] (mkWrapper (VRef settings) None None None false).

(** OPERATIONS = {"timeout": 5} *)
Definition timeout_flags : list (string * tree) := [("timeout", TLeaf (VInt 5))].
Definition timeout_world : World :=
  world_of [ODict [("timeout", VInt 5)];
            ODict [("OPERATIONS", VRef 0%nat)];
            ODict (settings_items 1%nat)] 2%nat.

(** OPERATIONS = {"save": {"timeout": 5}} *)
Definition save_flags : list (string * tree) := [("save", TDict timeout_flags)].
Definition save_world : World :=
  world_of [ODict [("timeout", VInt 5)];
            ODict [("save", VRef 0%nat)];
            ODict [("OPERATIONS", VRef 1%nat)];
            ODict (settings_items 2%nat)] 3%nat.

(** OPTIONS = {"SlaveOkay": True, "W": 1} *)
Definition mixed_case_options : list (string * tree) :=
  [("SlaveOkay", TLeaf (VBool true)); ("W", TLeaf (VInt 1))].
Definition mixed_case_world : World :=
  world_of [ODict [("SlaveOkay", VBool true); ("W", VInt 1)];
            ODict (settings_items 0%nat)] 1%nat.

(** OPTIONS = {"W": 1, "w": 2} *)
Definition same_lower_case_options : list (string * tree) :=
  [("W", TLeaf (VInt 1)); ("w", TLeaf (VInt 2))].
Definition same_lower_case_world : World :=
  world_of [ODict [("W", VInt 1); ("w", VInt 2)];
            ODict (settings_items 0%nat)] 1%nat.

(** A store with two collections, and a wrapper connected to it. *)
Definition test_database : Database :=
  mkDatabase (mkConnection (VStr "localhost") (VInt 27017) []) "test" [].

Definition flush_world : World :=
  mkWorld [] 0
    (<[("test", "users") := [[("name", VStr "ann")]; [("name", VStr "bob")]]]>
       (<[("test", "system.indexes") := [[("name", VStr "_id_")]]]> ∅))
    [] []
    (mkWrapper VNone None (Some (database_connection test_database))
       (Some test_database) true).

End Settings.

(** The tree of identifiers that a tree of keys is converted to: every
    list, tuple or set becomes a list, every key the identifier that the
    driver makes of it. *)
Inductive key_tree (ObjectId : val -> exn + string) : tree -> tree -> Prop :=
| key_tree_leaf (v : val) (binary : string) :
    ObjectId v = inr binary ->
    key_tree ObjectId (TLeaf v) (TLeaf (VObjectId binary))
| key_tree_seq (k : seqkind) (ts ts' : list tree) :
    Forall2 (key_tree ObjectId) ts ts' ->
    key_tree ObjectId (TSeq k ts) (TSeq KList ts').

(** The store after [database[table].remove()] for each of [tables] that
    is no system collection, in the database [d]. *)
Fixpoint flushed (d : Database) (tables : list string)
    (s : gmap (string * string) (list document))
    : gmap (string * string) (list document) :=
  match tables with
  | [] => s
  | table :: rest =>
      if startswith "system." table then flushed d rest s
      else flushed d rest (alter (fun _ => []) (database_name d, table) s)
  end.

(** The names [collection_names()] gives for the database [d]. *)
Definition collection_names (d : Database) (w : World) : list string :=
  map snd (filter (fun k => k.1 = database_name d) (elements (dom (store w)))).

(** *** Connect attempts *)

(** [w'] differs from [w] at most in the heap, in the count of lookups and
    in the operation flags of the wrapper. *)
Definition same_handles (w w' : World) : Prop :=
  store w' = store w /\ signals w' = signals w /\
  driver_calls w' = driver_calls w /\
  settings_dict (wrapper w') = settings_dict (wrapper w) /\
  connection (wrapper w') = connection (wrapper w) /\
  database (wrapper w') = database (wrapper w) /\
  connected (wrapper w') = connected (wrapper w).

(** From [w] to [w'] the constructor of the driver was called once. *)
Definition called (w w' : World) : Prop :=
  exists call, driver_calls w' = driver_calls w ++ [call].

(** What a connect attempt that succeeds has done from [w] to [w']. *)
Definition connect_succeeded (w w' : World) : Prop :=
  connected (wrapper w') = true /\
  (exists c d, connection (wrapper w') = Some c /\
               database (wrapper w') = Some d /\ database_connection d = c) /\
  signals w' = signals w ++ [connection_created "DatabaseWrapper"] /\
  store w' = store w /\
  called w w'.

(** What a connect attempt that does not succeed has done. *)
Definition connect_failed (w w' : World) : Prop :=
  connected (wrapper w') = connected (wrapper w) /\
  signals w' = signals w /\
  store w' = store w /\
  ((driver_calls w' = driver_calls w /\
    connection (wrapper w') = connection (wrapper w) /\
    database (wrapper w') = database (wrapper w)) \/
   called w w').

(** [value or None], for a value that is no container. *)
Definition or_None (v : val) : val :=
  if tree_truthy (TLeaf v) then v else VNone.

(** Settings whose NAME, HOST, PORT, USER and PASSWORD are plain values,
    no containers. *)
Record plain_settings (S : list (string * tree))
    (name host port user password : val) : Prop := {
  ps_name : dict_get "NAME" S = Some (TLeaf name);
  ps_host : dict_get "HOST" S = Some (TLeaf host);
  ps_port : dict_get "PORT" S = Some (TLeaf port);
  ps_user : dict_get "USER" S = Some (TLeaf user);
  ps_password : dict_get "PASSWORD" S = Some (TLeaf password)
}.

(** Whether the settings ask for automatic referencing: the truth value
    under 'MONGODB_AUTOMATIC_REFERENCING', for a plain value or none. *)
Definition automatic_referencing (S : list (string * tree)) : option bool :=
  match dict_get "MONGODB_AUTOMATIC_REFERENCING" S with
  | None => Some false
  | Some (TLeaf x) => Some (tree_truthy (TLeaf x))
  | Some _ => None
  end.

(** What more the first half of [_connect] has done when the connection is
    about to be opened: [ls] is the copy of the settings, [rest] its items
    then, [items] the items of the options. *)
Record connect_values (w w1 : World) (S O : list (string * tree))
    (ls lo : loc) (items rest : list (string * val)) : Prop := {
  cv_same : same_handles w w1;
  cv_settings : heap w1 !! ls = Some (ODict rest);
  cv_referencing :
    match dict_get "MONGODB_AUTOMATIC_REFERENCING" S with
    | None => dict_get "MONGODB_AUTOMATIC_REFERENCING" rest = None
    | Some (TLeaf x) =>
        dict_get "MONGODB_AUTOMATIC_REFERENCING" rest = Some x /\
        forall l, x <> VRef l
    | Some _ => True
    end;
  cv_keys : forall k, k ∈ map fst items ->
    exists k0, k0 ∈ map fst O /\ k0 <> "OPERATIONS" /\ k = lower k0;
  cv_present : forall k0, k0 ∈ map fst O -> k0 <> "OPERATIONS" ->
    lower k0 ∈ map fst items
}.

(** More values and settings to run the model on, with the driver of
    [Driver] and [Settings] and with drivers that refuse. *)
Module Cases.

(** A set that holds a tuple of one key, and a key. *)
Definition nested_keys_world : World :=
  set_heap [OSeq KTuple [VStr "abcdefghijkl"];
            OSeq KSet [VRef 0%nat; VUnicode "4f1e2d3c4b5a69788796a5b4"]]
    Driver.empty_world.

Definition nested_keys : tree :=
  TSeq KSet [TSeq KTuple [TLeaf (VStr "abcdefghijkl")];
             TLeaf (VUnicode "4f1e2d3c4b5a69788796a5b4")].

Definition nested_identifiers : tree :=
  TSeq KList
    [TSeq KList [TLeaf (VObjectId "abcdefghijkl")];
     TLeaf (VObjectId (default "" (Driver.unhexlify "4f1e2d3c4b5a69788796a5b4")))].

(** A list with a malformed key between two keys. *)
Definition bad_key_world : World :=
  set_heap [OSeq KList [VStr "abcdefghijkl"; VUnicode "no key";
                        VUnicode "4f1e2d3c4b5a69788796a5b4"]]
    Driver.empty_world.

(** Settings with an account, no host, no options, and automatic
    referencing. *)
Definition account_items (options : loc) : list (string * val) :=
  [("NAME", VStr "test"); ("HOST", VStr ""); ("PORT", VInt 27017);
   ("USER", VStr "ann"); ("PASSWORD", VStr "secret"); ("OPTIONS", VRef options);
   ("MONGODB_AUTOMATIC_REFERENCING", VBool true)].

Definition account_tree : list (string * tree) :=
  [("NAME", TLeaf (VStr "test")); ("HOST", TLeaf (VStr ""));
   ("PORT", TLeaf (VInt 27017)); ("USER", TLeaf (VStr "ann"));
   ("PASSWORD", TLeaf (VStr "secret")); ("OPTIONS", TDict []);
   ("MONGODB_AUTOMATIC_REFERENCING", TLeaf (VBool true))].

Definition account_world : World :=
  Settings.world_of [ODict []; ODict (account_items 0%nat)] 1%nat.

(** A driver that knows no account. *)
Definition authenticate_rejects (_ : Database) (_ _ : val) : exn + bool := inr false.

(** A driver whose constructor refuses what it is given. *)
Definition Connection_refuses (_ _ : val) (_ : list (string * val)) : option exn :=
  Some (TypeError "unexpected keyword argument").

(** OPTIONS = {"Host": "example.org"} *)
Definition clash_options : list (string * tree) :=
  [("Host", TLeaf (VStr "example.org"))].
Definition clash_world : World :=
  Settings.world_of [ODict [("Host", VStr "example.org")];
                     ODict (Settings.settings_items 0%nat)] 1%nat.

(** Settings without PORT and what follows it. *)
Definition no_port_tree : list (string * tree) :=
  [("NAME", TLeaf (VStr "test")); ("HOST", TLeaf (VStr "localhost"))].
Definition no_port_world : World :=
  Settings.world_of [ODict [("NAME", VStr "test"); ("HOST", VStr "localhost")]] 0%nat.

End Cases.

(** ** Properties of the value conversions *)

Lemma append_nil_l (s : string) : "" +:+ s = s.
Proof. reflexivity. Qed.

Lemma append_cons (c : ascii) (a s : string) :
  String c a +:+ s = String c (a +:+ s).
Proof. reflexivity. Qed.

Lemma string_prefix_app (p b : string) : String.prefix p (p +:+ b) = true.
Proof.
  induction p as [|c p IH]; [by destruct b|].
  rewrite append_cons. simpl.
  destruct (ascii_dec c c); [done|congruence].
Qed.

Lemma is_infix_prefix (p h : string) :
  String.prefix p h = true -> is_infix p h = true.
Proof. destruct h; simpl; intros ->; done. Qed.

Lemma is_infix_app (p a b : string) : is_infix p (a +:+ p +:+ b) = true.
Proof.
  induction a as [|c a IH].
  - rewrite append_nil_l. apply is_infix_prefix, string_prefix_app.
  - rewrite append_cons. simpl. rewrite IH. apply orb_true_r.
Qed.

Lemma app_assoc_str (a b c : string) : (a +:+ b) +:+ c = a +:+ b +:+ c.
Proof.
  induction a as [|x a IH]; [done|].
  rewrite !append_cons. by f_equal.
Qed.

Lemma comprehension_pure {A B} (f : A -> M B) (xs : list A) (ys : list B) (w : World) :
  Forall2 (fun x y => f x w = (Ret y, w)) xs ys ->
  comprehension f xs w = (Ret ys, w).
Proof.
  induction 1 as [|x y xs ys Hx _ IH]; [done|].
  simpl. unfold bind at 1. rewrite Hx.
  unfold bind at 1. by rewrite IH.
Qed.

Ltac run := unfold bind, ret, raise, lift, get_world, try_except; simpl.

Section OperationsFacts.

Variable ObjectId : val -> exn + string.
Variable ObjectId_str : string -> string.
Variable super_value_for_db : val -> Field -> string -> string -> val -> M val.
Variable super_value_from_db : val -> Field -> string -> string -> M val.
Variable unicode_other : World -> val -> string.

Abbreviation value_for_db := (value_for_db ObjectId super_value_for_db).
Abbreviation value_for_db_body := (value_for_db_body ObjectId super_value_for_db).
Abbreviation value_from_db :=
  (value_from_db ObjectId_str super_value_from_db unicode_other).
Abbreviation value_from_db_body :=
  (value_from_db_body ObjectId_str super_value_from_db unicode_other).

Abbreviation identifier_string := (identifier_string ObjectId ObjectId_str).

Lemma string_not_collection (h : list obj) (v : val) (s : string) :
  is_string v s -> as_collection h v = None.
Proof. by intros [-> | ->]. Qed.

(** A key that the driver accepts becomes its ObjectId. *)
Lemma value_for_db_key (fuel : nat) (v : val) (s binary : string)
    (field : Field) (kind : string) (lookup : val) (w : World) :
  is_string v s ->
  ObjectId v = inr binary ->
  super_value_for_db v field kind "key" lookup w = (Ret v, w) ->
  value_for_db (S fuel) v field kind "key" lookup w = (Ret (VObjectId binary), w).
Proof.
  intros Hs Hid Hsuper. simpl. unfold safe_call, value_for_db_body.
  run. rewrite Hsuper. rewrite (string_not_collection _ _ _ Hs).
  by rewrite Hid.
Qed.

(** An ObjectId read back under storage type 'key' is its text. *)
Lemma value_from_db_key (binary : string) (field : Field) (kind : string)
    (w : World) :
  super_value_from_db (VUnicode (ObjectId_str binary)) field kind "key" w
    = (Ret (VUnicode (ObjectId_str binary)), w) ->
  value_from_db (VObjectId binary) field kind "key" w
    = (Ret (VUnicode (ObjectId_str binary)), w).
Proof.
  intros Hsuper. unfold value_from_db, safe_call, value_from_db_body.
  run. by rewrite Hsuper.
Qed.


(** C3. Read from storage, [None] and the NOT_PROVIDED sentinel give
    [None] at once: nothing else runs and the world is as before.  The
    test looks at the identity of the value only, so a lazy instance
    passes it without the lookup that [value == None] would run. *)
Theorem value_from_db_none (field : Field) (kind db_type : string) (w : World) :
  value_from_db VNone field kind db_type w = (Ret VNone, w) /\
  value_from_db VNotProvided field kind db_type w = (Ret VNone, w) /\
  (forall pk, is_None (VLazy pk) || is_NOT_PROVIDED (VLazy pk) = false) /\
  (forall pk,
     db_type <> "key" -> db_type <> "date" -> db_type <> "time" ->
     value_from_db (VLazy pk) field kind db_type w
     = safe_call (super_value_from_db (VLazy pk) field kind db_type) w) /\
  (forall pk, queries (snd (eq_None (VLazy pk) w)) = S (queries w)).
Proof.
  repeat split; try done.
  intros pk Hk Hd Ht.
  unfold value_from_db, safe_call, value_from_db_body. run.
  apply String.eqb_neq in Hk, Hd, Ht. by rewrite Hk, Hd, Ht.
Qed.

(** C4. Under the storage type 'key', a list, tuple or set of identifier
    strings becomes a new list of their ObjectIds, element by element and in
    the order of the input; the input collection stays in the heap as it
    was. *)
Theorem value_for_db_collection (fuel : nat) (l : loc) (k : seqkind)
    (xs : list val) (binaries : list string)
    (field : Field) (kind : string) (lookup : val) (w : World) :
  heap w !! l = Some (OSeq k xs) ->
  Forall2 (fun x b => (exists s, is_string x s) /\ ObjectId x = inr b) xs binaries ->
  (forall x, x = VRef l \/ x ∈ xs ->
     super_value_for_db x field kind "key" lookup w = (Ret x, w)) ->
  exists w',
    value_for_db (S (S fuel)) (VRef l) field kind "key" lookup w
      = (Ret (VRef (length (heap w))), w') /\
    w' = set_heap (heap w ++ [OSeq KList (map VObjectId binaries)]) w /\
    heap w' !! length (heap w) = Some (OSeq KList (map VObjectId binaries)) /\
    heap w' !! l = Some (OSeq k xs) /\
    l <> length (heap w).
Proof.
  intros Hl Hxs Hsuper. eexists. split; [|split; [reflexivity|]].
  - change (value_for_db (S (S fuel))) with
      (fun v f fk ty lk => safe_call (value_for_db_body (value_for_db (S fuel)) v f fk ty lk)).
    unfold safe_call, value_for_db_body. run.
    rewrite Hsuper by auto. unfold as_collection. rewrite Hl.
    rewrite (comprehension_pure _ xs (map VObjectId binaries) w); [done|].
    clear Hl. induction Hxs as [|x b xs bs [[s Hs] Hb] Hxs IH]; [constructor|].
    simpl. constructor.
    + eapply value_for_db_key; [done..|]. apply Hsuper. right. left.
    + apply IH. intros y [->|Hy]; apply Hsuper; [by left|]. right. by right.
  - pose proof (lookup_lt_Some _ _ _ Hl) as Hlt. simpl.
    split; [|split; [|lia]].
    + by rewrite lookup_app_r, Nat.sub_diag.
    + by rewrite lookup_app_l.
Qed.

Lemma repr_char_plain (c : ascii) :
  plain_char c = true -> repr_char "'"%char c = String c EmptyString.
Proof.
  destruct c as [[] [] [] [] [] [] [] []]; (discriminate || reflexivity).
Qed.

Lemma plain_char_not_quote (c : ascii) :
  plain_char c = true -> Ascii.eqb "'"%char c = false.
Proof.
  destruct c as [[] [] [] [] [] [] [] []]; (discriminate || reflexivity).
Qed.

Lemma has_quote_plain (s : string) :
  plain s = true -> has_char "'"%char s = false.
Proof.
  induction s as [|c s IH]; [done|].
  change (plain_char c && plain s = true ->
          Ascii.eqb "'"%char c || has_char "'"%char s = false).
  intros [Hc Hs]%andb_true_iff.
  by rewrite (IH Hs), (plain_char_not_quote _ Hc).
Qed.

Lemma repr_chars_plain (s : string) :
  plain s = true -> repr_chars "'"%char s = s.
Proof.
  induction s as [|c s IH]; [done|].
  change (plain_char c && plain s = true ->
          repr_char "'"%char c +:+ repr_chars "'"%char s = String c s).
  intros [Hc Hs]%andb_true_iff.
  by rewrite (repr_char_plain _ Hc), (IH Hs).
Qed.

Lemma repr_unicode_plain (s : string) :
  plain s = true -> repr_unicode s = "u'" +:+ s +:+ "'".
Proof.
  intros Hs. unfold repr_unicode.
  rewrite (has_quote_plain _ Hs). cbn [andb].
  by rewrite (repr_chars_plain _ Hs).
Qed.

Lemma append_nil_r (s : string) : s +:+ "" = s.
Proof. induction s as [|c s IH]; [done|]. rewrite append_cons. by f_equal. Qed.

(** The message is the fixed text around [repr(value)], then the hint. *)
Lemma invalid_id_message_shape (p : string) (field : Field) :
  exists after,
    invalid_id_message p field = invalid_id_text +:+ repr_unicode p +:+ after /\
    (db_table field = "django_site" ->
     exists text, invalid_id_message p field = text +:+ site_id_hint).
Proof.
  unfold invalid_id_message.
  destruct (String.eqb_spec (db_table field) "django_site") as [Heq|Hne].
  - exists (" instead)" +:+ site_id_hint). split.
    + rewrite !app_assoc_str. reflexivity.
    + intros _. eexists. reflexivity.
  - exists " instead)". split; [reflexivity|]. intros Heq. by destruct Hne.
Qed.


Lemma safe_call_no_driver_error {A} (body : M A) (w w' : World) (m : string) :
  safe_call body w <> (Raise (PyMongoError m), w').
Proof.
  unfold safe_call, try_except.
  destruct (body w) as [[a|e|] w1]; [done| |done].
  destruct e; done.
Qed.

Lemma safe_call_driver_error {A} (body : M A) (w w' : World) (m : string) :
  body w = (Raise (PyMongoError m), w') ->
  safe_call body w = (Raise (DatabaseError m), w').
Proof. unfold safe_call, try_except. by intros ->. Qed.

Lemma safe_call_invalid_id {A} (body : M A) (w w' : World) (m : string) :
  body w = (Raise (InvalidId m), w') ->
  safe_call body w = (Raise (InvalidId m), w').
Proof. unfold safe_call, try_except. by intros ->. Qed.

(** C7. Both conversions run inside [safe_call]: an error of the driver
    never leaves them as it is; one raised in their body leaves them as the
    adapter's database error, and an InvalidId raised in their body leaves
    them unchanged, message included. *)
Theorem conversions_safe_call (fuel : nat) (v : val) (field : Field)
    (kind db_type : string) (lookup : val) (w : World) :
  (forall m w',
     value_for_db fuel v field kind db_type lookup w <> (Raise (PyMongoError m), w')) /\
  (forall m w',
     value_from_db v field kind db_type w <> (Raise (PyMongoError m), w')) /\
  (forall m w',
     value_for_db_body (value_for_db fuel) v field kind db_type lookup w
       = (Raise (PyMongoError m), w') ->
     value_for_db (S fuel) v field kind db_type lookup w
       = (Raise (DatabaseError m), w')) /\
  (forall m w',
     value_from_db_body v field kind db_type w = (Raise (PyMongoError m), w') ->
     value_from_db v field kind db_type w = (Raise (DatabaseError m), w')) /\
  (forall m w',
     value_for_db_body (value_for_db fuel) v field kind db_type lookup w
       = (Raise (InvalidId m), w') ->
     value_for_db (S fuel) v field kind db_type lookup w
       = (Raise (InvalidId m), w')) /\
  (forall m w',
     value_from_db_body v field kind db_type w = (Raise (InvalidId m), w') ->
     value_from_db v field kind db_type w = (Raise (InvalidId m), w')).
Proof.
  repeat split; intros m w'.
  - destruct fuel; [done|]. apply safe_call_no_driver_error.
  - apply safe_call_no_driver_error.
  - apply safe_call_driver_error.
  - apply safe_call_driver_error.
  - apply safe_call_invalid_id.
  - apply safe_call_invalid_id.
Qed.

End OperationsFacts.

(** *** Dates and times *)

(** A date is stored as a timestamp with zero time-of-day fields. *)
Lemma value_to_db_date_zero_time (y m d : Z) (w : World) :
  valid_date y m d = true ->
  value_to_db_date (VDate y m d) w = (Ret (VDatetime y m d 0 0 0 0), w).
Proof. intros H. unfold value_to_db_date. run. by rewrite H. Qed.

(** A time is stored on the date 1-1-1. *)
Lemma value_to_db_time_sentinel_date (h mi s us : Z) (w : World) :
  valid_time h mi s us = true ->
  value_to_db_time (VTime h mi s us) w = (Ret (VDatetime 1 1 1 h mi s us), w).
Proof. intros H. unfold value_to_db_time. run. by rewrite H. Qed.

Lemma value_to_db_none (w : World) :
  value_to_db_date VNone w = (Ret VNone, w) /\
  value_to_db_time VNone w = (Ret VNone, w).
Proof. done. Qed.

Section ReadBack.

Variable ObjectId_str : string -> string.
Variable super_value_from_db : val -> Field -> string -> string -> M val.
Variable unicode_other : World -> val -> string.

Abbreviation value_from_db :=
  (value_from_db ObjectId_str super_value_from_db unicode_other).

(** Read back under the storage types 'date' and 'time', a timestamp makes
    [datetime.date(value.year, ...)] and [datetime.time(value.hour, ...)]
    raise: [datetime] is the class, so these are its methods applied to an
    integer.  The generic converter is not reached. *)
Lemma value_from_db_timestamp_raises (y m d h mi s us : Z)
    (field : Field) (kind : string) (w : World) :
  (exists msg, value_from_db (VDatetime y m d h mi s us) field kind "date" w
               = (Raise (TypeError msg), w)) /\
  (exists msg, value_from_db (VDatetime y m d h mi s us) field kind "time" w
               = (Raise (TypeError msg), w)).
Proof. split; eexists; reflexivity. Qed.

(** C2, as the code runs it.  The date 2020-01-02 is stored as the
    timestamp 2020-01-02 00:00:00.000000 and the time 10:11:12.000013 as
    0001-01-01 10:11:12.000013; read back, neither gives a date or a time:
    both raise TypeError. *)
Theorem date_time_round_trip_raises (field : Field) (kind : string) (w : World) :
  value_to_db_date (VDate 2020 1 2) w = (Ret (VDatetime 2020 1 2 0 0 0 0), w) /\
  value_from_db (VDatetime 2020 1 2 0 0 0 0) field kind "date" w
    = (Raise (TypeError "descriptor 'date' requires a 'datetime.datetime' object"), w) /\
  value_to_db_time (VTime 10 11 12 13) w = (Ret (VDatetime 1 1 1 10 11 12 13), w) /\
  value_from_db (VDatetime 1 1 1 10 11 12 13) field kind "time" w
    = (Raise (TypeError "descriptor 'time' requires a 'datetime.datetime' object"), w).
Proof. repeat split. Qed.

End ReadBack.

(** *** Concrete cases *)


(** With this driver, upper-case digits are accepted too, and read back in
    lower case: such a string is not the text of its identifier. *)
Example upper_case_key_reads_back_lower :
  (stored <- Driver.value_for_db 1 (VUnicode "4F1E2D3C4B5A69788796A5B4")
               Driver.pk_field "AutoField" "key" VNone ;;
   Driver.value_from_db stored Driver.pk_field "AutoField" "key")
    Driver.empty_world
  = (Ret (VUnicode "4f1e2d3c4b5a69788796a5b4"), Driver.empty_world).
Proof. reflexivity. Qed.

Lemma value_for_db_collection_example :
  exists w',
    Driver.value_for_db 2 (VRef 0%nat) Driver.pk_field "AutoField" "key" VNone
      two_keys_world = (Ret (VRef 1%nat), w') /\
    w' = set_heap (heap two_keys_world ++
                   [OSeq KList (map VObjectId two_keys_binaries)]) two_keys_world /\
    heap w' !! 1%nat = Some (OSeq KList (map VObjectId two_keys_binaries)) /\
    heap w' !! 0%nat
      = Some (OSeq KTuple [VUnicode "4f1e2d3c4b5a69788796a5b4"; VStr "abcdefghijkl"]) /\
    0%nat <> 1%nat.
Proof.
  apply (value_for_db_collection Driver.ObjectId Driver.super_value_for_db
           0%nat 0%nat KTuple
           [VUnicode "4f1e2d3c4b5a69788796a5b4"; VStr "abcdefghijkl"]
           two_keys_binaries Driver.pk_field "AutoField" VNone two_keys_world).
  - reflexivity.
  - repeat constructor.
    + exists "4f1e2d3c4b5a69788796a5b4". by right.
    + exists "abcdefghijkl". by left.
  - intros x _. reflexivity.
Defined.


(** The example of the specification: the message shows 'not-a-vali...'
    and not the value. *)
Example invalid_key_message_preview :
  exists msg,
    Driver.value_for_db 1 (VUnicode "not-a-valid-id-longer-than-13-chars")
      Driver.pk_field "AutoField" "key" VNone Driver.empty_world
      = (Raise (InvalidId msg), Driver.empty_world) /\
    is_infix "not-a-vali..." msg = true /\
    is_infix "not-a-valid-id-longer-than-13-chars" msg = false.
Proof. eexists. split; [reflexivity|]. split; reflexivity. Qed.


(** A preview with a backslash is in the message in its escaped form only. *)
Example invalid_key_message_escapes :
  exists msg,
    Driver.value_for_db 1 (VUnicode "a\bcdefghijklmnop")
      Driver.pk_field "AutoField" "key" VNone Driver.empty_world
      = (Raise (InvalidId msg), Driver.empty_world) /\
    is_infix "a\bcdefghi..." msg = false /\
    is_infix "u'a\\bcdefghi...'" msg = true.
Proof. eexists. split; [reflexivity|]. split; reflexivity. Qed.

Lemma conversions_safe_call_example :
  value_for_db Driver.ObjectId failing_super_value_for_db 1 (VInt 7)
    Driver.pk_field "IntegerField" "integer" VNone Driver.empty_world
  = (Raise (DatabaseError "connection closed"), Driver.empty_world).
Proof.
  apply (conversions_safe_call Driver.ObjectId Driver.ObjectId_str
           failing_super_value_for_db Driver.super_value_from_db
           Driver.unicode_other 0%nat (VInt 7) Driver.pk_field
           "IntegerField" "integer" VNone Driver.empty_world).
  reflexivity.
Defined.

(** ** Properties of the heap and of deepcopy *)

Lemma set_heap_id (w : World) : set_heap (heap w) w = w.
Proof. by destruct w. Qed.

Lemma reify_ref (n : nat) (h : list obj) (l : loc) (t : tree) :
  reify n h (VRef l) = Some t ->
  exists n' o ts, n = S n' /\ h !! l = Some o /\
    Forall2 (fun v t => reify n' h v = Some t) (children o) ts /\
    t = rebuild o ts.
Proof.
  destruct n as [|n']; [done|]. simpl.
  destruct (h !! l) as [o|]; [|done].
  destruct (mapM _ _) as [ts|] eqn:Hts; [|done].
  intros [= <-]. apply mapM_Some in Hts. by exists n', o, ts.
Qed.

Lemma reify_ref_intro (n : nat) (h : list obj) (l : loc) (o : obj) (ts : list tree) :
  h !! l = Some o ->
  Forall2 (fun v t => reify n h v = Some t) (children o) ts ->
  reify (S n) h (VRef l) = Some (rebuild o ts).
Proof.
  intros Hl Hts. simpl. rewrite Hl.
  apply mapM_Some in Hts. by rewrite Hts.
Qed.

Lemma reify_atom (n : nat) (h : list obj) (v : val) :
  (forall l, v <> VRef l) -> reify n h v = Some (TLeaf v).
Proof. intros Hv. destruct v; try by destruct n. by destruct (Hv l). Qed.

(** More fuel, or more heap, gives the same tree. *)
Lemma reify_mono_fuel (n m : nat) (h : list obj) (v : val) (t : tree) :
  reify n h v = Some t -> (n <= m)%nat -> reify m h v = Some t.
Proof.
  revert m v t. induction n as [|n IH]; intros m v t Hv Hnm.
  - destruct v; destruct m; done.
  - destruct v; try (by destruct m).
    apply reify_ref in Hv as (n' & o & ts & [= <-] & Hl & Hts & ->).
    destruct m as [|m]; [lia|]. apply reify_ref_intro; [done|].
    eapply Forall2_impl; [done|]. intros x y Hxy. apply IH; [done|lia].
Qed.

Lemma reify_app (n : nat) (h ext : list obj) (v : val) (t : tree) :
  reify n h v = Some t -> reify n (h ++ ext) v = Some t.
Proof.
  revert v t. induction n as [|n IH]; intros v t Hv.
  - by destruct v.
  - destruct v; try done.
    apply reify_ref in Hv as (n' & o & ts & [= <-] & Hl & Hts & ->).
    apply reify_ref_intro; [by apply lookup_app_l_Some|].
    eapply Forall2_impl; [done|]. intros x y Hxy. by apply IH.
Qed.

Lemma denotes_app (h ext : list obj) (v : val) (t : tree) :
  denotes h v t -> denotes (h ++ ext) v t.
Proof. intros [n Hn]. exists n. by apply reify_app. Qed.

Lemma denotes_det (h : list obj) (v : val) (t1 t2 : tree) :
  denotes h v t1 -> denotes h v t2 -> t1 = t2.
Proof.
  intros [n1 H1] [n2 H2].
  apply (reify_mono_fuel _ (Nat.max n1 n2)) in H1; [|lia].
  apply (reify_mono_fuel _ (Nat.max n1 n2)) in H2; [|lia].
  congruence.
Qed.

(** The elements of a container and the trees they stand for. *)
Lemma denotes_all (h : list obj) (vs : list val) (ts : list tree) :
  Forall2 (denotes h) vs ts ->
  exists n, Forall2 (fun v t => reify n h v = Some t) vs ts.
Proof.
  induction 1 as [|v t vs ts [n1 Hv] _ [n2 IH]]; [by exists 0%nat|].
  exists (Nat.max n1 n2). constructor.
  - apply (reify_mono_fuel n1); [done|lia].
  - eapply Forall2_impl; [done|]. intros x y Hxy.
    apply (reify_mono_fuel n2); [done|lia].
Qed.

Lemma denotes_ref (h : list obj) (l : loc) (t : tree) :
  denotes h (VRef l) t <->
  exists o ts, h !! l = Some o /\ Forall2 (denotes h) (children o) ts /\
               t = rebuild o ts.
Proof.
  split.
  - intros [n Hn]. apply reify_ref in Hn as (n' & o & ts & -> & Hl & Hts & ->).
    exists o, ts. split; [done|]. split; [|done].
    eapply Forall2_impl; [done|]. intros x y Hxy. by exists n'.
  - intros (o & ts & Hl & Hts & ->). apply denotes_all in Hts as [n Hts].
    exists (S n). by apply reify_ref_intro.
Qed.

Lemma Forall2_impl_Forall {A B} (P : A -> Prop) (R R' : A -> B -> Prop)
    (xs : list A) (ys : list B) :
  Forall P xs -> Forall2 R xs ys ->
  (forall x y, P x -> R x y -> R' x y) -> Forall2 R' xs ys.
Proof.
  intros HP HR Himpl. induction HR as [|x y xs ys Hxy _ IH]; [constructor|].
  apply Forall_cons in HP as [Hx Hxs]. constructor; auto.
Qed.

Lemma children_with_children (o : obj) (ys : list val) :
  length ys = length (children o) -> children (with_children o ys) = ys.
Proof.
  destruct o as [k xs|items]; [done|]. simpl. intros Hlen.
  rewrite length_map in Hlen. apply snd_zip. rewrite length_map. lia.
Qed.

Lemma rebuild_with_children (o : obj) (ys : list val) (ts : list tree) :
  length ys = length (children o) ->
  rebuild (with_children o ys) ts = rebuild o ts.
Proof.
  destruct o as [k xs|items]; [done|]. simpl. intros Hlen.
  rewrite length_map in Hlen. rewrite fst_zip; [done|]. rewrite length_map. lia.
Qed.

Section Copy.

(** [h0] is the heap when the copy starts. *)
Variable h0 : list obj.

Abbreviation young := (young h0).
Abbreviation downward := (downward h0).
Abbreviation memo_ok := (memo_ok h0).
Abbreviation copied := (copied h0).

Lemma young_weaken (b b' : nat) (v : val) :
  young b v -> (b <= b')%nat -> young b' v.
Proof. destruct v; simpl; try done. lia. Qed.

Lemma downward_alloc (h : list obj) (o : obj) :
  downward h -> Forall (young (length h)) (children o) -> downward (h ++ [o]).
Proof.
  intros Hh Ho l o' Hl Hlook.
  destruct (decide (l < length h)%nat) as [Hlt|Hge].
  - rewrite lookup_app_l in Hlook by done. by apply Hh.
  - rewrite lookup_app_r in Hlook by lia.
    destruct (l - length h)%nat as [|k] eqn:Hk; [|done].
    injection Hlook as <-. replace l with (length h) by lia. done.
Qed.

Lemma downward_insert (h : list obj) (l : loc) (o : obj) :
  downward h -> Forall (young l) (children o) -> downward (<[l := o]> h).
Proof.
  intros Hh Ho l' o' Hl Hlook.
  destruct (decide (l = l')) as [<-|Hne].
  - destruct (decide (l < length h)%nat) as [Hlt|Hge].
    + rewrite list_lookup_insert_eq in Hlook by done. by injection Hlook as <-.
    + rewrite list_insert_ge in Hlook by lia. by apply Hh.
  - rewrite list_lookup_insert_ne in Hlook by done. by apply Hh.
Qed.

(** Writing at [l] leaves what the values below [l] stand for. *)
Lemma reify_insert_above (n : nat) (h : list obj) (l : loc) (o : obj)
    (v : val) (t : tree) :
  downward h -> young l v ->
  reify n h v = Some t -> reify n (<[l := o]> h) v = Some t.
Proof.
  intros Hh. revert v t. induction n as [|n IH]; intros v t Hv Hn.
  - by destruct v.
  - destruct v as [| | | | | | | | | | |l1]; try done.
    apply reify_ref in Hn as (n' & o1 & ts & [= <-] & Hl & Hts & ->).
    simpl in Hv. apply reify_ref_intro.
    + rewrite list_lookup_insert_ne by lia. done.
    + eapply Forall2_impl_Forall; [by apply (Hh l1 o1); [lia|]|done|].
      intros x y Hx Hxy. apply IH; [|done].
      eapply young_weaken; [done|lia].
Qed.

Lemma denotes_insert_above (h : list obj) (l : loc) (o : obj) (v : val) (t : tree) :
  downward h -> young l v -> denotes h v t -> denotes (<[l := o]> h) v t.
Proof. intros Hh Hv [n Hn]. exists n. by apply reify_insert_above. Qed.

Lemma memo_ok_app (h ext : list obj) (memo : memo_table) :
  memo_ok h memo -> memo_ok (h ++ ext) memo.
Proof.
  intros Hm l y Hly. destruct (Hm l y Hly) as [Hy Hd]. split.
  - eapply young_weaken; [done|]. rewrite length_app. lia.
  - intros t Ht. by apply denotes_app, Hd.
Qed.

Lemma deepcopy_all_correct (n : nat) :
  (forall v memo w t ext0,
     heap w = h0 ++ ext0 -> downward (heap w) -> memo_ok (heap w) memo ->
     reify n h0 v = Some t ->
     exists v', copied w memo v' t (deepcopy_memo n v memo w)) ->
  forall xs ts memo w ext0,
    heap w = h0 ++ ext0 -> downward (heap w) -> memo_ok (heap w) memo ->
    Forall2 (fun v t => reify n h0 v = Some t) xs ts ->
    exists ys memo' ext,
      deepcopy_all (deepcopy_memo n) xs memo w
        = (Ret (ys, memo'), set_heap (heap w ++ ext) w) /\
      downward (heap w ++ ext) /\ memo_ok (heap w ++ ext) memo' /\
      Forall (young (length (heap w ++ ext))) ys /\
      Forall2 (denotes (heap w ++ ext)) ys ts.
Proof.
  intros IH xs ts memo w ext0 Hw Hdown Hmemo Hxs.
  revert memo w ext0 Hw Hdown Hmemo.
  induction Hxs as [|x t xs ts Hx _ IHxs]; intros memo w ext0 Hw Hdown Hmemo.
  - exists [], memo, []. rewrite app_nil_r, set_heap_id.
    do 3 (split; [done|]). split; constructor.
  - destruct (IH x memo w t ext0 Hw Hdown Hmemo Hx)
      as (y & memo1 & ext1 & Hrun & Hdown1 & Hmemo1 & Hy & Hyt).
    destruct (IHxs memo1 (set_heap (heap w ++ ext1) w) (ext0 ++ ext1))
      as (ys & memo2 & ext2 & Hrun2 & Hdown2 & Hmemo2 & Hys & Hyts);
      [by simpl; rewrite Hw, app_assoc|done|done|].
    simpl in Hrun2, Hdown2, Hmemo2, Hys, Hyts.
    rewrite <- app_assoc in Hdown2, Hmemo2, Hys, Hyts.
    exists (y :: ys), memo2, (ext1 ++ ext2). split_and!.
    + simpl. unfold bind at 1. rewrite Hrun. simpl.
      unfold bind at 1. rewrite Hrun2. simpl. by rewrite app_assoc.
    + done.
    + done.
    + constructor; [|done]. eapply young_weaken; [done|].
      rewrite !length_app. lia.
    + constructor; [|done]. rewrite app_assoc. by apply denotes_app.
Qed.

Lemma deepcopy_memo_correct (n : nat) (v : val) (memo : memo_table) (w : World)
    (t : tree) (ext0 : list obj) :
  heap w = h0 ++ ext0 -> downward (heap w) -> memo_ok (heap w) memo ->
  reify n h0 v = Some t ->
  exists v', copied w memo v' t (deepcopy_memo n v memo w).
Proof.
  revert v memo w t ext0. induction n as [|n IH];
    intros v memo w t ext0 Hw Hdown Hmemo Hv.
  - destruct v; try done; eexists; exists memo, [];
      rewrite app_nil_r, set_heap_id; split_and!; try done; by exists 0%nat.
  - destruct v as [| | | | | | | | | | |l];
      try (eexists; exists memo, []; rewrite app_nil_r, set_heap_id;
           split_and!; try done; by exists 0%nat).
    simpl. destruct (memo_get l memo) as [y|] eqn:Hget.
    { exists (VRef y), memo, []. rewrite app_nil_r, set_heap_id.
      destruct (Hmemo l y Hget) as [Hy Hd].
      split_and!; try done. apply Hd. by exists (S n). }
    pose proof Hv as Hv'.
    apply reify_ref in Hv' as (n' & o & ts & [= <-] & Hl & Hts & ->).
    unfold bind at 1, load. rewrite Hw, (lookup_app_l_Some _ _ _ _ Hl).
    destruct (deepcopy_all_correct n IH (children o) ts memo w ext0
                Hw Hdown Hmemo Hts)
      as (ys & memo1 & ext1 & Hrun & Hdown1 & Hmemo1 & Hys & Hyts).
    unfold bind at 1. rewrite Hrun.
    assert (Hlen : length ys = length (children o)).
    { apply Forall2_length in Hyts, Hts. lia. }
    set (h1 := heap w ++ ext1) in *.
    exists (VRef (length h1)), ((l, length h1) :: memo1),
      (ext1 ++ [with_children o ys]).
    assert (Hn0 : (length h0 <= length h1)%nat).
    { unfold h1. rewrite Hw, !length_app. lia. }
    assert (Hnew : denotes (h1 ++ [with_children o ys]) (VRef (length h1))
                     (rebuild o ts)).
    { apply denotes_ref. exists (with_children o ys), ts. split; [|split].
      - by rewrite lookup_app_r, Nat.sub_diag.
      - rewrite children_with_children by done.
        eapply Forall2_impl; [done|]. intros x y Hxy. by apply denotes_app.
      - by rewrite rebuild_with_children. }
    rewrite app_assoc. fold h1. split_and!.
    + reflexivity.
    + apply downward_alloc; [done|]. by rewrite children_with_children.
    + intros l0 y Hly. simpl in Hly.
      destruct (Nat.eqb_spec l0 l) as [->|Hne].
      * injection Hly as <-. split; [simpl; rewrite length_app; simpl; lia|].
        intros t' Ht'. assert (t' = rebuild o ts) as ->; [|done].
        eapply denotes_det; [done|]. by exists (S n).
      * by apply (memo_ok_app h1 [with_children o ys] memo1).
    + simpl. rewrite length_app. simpl. lia.
    + done.
Qed.

End Copy.

(** ** Rules for the specifications of monadic code *)

Lemma triple_ret {A} (P : World -> Prop) (a : A) (Q : A -> World -> Prop) E :
  (forall w, P w -> Q a w) -> triple P (ret a) Q E.
Proof. intros H w Hw. by apply H. Qed.

Lemma triple_raise {A} (P : World -> Prop) (e : exn) (Q : A -> World -> Prop) E :
  (forall w, P w -> E w) -> triple P (raise e) Q E.
Proof. intros H w Hw. by apply H. Qed.

Lemma triple_stuck {A} (P : World -> Prop) (Q : A -> World -> Prop) E :
  (forall w, P w -> E w) -> triple P stuck Q E.
Proof. intros H w Hw. by apply H. Qed.

Lemma triple_bind {A B} (P : World -> Prop) (m : M A) (f : A -> M B)
    (R : A -> World -> Prop) (Q : B -> World -> Prop) E :
  triple P m R E -> (forall a, triple (R a) (f a) Q E) ->
  triple P (bind m f) Q E.
Proof.
  intros Hm Hf w Hw. unfold bind. specialize (Hm w Hw).
  destruct (m w) as [[a|e|] w1]; [by apply Hf|done..].
Qed.

Lemma triple_try {A} (P : World -> Prop) (m : M A) (h : exn -> option (M A))
    (Q : A -> World -> Prop) (E' E : World -> Prop) :
  triple P m Q E' ->
  (forall e k, h e = Some k -> triple E' k Q E) ->
  (forall w, E' w -> E w) ->
  triple P (try_except m h) Q E.
Proof.
  intros Hm Hh Hsub w Hw. unfold try_except. specialize (Hm w Hw).
  destruct (m w) as [[a|e|] w1]; [done| |by apply Hsub].
  destruct (h e) as [k|] eqn:Hk; [|by apply Hsub].
  by apply (Hh e k Hk).
Qed.

Lemma triple_conseq {A} (P P' : World -> Prop) (m : M A)
    (Q Q' : A -> World -> Prop) (E E' : World -> Prop) :
  triple P m Q E ->
  (forall w, P' w -> P w) -> (forall a w, Q a w -> Q' a w) ->
  (forall w, E w -> E' w) ->
  triple P' m Q' E'.
Proof.
  intros Hm HP HQ HE w Hw. specialize (Hm w (HP w Hw)).
  destruct (m w) as [[a|e|] w1]; auto.
Qed.

Lemma triple_modify (P : World -> Prop) (f : World -> World)
    (Q : unit -> World -> Prop) E :
  (forall w, P w -> Q tt (f w)) -> triple P (modify f) Q E.
Proof. intros H w Hw. by apply H. Qed.

Lemma triple_get_world (P : World -> Prop) (Q : World -> World -> Prop) E :
  (forall w, P w -> Q w w) -> triple P get_world Q E.
Proof. intros H w Hw. by apply H. Qed.

Lemma triple_lift {A} (P : World -> Prop) (r : exn + A)
    (Q : A -> World -> Prop) (E : World -> Prop) :
  (forall w, P w -> E w) -> (forall a w, P w -> Q a w) ->
  triple P (lift r) Q E.
Proof. intros HE HQ w Hw. destruct r; simpl; auto. Qed.

(** *** Invariants of a connect attempt *)

Section Invariant.

(** An invariant that speaks of the heap, the settings of the wrapper, its
    operation flags and the calls made to the driver only. *)
Variable I : World -> Prop.
Hypothesis I_respects : forall w w',
  heap w' = heap w ->
  settings_dict (wrapper w') = settings_dict (wrapper w) ->
  operation_flags (wrapper w') = operation_flags (wrapper w) ->
  driver_calls w' = driver_calls w ->
  I w -> I w'.

Abbreviation keeps := (keeps I).

Lemma keeps_ret {A} (a : A) (Q : A -> Prop) : Q a -> keeps (ret a) Q.
Proof. intros Ha w Hw. done. Qed.

Lemma keeps_raise {A} (e : exn) (Q : A -> Prop) : keeps (raise e) Q.
Proof. by intros w Hw. Qed.

Lemma keeps_stuck {A} (Q : A -> Prop) : keeps stuck Q.
Proof. by intros w Hw. Qed.

Lemma keeps_bind {A B} (m : M A) (f : A -> M B) (R : A -> Prop) (Q : B -> Prop) :
  keeps m R -> (forall a, R a -> keeps (f a) Q) -> keeps (bind m f) Q.
Proof.
  intros Hm Hf. eapply triple_bind; [exact Hm|].
  intros a w [Hw Ha]. by apply Hf.
Qed.

Lemma keeps_try {A} (m : M A) (h : exn -> option (M A)) (Q : A -> Prop) :
  keeps m Q -> (forall e k, h e = Some k -> keeps k Q) -> keeps (try_except m h) Q.
Proof. intros Hm Hh. eapply triple_try; [exact Hm|exact Hh|done]. Qed.

Lemma keeps_lift {A} (r : exn + A) : keeps (lift r) (fun _ => True).
Proof. by apply triple_lift. Qed.

Lemma keeps_get_world : keeps get_world (fun _ => True).
Proof. by apply triple_get_world. Qed.

(** A change that leaves the heap, the settings and the flags is kept. *)
Lemma keeps_modify (f : World -> World) :
  (forall w, heap (f w) = heap w) ->
  (forall w, wrapper (f w) = wrapper w) ->
  (forall w, driver_calls (f w) = driver_calls w) ->
  keeps (modify f) (fun _ => True).
Proof.
  intros Hh Hx Hc. apply triple_modify. intros w Hw. split; [|done].
  apply (I_respects w); [done|by rewrite Hx|by rewrite Hx|done|done].
Qed.

Lemma keeps_modify_wrapper (f : Wrapper -> Wrapper) :
  (forall x, settings_dict (f x) = settings_dict x) ->
  (forall x, operation_flags (f x) = operation_flags x) ->
  keeps (modify_wrapper f) (fun _ => True).
Proof.
  intros Hs Hf. apply triple_modify. intros w Hw. split; [|done].
  apply (I_respects w); [done|apply Hs|apply Hf|done|done].
Qed.

Lemma keeps_load (l : loc) : keeps (load l) (fun _ => True).
Proof. intros w Hw. unfold load. by destruct (heap w !! l). Qed.

Lemma keeps_read_items (d : val) (method : string) :
  keeps (dict_items d method) (fun _ => True).
Proof.
  destruct d; try apply keeps_raise.
  eapply keeps_bind; [apply keeps_load|].
  intros [k xs|items] _; [|by apply keeps_ret].
  destruct k; try destruct (String.eqb method "pop"); apply keeps_raise.
Qed.

Lemma keeps_dict_get_method (d : val) (key : string) :
  keeps (dict_get_method d key) (fun _ => True).
Proof.
  eapply keeps_bind; [apply keeps_read_items|]. intros p _. by apply keeps_ret.
Qed.

Lemma keeps_truthy (v : val) : keeps (truthy v) (fun _ => True).
Proof.
  destruct v; try by apply keeps_ret.
  eapply keeps_bind; [apply keeps_load|].
  intros [k xs|items] _; by apply keeps_ret.
Qed.

Lemma keeps_iterate (v : val) : keeps (iterate v) (fun _ => True).
Proof.
  destruct v; try apply keeps_raise; try by apply keeps_ret.
  eapply keeps_bind; [apply keeps_load|].
  intros [k xs|items] _; by apply keeps_ret.
Qed.

Lemma keeps_any_contained_in (ks : list val) (names : list string) :
  keeps (any_contained_in ks names) (fun _ => True).
Proof.
  induction ks as [|k ks IH]; [by apply keeps_ret|]. simpl.
  eapply (keeps_bind _ _ (fun _ => True)).
  - destruct k;
      first [ by apply keeps_ret
            | eapply keeps_bind; [by apply keeps_modify|];
              intros _ _; by apply keeps_ret ].
  - intros [] _; [by apply keeps_ret|done].
Qed.

Lemma keeps_for_each {A} (xs : list A) (body : A -> M unit) :
  (forall x, keeps (body x) (fun _ => True)) ->
  keeps (for_each xs body) (fun _ => True).
Proof.
  intros Hbody. induction xs as [|x xs IH]; [by apply keeps_ret|]. simpl.
  eapply keeps_bind; [apply Hbody|]. by intros _ _.
Qed.

Section InvariantWrapper.

Variable Connection_fault : val -> val -> list (string * val) -> option exn.
Variable Database_fault : string -> option exn.
Variable authenticate : Database -> val -> val -> exn + bool.

(** The call of the constructor, for an invariant that does not speak of
    the calls made. *)
Lemma keeps_Connection_call (host port options : val) :
  (forall w c, I w -> I (set_driver_calls c w)) ->
  keeps (Connection_call Connection_fault host port options) (fun _ => True).
Proof.
  intros Hcalls. eapply keeps_bind; [apply keeps_read_items|].
  intros p _. eapply (keeps_bind _ _ (fun _ => True)).
  { apply triple_modify. intros w Hw. split; [|done]. by apply Hcalls. }
  intros _ _. destruct (_ || _); [apply keeps_raise|].
  destruct (Connection_fault _ _ _); [apply keeps_raise|by apply keeps_ret].
Qed.

(** Opening the connection: when the call of the constructor leads from
    [P] to the invariant, so does the whole. *)
Lemma open_connection_triple (P : World -> Prop)
    (settings db_name host port user password options : val) :
  triple P (Connection_call Connection_fault host port options) (fun _ => I) I ->
  triple P
    (open_connection Connection_fault Database_fault authenticate
       settings db_name host port user password options)
    (fun _ => I) I.
Proof.
  intros Hcall. unfold open_connection.
  assert (Hdrop : forall {A} (m : M A) Q, keeps m Q -> triple I m (fun _ => I) I).
  { intros A m Q Hm. eapply triple_conseq; [exact Hm|done| |done].
    by intros a w [Hw _]. }
  eapply triple_bind.
  { eapply triple_try;
      [|intros e k Hk; destruct e; try done; injection Hk as <-;
        by apply triple_raise|done].
    eapply triple_bind; [exact Hcall|]. intros c.
    apply (Hdrop _ _ (fun _ => True)).
    eapply keeps_bind; [by apply keeps_modify_wrapper|]. intros _ _.
    eapply keeps_bind; [|intros d _; by apply keeps_modify_wrapper].
    unfold Connection_getitem. destruct (string_of db_name); [|apply keeps_raise].
    destruct (Database_fault _); [apply keeps_raise|].
    by apply (keeps_ret _ (fun _ => True)). }
  intros ?. apply (Hdrop _ _ (fun _ => True)).
  eapply keeps_bind; [apply keeps_truthy|]. intros has_user _.
  eapply (keeps_bind _ _ (fun _ => True)).
  { destruct has_user; [apply keeps_truthy|by apply keeps_ret]. }
  intros has_password _. eapply (keeps_bind _ _ (fun _ => True)).
  { destruct (_ && _); [|by apply keeps_ret].
    eapply keeps_bind; [apply keeps_get_world|]. intros w' _.
    destruct (database (wrapper w')); [|apply keeps_raise].
    eapply keeps_bind; [apply keeps_lift|].
    intros [] _; [by apply keeps_ret|apply keeps_raise]. }
  intros _ _. eapply keeps_bind; [apply keeps_dict_get_method|]. intros referencing _.
  eapply keeps_bind; [apply keeps_truthy|]. intros automatic _.
  eapply (keeps_bind _ _ (fun _ => True)).
  { destruct automatic; [by apply keeps_modify_wrapper|by apply keeps_ret]. }
  intros _ _. eapply keeps_bind; [by apply keeps_modify_wrapper|]. intros _ _.
  by apply keeps_modify.
Qed.

Lemma keeps_open_connection (settings db_name host port user password options : val) :
  (forall w c, I w -> I (set_driver_calls c w)) ->
  keeps (open_connection Connection_fault Database_fault authenticate
           settings db_name host port user password options)
    (fun _ => True).
Proof.
  intros Hcalls. eapply triple_conseq.
  - apply (open_connection_triple I).
    eapply triple_conseq; [by apply keeps_Connection_call|done| |done].
    by intros a w [Hw _].
  - done.
  - by intros a w Hw.
  - done.
Qed.

End InvariantWrapper.

End Invariant.

(** *** What a connect attempt leaves alone *)

Section Frame.

(** The heap and the settings of the wrapper when the attempt starts. *)
Variable h0 : list obj.
Variable sd0 : val.

Abbreviation fresh := (fresh h0).
Abbreviation untouched := (untouched h0 sd0).
Abbreviation memo_fresh := (memo_fresh h0).

Lemma untouched_respects (w w' : World) :
  heap w' = heap w ->
  settings_dict (wrapper w') = settings_dict (wrapper w) ->
  operation_flags (wrapper w') = operation_flags (wrapper w) ->
  driver_calls w' = driver_calls w ->
  untouched w -> untouched w'.
Proof. intros Hh Hs _ _ [Hheap Hsd]. split; [by rewrite Hh|by rewrite Hs]. Qed.

Lemma untouched_alloc (w : World) (o : obj) :
  untouched w -> Forall fresh (children o) ->
  untouched (set_heap (heap w ++ [o]) w).
Proof.
  intros [(ext & Hheap & Hext) Hsd] Ho. split; [|done].
  exists (ext ++ [o]). simpl. rewrite Hheap, app_assoc. split; [done|].
  apply Forall_app. split; [done|]. by constructor.
Qed.

Lemma untouched_length (w : World) : untouched w -> (length h0 <= length (heap w))%nat.
Proof. intros [(ext & -> & _) _]. rewrite length_app. lia. Qed.

Lemma keeps_set_operation_flags (flags : val) :
  keeps untouched (set_operation_flags flags) (fun _ => True).
Proof. apply triple_modify. by intros w [Hheap Hsd]. Qed.

Lemma keeps_load_fresh (l : loc) :
  keeps untouched (load l)
    (fun o => (length h0 <= l)%nat -> Forall fresh (children o)).
Proof.
  intros w Hw. unfold load. destruct (heap w !! l) as [o|] eqn:Hl; [|done].
  split; [done|]. intros Hge.
  destruct Hw as [(ext & Hheap & Hext) _]. rewrite Hheap in Hl.
  rewrite lookup_app_r in Hl by done.
  by eapply Forall_lookup_1 in Hext.
Qed.

Lemma keeps_alloc_loc (o : obj) :
  Forall fresh (children o) ->
  keeps untouched (alloc_loc o) (fun l => (length h0 <= l)%nat).
Proof.
  intros Ho w Hw. split; [by apply untouched_alloc|]. by apply untouched_length.
Qed.

Lemma keeps_alloc (o : obj) :
  Forall fresh (children o) -> keeps untouched (alloc o) fresh.
Proof.
  intros Ho w Hw. split; [by apply untouched_alloc|].
  simpl. by apply untouched_length.
Qed.

Lemma keeps_store_obj (l : loc) (o : obj) :
  (length h0 <= l)%nat -> Forall fresh (children o) ->
  keeps untouched (store_obj l o) (fun _ => True).
Proof.
  intros Hl Ho. apply triple_modify. intros w [(ext & Hheap & Hext) Hsd].
  split; [|done]. split; [|done].
  exists (<[(l - length h0)%nat := o]> ext). simpl. rewrite Hheap. split.
  - by rewrite insert_app_r_alt.
  - by apply Forall_insert.
Qed.

Lemma keeps_dict_items (d : val) (method : string) :
  fresh d ->
  keeps untouched (dict_items d method)
    (fun p => (length h0 <= p.1)%nat /\ Forall fresh (map snd p.2)).
Proof.
  intros Hd. destruct d; try apply keeps_raise.
  eapply keeps_bind; [apply keeps_load_fresh|]. simpl in Hd.
  intros [k xs|items] Ho.
  - destruct k; try destruct (String.eqb method "pop"); apply keeps_raise.
  - apply keeps_ret. split; [done|]. by apply Ho.
Qed.

Lemma dict_get_fresh (key : string) (items : list (string * val)) (v : val) :
  Forall fresh (map snd items) -> dict_get key items = Some v -> fresh v.
Proof.
  induction items as [|[k x] items IH]; [done|]. simpl.
  intros [Hx Hitems]%Forall_cons. destruct (String.eqb key k); [|by auto].
  by intros [= <-].
Qed.

Lemma dict_del_fresh (key : string) (items : list (string * val)) :
  Forall fresh (map snd items) -> Forall fresh (map snd (dict_del key items)).
Proof.
  induction items as [|[k x] items IH]; [done|]. simpl.
  intros [Hx Hitems]%Forall_cons.
  destruct (String.eqb key k); [by auto|]. simpl. constructor; auto.
Qed.

Lemma dict_set_fresh (key : string) (v : val) (items : list (string * val)) :
  fresh v -> Forall fresh (map snd items) ->
  Forall fresh (map snd (dict_set key v items)).
Proof.
  intros Hv. induction items as [|[k x] items IH]; simpl.
  - by constructor.
  - intros [Hx Hitems]%Forall_cons.
    destruct (String.eqb key k); simpl; constructor; auto.
Qed.

Lemma keeps_dict_pop (d : val) (key : string) :
  fresh d -> keeps untouched (dict_pop d key) fresh.
Proof.
  intros Hd. eapply keeps_bind; [by apply keeps_dict_items|].
  intros [l items] [Hl Hitems]. simpl in *.
  destruct (dict_get key items) as [v|] eqn:Hget; [|apply keeps_raise].
  eapply keeps_bind.
  - apply keeps_store_obj; [done|]. by apply dict_del_fresh.
  - intros _ _. apply keeps_ret. by eapply dict_get_fresh.
Qed.

Lemma keeps_dict_pop_default (d : val) (key : string) (default : val) :
  fresh d -> fresh default -> keeps untouched (dict_pop_default d key default) fresh.
Proof.
  intros Hd Hdef. eapply keeps_bind; [by apply keeps_dict_items|].
  intros [l items] [Hl Hitems]. simpl in *.
  destruct (dict_get key items) as [v|] eqn:Hget; [|by apply keeps_ret].
  eapply keeps_bind.
  - apply keeps_store_obj; [done|]. by apply dict_del_fresh.
  - intros _ _. apply keeps_ret. by eapply dict_get_fresh.
Qed.

Lemma keeps_dict_setitem (d : val) (key : string) (v : val) :
  fresh d -> fresh v -> keeps untouched (dict_setitem d key v) (fun _ => True).
Proof.
  intros Hd Hv. eapply keeps_bind; [by apply keeps_dict_items|].
  intros [l items] [Hl Hitems]. simpl in *.
  apply keeps_store_obj; [done|]. by apply dict_set_fresh.
Qed.

Lemma children_with_children_fresh (o : obj) (ys : list val) :
  Forall fresh ys -> Forall fresh (children (with_children o ys)).
Proof.
  destruct o as [k xs|items]; [done|]. simpl. generalize (map fst items).
  induction ys as [|y ys IH]; intros ks Hys.
  - by destruct ks.
  - apply Forall_cons in Hys as [Hy Hys].
    destruct ks as [|k ks]; simpl; [done|]. constructor; auto.
Qed.

Lemma keeps_deepcopy_all (copy : val -> memo_table -> M (val * memo_table))
    (xs : list val) (memo : memo_table) :
  (forall x memo, memo_fresh memo ->
     keeps untouched (copy x memo) (fun p => fresh p.1 /\ memo_fresh p.2)) ->
  memo_fresh memo ->
  keeps untouched (deepcopy_all copy xs memo)
    (fun p => Forall fresh p.1 /\ memo_fresh p.2).
Proof.
  intros Hcopy. revert memo. induction xs as [|x xs IH]; intros memo Hmemo.
  - by apply keeps_ret.
  - simpl. eapply keeps_bind; [by apply Hcopy|].
    intros [y memo1] [Hy Hmemo1]. simpl in *.
    eapply keeps_bind; [by apply IH|].
    intros [ys memo2] [Hys Hmemo2]. simpl in *.
    apply keeps_ret. split; [by constructor|done].
Qed.

Lemma keeps_deepcopy_memo (fuel : nat) (x : val) (memo : memo_table) :
  memo_fresh memo ->
  keeps untouched (deepcopy_memo fuel x memo)
    (fun p => fresh p.1 /\ memo_fresh p.2).
Proof.
  revert x memo. induction fuel as [|fuel IH]; intros x memo Hmemo.
  - destruct x; try by apply keeps_ret.
    simpl. destruct (memo_get l memo) as [y|] eqn:Hy; [|apply keeps_stuck].
    apply keeps_ret. split; [|done]. by apply (Hmemo l y).
  - destruct x; try by apply keeps_ret.
    simpl. destruct (memo_get l memo) as [y|] eqn:Hy.
    { apply keeps_ret. split; [|done]. by apply (Hmemo l y). }
    eapply keeps_bind; [apply keeps_load_fresh|]. intros o _.
    eapply keeps_bind; [by apply keeps_deepcopy_all|].
    intros [ys memo1] [Hys Hmemo1]. simpl in *.
    eapply keeps_bind.
    { apply keeps_alloc_loc. by apply children_with_children_fresh. }
    intros y' Hy'. apply keeps_ret. split; [done|].
    intros l' z. simpl. destruct (Nat.eqb l' l); [|by apply Hmemo1].
    by intros [= <-].
Qed.

Lemma keeps_deepcopy (fuel : nat) (x : val) : keeps untouched (deepcopy fuel x) fresh.
Proof.
  eapply keeps_bind; [by apply keeps_deepcopy_memo|].
  intros [y memo] [Hy _]. by apply keeps_ret.
Qed.

Section FrameWrapper.

Variable Connection_fault : val -> val -> list (string * val) -> option exn.
Variable Database_fault : string -> option exn.
Variable authenticate : Database -> val -> val -> exn + bool.

Abbreviation _connect := (_connect Connection_fault Database_fault authenticate).
Abbreviation _reconnect := (_reconnect Connection_fault Database_fault authenticate).

Lemma keeps_pop (settings : val) (name : string) (default : val) :
  fresh settings -> fresh default -> keeps untouched (pop settings name default) fresh.
Proof.
  intros Hs Hd. eapply keeps_bind; [by apply keeps_dict_pop|].
  intros value Hvalue.
  eapply keeps_bind; [apply keeps_truthy|].
  intros keep _. apply keeps_ret. by destruct keep.
Qed.

Lemma keeps__connect (fuel : nat) : keeps untouched (_connect fuel) (fun _ => True).
Proof.
  unfold _connect.
  eapply keeps_bind; [apply keeps_get_world|]. intros w _.
  eapply keeps_bind; [apply keeps_deepcopy|]. intros settings Hsettings.
  do 5 (eapply keeps_bind; [by apply keeps_pop|]; intros ? _).
  eapply keeps_bind; [by apply keeps_alloc|]. intros empty Hempty.
  eapply keeps_bind; [by apply keeps_pop|]. intros options Hoptions.
  eapply keeps_bind; [by apply keeps_alloc|]. intros empty' Hempty'.
  eapply keeps_bind; [by apply keeps_dict_pop_default|]. intros flags Hflags.
  eapply keeps_bind; [apply keeps_set_operation_flags|]. intros _ _.
  eapply keeps_bind; [apply keeps_iterate|]. intros ks _.
  eapply keeps_bind; [apply (keeps_any_contained_in _ untouched_respects)|].
  intros found _.
  eapply (keeps_bind _ _ _ (fun _ => True)).
  { destruct found; simpl; [by apply keeps_ret|].
    eapply keeps_bind.
    - apply keeps_alloc. simpl. by repeat constructor.
    - intros broadcast _. apply keeps_set_operation_flags. }
  intros _ _. eapply keeps_bind; [by apply keeps_dict_items|]. intros keys _.
  eapply keeps_bind;
    [|intros _ _; by apply (keeps_open_connection _ untouched_respects)].
  apply keeps_for_each. intros key.
  eapply keeps_bind; [by apply keeps_dict_pop|]. intros value Hvalue.
  by apply keeps_dict_setitem.
Qed.

Lemma keeps__reconnect (fuel : nat) :
  keeps untouched (_reconnect fuel) (fun _ => True).
Proof.
  unfold _reconnect.
  eapply keeps_bind; [apply keeps_get_world|]. intros w _.
  eapply (keeps_bind _ _ _ (fun _ => True)); [|intros _ _; apply keeps__connect].
  destruct (connected (wrapper w)); [|by apply keeps_ret].
  do 2 (eapply keeps_bind;
          [by apply (keeps_modify_wrapper _ untouched_respects)|];
        intros _ _).
  by apply (keeps_modify_wrapper _ untouched_respects).
Qed.

End FrameWrapper.

End Frame.

Lemma untouched_start (w : World) : untouched (heap w) (settings_dict (wrapper w)) w.
Proof. split; [|done]. exists []. by rewrite app_nil_r. Qed.

Lemma keeps_outcome {A} (m : M A) (w : World) :
  keeps (untouched (heap w) (settings_dict (wrapper w))) m (fun _ => True) ->
  settings_dict (wrapper (m w).2) = settings_dict (wrapper w) /\
  exists ext, heap (m w).2 = heap w ++ ext.
Proof.
  intros Hm. specialize (Hm w (untouched_start w)).
  destruct (m w) as [[a|e|] w']; simpl;
    [destruct Hm as [Hm _]|..]; destruct Hm as [(ext & Hheap & _) Hsd]; eauto.
Qed.

Section ConnectFacts.

Variable Connection_fault : val -> val -> list (string * val) -> option exn.
Variable Database_fault : string -> option exn.
Variable authenticate : Database -> val -> val -> exn + bool.

Abbreviation _connect := (_connect Connection_fault Database_fault authenticate).
Abbreviation _reconnect := (_reconnect Connection_fault Database_fault authenticate).

(** C10. A connect or reconnect attempt, however it ends, works on a deep
    copy of the settings: the wrapper has the settings it had, every object
    that was in the heap is as it was (the heap has only grown), and so the
    settings stand for the same tree, nested mappings included. *)
Theorem connect_leaves_settings (fuel : nat) (w : World) :
  let after_connect := (_connect fuel w).2 in
  let after_reconnect := (_reconnect fuel w).2 in
  (settings_dict (wrapper after_connect) = settings_dict (wrapper w) /\
   (exists ext, heap after_connect = heap w ++ ext) /\
   (forall t, denotes (heap w) (settings_dict (wrapper w)) t ->
      denotes (heap after_connect) (settings_dict (wrapper after_connect)) t)) /\
  (settings_dict (wrapper after_reconnect) = settings_dict (wrapper w) /\
   (exists ext, heap after_reconnect = heap w ++ ext) /\
   (forall t, denotes (heap w) (settings_dict (wrapper w)) t ->
      denotes (heap after_reconnect) (settings_dict (wrapper after_reconnect)) t)).
Proof.
  split.
  - destruct (keeps_outcome (_connect fuel) w) as [Hsd [ext Hheap]];
      [apply keeps__connect|].
    split_and!; [done|by exists ext|].
    intros t Ht. rewrite Hsd, Hheap. by apply denotes_app.
  - destruct (keeps_outcome (_reconnect fuel) w) as [Hsd [ext Hheap]];
      [apply keeps__reconnect|].
    split_and!; [done|by exists ext|].
    intros t Ht. rewrite Hsd, Hheap. by apply denotes_app.
Qed.

End ConnectFacts.

(** *** sql_flush *)

Section FlushFacts.

Variable Connection_fault : val -> val -> list (string * val) -> option exn.
Variable Database_fault : string -> option exn.
Variable authenticate : Database -> val -> val -> exn + bool.

Abbreviation sql_flush_tables :=
  (sql_flush_tables Connection_fault Database_fault authenticate).
Abbreviation sql_flush := (sql_flush Connection_fault Database_fault authenticate).

Lemma sql_flush_tables_run (fuel : nat) (d : Database) (tables : list string)
    (w : World) :
  database (wrapper w) = Some d ->
  exists w',
    sql_flush_tables fuel tables w = (Ret tt, w') /\
    heap w' = heap w /\ wrapper w' = wrapper w /\
    forall k, store w' !! k =
      if decide (cleared d tables k)
      then (fun _ => []) <$> store w !! k else store w !! k.
Proof.
  revert w. induction tables as [|table tables IH]; intros w Hd.
  - exists w. split_and!; try done. intros k.
    destruct (decide _) as [(_ & Hin & _)|]; [|done]. by apply elem_of_nil in Hin.
  - simpl. destruct (startswith "system." table) eqn:Hsys.
    + destruct (IH w Hd) as (w' & Hrun & Hheap & Hwr & Hstore).
      exists w'. split_and!; try done. intros k. rewrite Hstore.
      destruct (decide (cleared d tables k)) as [(H1 & H2 & H3)|Hn];
        destruct (decide (cleared d (table :: tables) k)) as [(H4 & H5 & H6)|Hn'];
        try done.
      * destruct Hn'. split_and!; try done. by right.
      * destruct Hn. split_and!; try done.
        apply elem_of_cons in H5 as [Heq|]; [|done].
        rewrite Heq in H6. congruence.
    + unfold bind at 1, getattr_database, bind at 1, get_world. rewrite Hd.
      unfold ret, bind at 1, Collection_remove, modify.
      set (w1 := set_store _ w).
      destruct (IH w1 Hd) as (w' & Hrun & Hheap & Hwr & Hstore).
      exists w'. split_and!; try done. intros k. rewrite Hstore.
      unfold w1. simpl. rewrite lookup_alter.
      destruct (decide ((database_name d, table) = k)) as [<-|Hk].
      * destruct (decide (cleared d (table :: tables) _)) as [_|Hn'].
        -- destruct (decide _); [|done]. by destruct (store w !! _).
        -- destruct Hn'. split_and!; try done. by left.
      * destruct (decide (cleared d tables k)) as [(H1 & H2 & H3)|Hn];
          destruct (decide (cleared d (table :: tables) k)) as [(H4 & H5 & H6)|Hn'];
          try done.
        -- destruct Hn'. split_and!; try done. by right.
        -- destruct Hn. split_and!; try done.
           apply elem_of_cons in H5 as [Heq|]; [|done].
           destruct Hk. destruct k. simpl in *. by subst.
Qed.

(** C9. On a wrapper that has its database, [sql_flush] returns the empty
    list of statements; the collections named in [tables] without the
    prefix 'system.' have no document left, and every other collection,
    the system collections among them, is as it was. *)
Theorem sql_flush_clears (fuel : nat) (style : val) (tables : list string)
    (sequence_list : val) (d : Database) (w : World) :
  database (wrapper w) = Some d ->
  exists w',
    sql_flush fuel style tables sequence_list w = (Ret [], w') /\
    (forall table, table ∈ tables -> startswith "system." table = false ->
       rows w' (database_name d) table = []) /\
    (forall db table,
       db <> database_name d \/ table ∉ tables \/ startswith "system." table = true ->
       store w' !! (db, table) = store w !! (db, table)) /\
    heap w' = heap w /\ wrapper w' = wrapper w.
Proof.
  intros Hd.
  destruct (sql_flush_tables_run fuel d tables w Hd)
    as (w' & Hrun & Hheap & Hwr & Hstore).
  exists w'. split_and!; try done.
  - unfold sql_flush, bind. by rewrite Hrun.
  - intros table Hin Hsys. unfold rows. rewrite Hstore.
    destruct (decide _) as [_|Hn]; [by destruct (store w !! _)|].
    by destruct Hn.
  - intros db table Hout. rewrite Hstore.
    destruct (decide _) as [(H1 & H2 & H3)|]; [|done]. simpl in *.
    destruct Hout as [?|[?|?]]; [done|done|congruence].
Qed.

End FlushFacts.

(** *** Dicts as lists of items *)

Section DictFacts.

Context {V : Type}.
Implicit Types (items : list (string * V)) (k key : string) (v : V).

Lemma dict_get_del_ne k key items :
  k <> key -> dict_get k (dict_del key items) = dict_get k items.
Proof.
  intros Hne. induction items as [|[k' v'] items IH]; [done|]. simpl.
  destruct (String.eqb_spec key k') as [->|Hk'].
  - rewrite IH. by destruct (String.eqb_spec k k').
  - simpl. by rewrite IH.
Qed.

Lemma dict_get_del_eq key items : dict_get key (dict_del key items) = None.
Proof.
  induction items as [|[k' v'] items IH]; [done|]. simpl.
  destruct (String.eqb_spec key k') as [->|Hk']; [done|].
  simpl. by destruct (String.eqb_spec key k').
Qed.

Lemma dict_get_set_eq key v items : dict_get key (dict_set key v items) = Some v.
Proof.
  induction items as [|[k' v'] items IH]; simpl.
  - by rewrite String.eqb_refl.
  - destruct (String.eqb_spec key k') as [->|Hk']; simpl.
    + by rewrite String.eqb_refl.
    + by destruct (String.eqb_spec key k').
Qed.

Lemma dict_get_set_ne k key v items :
  k <> key -> dict_get k (dict_set key v items) = dict_get k items.
Proof.
  intros Hne. induction items as [|[k' v'] items IH]; simpl.
  - by destruct (String.eqb_spec k key).
  - destruct (String.eqb_spec key k') as [->|Hk']; simpl.
    + by destruct (String.eqb_spec k k').
    + by rewrite IH.
Qed.

Lemma dict_get_is_Some k items : is_Some (dict_get k items) <-> k ∈ map fst items.
Proof.
  induction items as [|[k' v'] items IH]; simpl.
  - split; [by intros [? ?]|by intros ?%elem_of_nil].
  - rewrite elem_of_cons. destruct (String.eqb_spec k k') as [->|Hk'].
    + split; [by left|by eexists].
    + rewrite IH. split; [by right|]. by intros [?|?].
Qed.

Lemma dict_get_elem_of k v items : dict_get k items = Some v -> v ∈ map snd items.
Proof.
  induction items as [|[k' v'] items IH]; [done|]. simpl.
  destruct (String.eqb k k'); [intros [= ->]; by left|].
  intros H. right. by apply IH.
Qed.

Lemma dict_del_absent key items : dict_get key items = None -> dict_del key items = items.
Proof.
  induction items as [|[k' v'] items IH]; [done|]. simpl.
  destruct (String.eqb key k'); [done|]. intros H. by rewrite IH.
Qed.

Lemma dict_del_subseteq key items : map snd (dict_del key items) ⊆ map snd items.
Proof.
  induction items as [|[k' v'] items IH]; [done|]. simpl.
  destruct (String.eqb key k'); simpl.
  - intros x Hx. right. by apply IH.
  - intros x [->|Hx]%elem_of_cons; [by left|]. right. by apply IH.
Qed.

Lemma dict_set_subseteq key v items :
  map snd (dict_set key v items) ⊆ v :: map snd items.
Proof.
  induction items as [|[k' v'] items IH]; simpl; [done|].
  destruct (String.eqb key k'); simpl.
  - intros x [->|Hx]%elem_of_cons; [by left|]. right. by right.
  - intros x [->|Hx]%elem_of_cons; [right; by left|].
    apply IH in Hx. apply elem_of_cons in Hx as [->|Hx]; [by left|].
    right. by right.
Qed.

End DictFacts.

(** *** Lower-casing the keys of a dict *)

Lemma ascii_lower_idemp (c : ascii) : ascii_lower (ascii_lower c) = ascii_lower c.
Proof. destruct c as [[] [] [] [] [] [] [] []]; reflexivity. Qed.

Lemma lower_idemp (s : string) : lower (lower s) = lower s.
Proof.
  induction s as [|c s IH]; [done|]. simpl. by rewrite ascii_lower_idemp, IH.
Qed.

(** The loop runs to its end, and leaves lower-case keys only. *)
Lemma lower_keys_lower (keys : list string) (items : list (string * val)) :
  NoDup keys ->
  (forall k, k ∈ keys -> is_Some (dict_get k items)) ->
  (forall k, is_Some (dict_get k items) -> k ∈ keys \/ lower k = k) ->
  exists items',
    lower_keys keys items = Some items' /\
    (forall k, is_Some (dict_get k items') -> lower k = k) /\
    map snd items' ⊆ map snd items.
Proof.
  revert items. induction keys as [|key keys IH]; intros items Hnodup Hin Hout.
  - exists items. split; [done|]. split; [|done].
    intros k Hk. destruct (Hout k Hk) as [?%elem_of_nil|]; done.
  - apply NoDup_cons in Hnodup as [Hkey Hnodup].
    destruct (Hin key) as [v Hv]; [by left|].
    simpl. unfold lower_key. rewrite Hv.
    destruct (IH (dict_set (lower key) v (dict_del key items)))
      as (items' & Hrun & Hlower & Hsub); [done| | |].
    + intros k Hk. destruct (decide (k = lower key)) as [->|Hne].
      * rewrite dict_get_set_eq. by eexists.
      * rewrite dict_get_set_ne, dict_get_del_ne by congruence.
        apply Hin. by right.
    + intros k Hk. destruct (decide (k = lower key)) as [->|Hne].
      * right. apply lower_idemp.
      * rewrite dict_get_set_ne in Hk by done.
        destruct (decide (k = key)) as [->|Hne'].
        { rewrite dict_get_del_eq in Hk. by destruct Hk. }
        rewrite dict_get_del_ne in Hk by done.
        destruct (Hout k Hk) as [Hk1|Hk1]; [|by right].
        apply elem_of_cons in Hk1 as [?|?]; [done|by left].
    + exists items'. split_and!; [done|done|].
      intros x Hx. apply Hsub, dict_set_subseteq in Hx.
      apply elem_of_cons in Hx as [->|Hx].
      * by eapply dict_get_elem_of.
      * by eapply dict_del_subseteq.
Qed.

(** A value that is under the lower-case key [name] and that no key still
    to come maps to [name] stays there. *)
Lemma lower_keys_done (keys : list string) (items items' : list (string * val))
    (name : string) (v : val) :
  lower name = name ->
  (forall k, k ∈ keys -> lower k <> name) ->
  dict_get name items = Some v ->
  lower_keys keys items = Some items' ->
  dict_get name items' = Some v.
Proof.
  intros Hname. revert items. induction keys as [|key keys IH];
    intros items Hkeys Hv Hrun.
  - by injection Hrun as <-.
  - simpl in Hrun. unfold lower_key in Hrun.
    destruct (dict_get key items) as [x|] eqn:Hx; [|done].
    apply (IH _) in Hrun; [done| |].
    + intros k Hk. apply Hkeys. by right.
    + assert (lower key <> name) by (apply Hkeys; by left).
      assert (key <> name) by (intros ->; congruence).
      by rewrite dict_get_set_ne, dict_get_del_ne.
Qed.

(** The value of a key that shares its lower-case form with no other key
    ends under that lower-case form. *)
Lemma lower_keys_value (keys : list string) (items items' : list (string * val))
    (key : string) (v : val) :
  NoDup keys -> key ∈ keys ->
  (forall k, k ∈ keys -> k <> key -> lower k <> lower key) ->
  dict_get key items = Some v ->
  lower_keys keys items = Some items' ->
  dict_get (lower key) items' = Some v.
Proof.
  revert items. induction keys as [|k keys IH];
    intros items Hnodup Hin Hother Hv Hrun.
  - by apply elem_of_nil in Hin.
  - apply NoDup_cons in Hnodup as [Hk Hnodup].
    simpl in Hrun. unfold lower_key in Hrun.
    destruct (dict_get k items) as [x|] eqn:Hx; [|done].
    destruct (decide (k = key)) as [->|Hne].
    + assert (x = v) as -> by congruence.
      eapply lower_keys_done; [apply lower_idemp| |apply dict_get_set_eq|done].
      intros k' Hk'. apply Hother; [by right|]. by intros ->.
    + apply elem_of_cons in Hin as [?|Hin]; [done|].
      apply (IH _ Hnodup Hin) in Hrun; [done| |].
      * intros k' Hk'. apply Hother. by right.
      * assert (lower k <> lower key) as Hlow by (apply Hother; [by left|done]).
        assert (lower k <> key).
        { intros Heq. rewrite <- Heq, lower_idemp in Hlow. done. }
        by rewrite dict_get_set_ne, dict_get_del_ne.
Qed.

(** *** Running the first half of [_connect] *)

Lemma items_denote_get (h : list obj) items S (k : string) (t : tree) :
  items_denote h items S -> dict_get k S = Some t ->
  exists v, dict_get k items = Some v /\ denotes h v t.
Proof.
  induction 1 as [|[k1 v1] [k2 t2] items S [Hk Hv] _ IH]; [done|].
  simpl in *. subst k2. destruct (String.eqb k k1); [|done].
  intros [= <-]. by exists v1.
Qed.

Lemma items_denote_get_None (h : list obj) items S (k : string) :
  items_denote h items S -> dict_get k S = None -> dict_get k items = None.
Proof.
  induction 1 as [|[k1 v1] [k2 t2] items S [Hk Hv] _ IH]; [done|].
  simpl in *. subst k2. by destruct (String.eqb k k1).
Qed.

Lemma items_denote_del (h : list obj) items S (k : string) :
  items_denote h items S -> items_denote h (dict_del k items) (dict_del k S).
Proof.
  induction 1 as [|[k1 v1] [k2 t2] items S [Hk Hv] _ IH]; [constructor|].
  simpl in *. subst k2. destruct (String.eqb k k1); [done|]. by constructor.
Qed.

Lemma items_denote_keys (h : list obj) items S :
  items_denote h items S -> map fst items = map fst S.
Proof.
  induction 1 as [|[k1 v1] [k2 t2] items S [Hk Hv] _ IH]; [done|].
  simpl in *. by f_equal.
Qed.

Lemma items_denote_impl (h h' : list obj) items S :
  (forall v t, v ∈ map snd items -> denotes h v t -> denotes h' v t) ->
  items_denote h items S -> items_denote h' items S.
Proof.
  intros Himpl Hitems. induction Hitems as [|[k1 v1] [k2 t2] items S [Hk Hv] _ IH];
    [constructor|].
  constructor.
  - split; [done|]. apply Himpl; [by left|done].
  - apply IH. intros v t Hin. apply Himpl. by right.
Qed.

Lemma items_denote_zip (h : list obj) items (ts : list tree) :
  Forall2 (denotes h) (map snd items) ts ->
  items_denote h items (zip (map fst items) ts).
Proof.
  revert ts. induction items as [|[k v] items IH]; intros ts Hts.
  - constructor.
  - simpl in Hts. apply Forall2_cons_inv_l in Hts as (t & ts' & Ht & Hts & ->).
    simpl. constructor; [done|]. by apply IH.
Qed.

(** A value that stands for a mapping is a dict of the heap. *)
Lemma denotes_dict (h : list obj) (v : val) (S : list (string * tree)) :
  denotes h v (TDict S) ->
  exists l items, v = VRef l /\ h !! l = Some (ODict items) /\ items_denote h items S.
Proof.
  intros Hv. destruct v as [| | | | | | | | | | |l];
    try (destruct Hv as [[|n] Hn]; discriminate).
  apply denotes_ref in Hv as (o & ts & Hl & Hts & Ht).
  destruct o as [k xs|items]; [discriminate|].
  injection Ht as ->. exists l, items. split_and!; [done..|].
  by apply items_denote_zip.
Qed.

Lemma truthy_run (w : World) (v : val) (t : tree) :
  denotes (heap w) v t -> truthy v w = (Ret (tree_truthy t), w).
Proof.
  intros Hv. destruct v as [| | | | | | | | | | |l];
    try (destruct Hv as [[|n] [= <-]]; reflexivity).
  apply denotes_ref in Hv as (o & ts & Hl & Hts & ->).
  unfold truthy, bind, load. rewrite Hl.
  apply Forall2_length in Hts.
  destruct o as [k xs|items]; simpl in *; unfold ret; do 3 f_equal.
  - destruct xs, ts; done.
  - rewrite length_map in Hts. destruct items, ts; done.
Qed.

Lemma dict_pop_run (w : World) (l : loc) items (k : string) (v : val) :
  heap w !! l = Some (ODict items) -> dict_get k items = Some v ->
  dict_pop (VRef l) k w
  = (Ret v, set_heap (<[l := ODict (dict_del k items)]> (heap w)) w).
Proof.
  intros Hl Hv. unfold dict_pop, dict_items, bind, load. rewrite Hl.
  simpl. by rewrite Hv.
Qed.

Lemma dict_setitem_run (w : World) (l : loc) items (k : string) (v : val) :
  heap w !! l = Some (ODict items) ->
  dict_setitem (VRef l) k v w
  = (Ret tt, set_heap (<[l := ODict (dict_set k v items)]> (heap w)) w).
Proof.
  intros Hl. unfold dict_setitem, dict_items, bind, load. by rewrite Hl.
Qed.

(** The loop over the keys of [options], on the heap. *)
Lemma lower_keys_run (keys : list string) (w : World) (l : loc) items items' :
  heap w !! l = Some (ODict items) ->
  lower_keys keys items = Some items' ->
  for_each keys (fun key =>
    value <- dict_pop (VRef l) key ;;
    dict_setitem (VRef l) (lower key) value) w
  = (Ret tt, set_heap (<[l := ODict items']> (heap w)) w).
Proof.
  revert w items. induction keys as [|key keys IH]; intros w items Hl Hrun.
  - injection Hrun as <-. simpl. unfold ret.
    by rewrite list_insert_id, set_heap_id.
  - simpl in Hrun. unfold lower_key in Hrun.
    destruct (dict_get key items) as [v|] eqn:Hv; [|done].
    pose proof (lookup_lt_Some _ _ _ Hl) as Hlt.
    simpl. unfold bind at 1. unfold bind at 1.
    rewrite (dict_pop_run w l items key v Hl Hv).
    erewrite dict_setitem_run; [|by simpl; rewrite list_lookup_insert_eq].
    simpl. rewrite list_insert_insert_eq.
    erewrite IH; [|by simpl; rewrite list_lookup_insert_eq|done].
    simpl. by rewrite list_insert_insert_eq.
Qed.

Section Run.

Variable h0 : list obj.

Abbreviation settled := (settled h0).

Lemma settled_young (h : list obj) (l : loc) items S (k : string) (v : val) :
  settled h l items S -> dict_get k items = Some v -> young h0 l v.
Proof.
  intros (Hdown & Hl & Hlook & _) Hv.
  pose proof (Hdown l _ Hl Hlook) as Hall. simpl in Hall.
  eapply Forall_forall in Hall; [done|]. by eapply dict_get_elem_of.
Qed.

Lemma settled_store (h : list obj) (l : loc) items items' S S' :
  settled h l items S ->
  map snd items' ⊆ map snd items ->
  items_denote h items' S' ->
  settled (<[l := ODict items']> h) l items' S'.
Proof.
  intros (Hdown & Hl & Hlook & Hitems) Hsub Hitems'.
  pose proof (Hdown l _ Hl Hlook) as Hall. simpl in Hall.
  assert (Hall' : Forall (young h0 l) (map snd items')).
  { apply Forall_forall. intros x Hx. eapply Forall_forall in Hall; [done|].
    by apply Hsub. }
  split_and!.
  - by apply (downward_insert h0).
  - done.
  - apply list_lookup_insert_eq. by eapply lookup_lt_Some.
  - eapply items_denote_impl; [|done]. intros v t Hv Hvt.
    apply (denotes_insert_above h0); [done| |done].
    by eapply Forall_forall in Hall'.
Qed.

Lemma settled_alloc (h : list obj) (l : loc) items S (o : obj) :
  settled h l items S -> Forall (young h0 (length h)) (children o) ->
  settled (h ++ [o]) l items S.
Proof.
  intros (Hdown & Hl & Hlook & Hitems) Ho. split_and!.
  - by apply (downward_alloc h0).
  - done.
  - by apply lookup_app_l_Some.
  - eapply items_denote_impl; [|done]. intros v t _. apply denotes_app.
Qed.

Lemma pop_run (w : World) (l : loc) items S (k : string) (t : tree) (d : val) :
  settled (heap w) l items S -> dict_get k S = Some t ->
  exists v,
    dict_get k items = Some v /\ young h0 l v /\
    denotes (<[l := ODict (dict_del k items)]> (heap w)) v t /\
    pop (VRef l) k d w
    = (Ret (if tree_truthy t then v else d),
       set_heap (<[l := ODict (dict_del k items)]> (heap w)) w) /\
    settled (<[l := ODict (dict_del k items)]> (heap w)) l
      (dict_del k items) (dict_del k S).
Proof.
  intros Hset Ht. pose proof Hset as (Hdown & Hl & Hlook & Hitems).
  destruct (items_denote_get _ _ _ _ _ Hitems Ht) as (v & Hv & Hvt).
  pose proof (settled_young _ _ _ _ _ _ Hset Hv) as Hyoung.
  assert (Hvt' : denotes (<[l := ODict (dict_del k items)]> (heap w)) v t).
  { by apply (denotes_insert_above h0). }
  exists v. split_and!; try done.
  - unfold pop. unfold bind at 1. rewrite (dict_pop_run w l items k v Hlook Hv).
    unfold bind at 1. by rewrite (truthy_run _ v t).
  - eapply settled_store; [done|apply dict_del_subseteq|].
    by apply items_denote_del.
Qed.

End Run.

Lemma set_heap_set_heap (h1 h2 : list obj) (w : World) :
  set_heap h2 (set_heap h1 w) = set_heap h2 w.
Proof. reflexivity. Qed.

Lemma NoDup_dict_del {V} (k : string) (items : list (string * V)) :
  NoDup (map fst items) -> NoDup (map fst (dict_del k items)).
Proof.
  induction items as [|[k' v'] items IH]; [done|]. simpl.
  intros [Hk' Hnodup]%NoDup_cons. destruct (String.eqb k k'); [by auto|].
  simpl. apply NoDup_cons. split; [|by auto].
  intros Hin. apply Hk'. apply dict_get_is_Some.
  apply dict_get_is_Some in Hin.
  destruct (decide (k' = k)) as [->|Hne].
  - rewrite dict_get_del_eq in Hin. by destruct Hin.
  - by rewrite dict_get_del_ne in Hin.
Qed.

Lemma elem_of_dict_del_keys {V} (k key : string) (items : list (string * V)) :
  k ∈ map fst (dict_del key items) -> k ∈ map fst items /\ k <> key.
Proof.
  intros Hin. apply dict_get_is_Some in Hin.
  destruct (decide (k = key)) as [->|Hne].
  - rewrite dict_get_del_eq in Hin. by destruct Hin.
  - rewrite dict_get_del_ne in Hin by done. split; [|done].
    by apply dict_get_is_Some.
Qed.

Lemma any_contained_in_run (items : list (string * val)) (w : World) :
  any_contained_in (map (fun kv => VStr kv.1) items) ["save"; "delete"; "update"] w
  = (Ret (has_operation_key items), w).
Proof.
  unfold has_operation_key. induction items as [|[k v] items IH]; [done|].
  simpl. unfold bind, contained_in, ret.
  destruct (bool_decide _); [done|]. apply IH.
Qed.

Section RunOptions.

Variable h0 : list obj.

Lemma downward_start : downward h0 h0.
Proof. intros l o Hl Hlook. apply lookup_lt_Some in Hlook. lia. Qed.

Lemma memo_ok_nil (h : list obj) : memo_ok h0 h [].
Proof. by intros l y Hly. Qed.

Lemma options_run (w : World) (ls le : loc) items S (O : list (string * tree)) :
  settled h0 (heap w) ls items S ->
  dict_get "OPTIONS" S = Some (TDict O) ->
  heap w !! le = Some (ODict []) -> (length h0 <= le)%nat -> ls <> le ->
  exists lo items_o h',
    pop (VRef ls) "OPTIONS" (VRef le) w = (Ret (VRef lo), set_heap h' w) /\
    length h' = length (heap w) /\
    settled h0 h' lo items_o O.
Proof.
  intros Hset HO Hle Hge Hne.
  destruct (pop_run h0 w ls items S "OPTIONS" (TDict O) (VRef le) Hset HO)
    as (v & Hv & Hyoung & Hvt & Hrun & Hset').
  set (h' := <[ls := ODict (dict_del "OPTIONS" items)]> (heap w)) in *.
  destruct Hset' as (Hdown & Hls & Hlook & Hitems).
  destruct (tree_truthy (TDict O)) eqn:Htruthy.
  - apply denotes_dict in Hvt as (lo & items_o & -> & Hlo & Hitems_o).
    exists lo. exists items_o. exists h'. unfold settled. split_and!; try done.
    + unfold h'. rewrite length_insert. reflexivity.
    + simpl in Hyoung. apply Hyoung.
  - exists le. exists []. exists h'. unfold settled. split_and!; try done.
    + unfold h'. rewrite length_insert. reflexivity.
    + unfold h'. by rewrite list_lookup_insert_ne.
    + simpl in Htruthy. destruct O; [constructor|done].
Qed.

Lemma flags_pop_run (w : World) (lo le : loc) items (O P : list (string * tree)) :
  settled h0 (heap w) lo items O ->
  flags_tree O = Some P ->
  heap w !! le = Some (ODict []) -> (length h0 <= le)%nat -> lo <> le ->
  exists lc o h',
    dict_pop_default (VRef lo) "OPERATIONS" (VRef le) w
    = (Ret (VRef lc), set_heap h' w) /\
    length h' = length (heap w) /\
    settled h0 h' lo (dict_del "OPERATIONS" items) (dict_del "OPERATIONS" O) /\
    denotes h' (VRef lc) (TDict P) /\
    (length h0 <= lc)%nat /\ lc <> lo /\
    h' !! lc = Some o /\ Forall (young h0 lo) (children o).
Proof.
  intros Hset HP Hle Hge Hne. pose proof Hset as (Hdown & Hlo & Hlook & Hitems).
  unfold flags_tree in HP.
  destruct (dict_get "OPERATIONS" O) as [t|] eqn:HO.
  - destruct t as [| |P']; try done. injection HP as ->.
    destruct (items_denote_get _ _ _ _ _ Hitems HO) as (v & Hv & Hvt).
    pose proof (settled_young _ _ _ _ _ _ _ Hset Hv) as Hyoung.
    set (h' := <[lo := ODict (dict_del "OPERATIONS" items)]> (heap w)).
    assert (Hset' : settled h0 h' lo (dict_del "OPERATIONS" items)
                      (dict_del "OPERATIONS" O)).
    { eapply settled_store; [done|apply dict_del_subseteq|].
      by apply items_denote_del. }
    assert (Hvt' : denotes h' v (TDict P)).
    { by apply (denotes_insert_above h0). }
    pose proof Hvt' as (lc & items_p & -> & Hlc & Hitems_p)%denotes_dict.
    simpl in Hyoung.
    exists lc. exists (ODict items_p). exists h'. split_and!; try done.
    + unfold dict_pop_default, dict_items, bind, load. rewrite Hlook.
      simpl. by rewrite Hv.
    + unfold h'. rewrite length_insert. reflexivity.
    + lia.
    + lia.
    + destruct Hset' as (Hdown' & _).
      eapply Forall_impl; [apply (Hdown' lc); [lia|done]|].
      intros x Hx. eapply young_weaken; [done|lia].
  - injection HP as <-.
    pose proof (items_denote_get_None _ _ _ _ Hitems HO) as Hnone.
    exists le. exists (ODict []). exists (heap w). split_and!; try done.
    + unfold dict_pop_default, dict_items, bind, load. rewrite Hlook.
      simpl. rewrite Hnone. by rewrite set_heap_id.
    + by rewrite !dict_del_absent.
    + apply denotes_ref. exists (ODict []), []. by split_and!.
Qed.

(** Writing at [lo] leaves what an object apart from [lo] stands for. *)
Lemma denotes_insert_apart (h : list obj) (lo lc : loc) (o o' : obj) (t : tree) :
  downward h0 h -> lc <> lo ->
  h !! lc = Some o -> Forall (young h0 lo) (children o) ->
  denotes h (VRef lc) t -> denotes (<[lo := o']> h) (VRef lc) t.
Proof.
  intros Hdown Hne Hlc Ho (o1 & ts & Hlc' & Hts & ->)%denotes_ref.
  assert (o1 = o) as -> by congruence.
  apply denotes_ref. exists o, ts.
  split; [by rewrite list_lookup_insert_ne|]. split; [|done].
  eapply Forall2_impl_Forall; [exact Ho|exact Hts|].
  intros x y Hx Hxy. by apply (denotes_insert_above h0).
Qed.

End RunOptions.

Section ConnectRun.

Variable Connection_fault : val -> val -> list (string * val) -> option exn.
Variable Database_fault : string -> option exn.
Variable authenticate : Database -> val -> val -> exn + bool.

Abbreviation open_connection :=
  (open_connection Connection_fault Database_fault authenticate).
Abbreviation _connect := (_connect Connection_fault Database_fault authenticate).

Ltac forget_heap Hset :=
  simpl heap in Hset |- *;
  match type of Hset with
  | settled _ ?H' _ ?I' _ =>
      let h := fresh "h" in
      let items := fresh "items" in
      set (h := H') in *; clearbody h;
      set (items := I') in *; clearbody items
  end.

Ltac pop_step ls key t Hset v :=
  match goal with
  | |- context [set_heap ?H ?w] =>
      let Hrun := fresh "Hrun" in
      let Hnew := fresh "Hset" in
      destruct (pop_run _ (set_heap H w) ls _ _ key t VNone Hset)
        as (v & _ & _ & _ & Hrun & Hnew);
      [by rewrite ?dict_get_del_ne by done|];
      unfold bind at 1; rewrite Hrun; rewrite set_heap_set_heap;
      clear Hrun Hset; rename Hnew into Hset; forget_heap Hset
  end.

Lemma connect_run (fuel : nat) (w : World) (S O P : list (string * tree)) :
  reify fuel (heap w) (settings_dict (wrapper w)) = Some (TDict S) ->
  well_formed_settings S O P ->
  exists settings db_name host port user password lo lc w1 items,
    _connect fuel w
    = open_connection settings db_name host port user password (VRef lo) w1 /\
    connect_state w w1 O P lo lc items.
Proof.
  intros Hreify [[tn Hn] [th Hh] [tp Hp] [tu Hu] [tw Hw] HO Hnodup HP].
  unfold _connect. unfold bind at 1, get_world.
  (* the deep copy *)
  destruct (deepcopy_memo_correct (heap w) fuel (settings_dict (wrapper w)) [] w
              (TDict S) []) as (v' & memo' & ext & Hrun & Hdown & _ & Hyoung & Hv');
    [by rewrite app_nil_r|apply downward_start|apply memo_ok_nil|done|].
  unfold bind at 1, deepcopy, bind at 1. rewrite Hrun. unfold ret at 1. simpl fst.
  apply denotes_dict in Hv' as (ls & items_s & -> & Hls & Hitems_s).
  assert (Hset0 : settled (heap w) (heap w ++ ext) ls items_s S).
  { split_and!; try done. simpl in Hyoung. apply Hyoung. }
  clear Hrun Hreify Hdown Hls Hitems_s Hyoung.
  rename Hset0 into Hset.
  remember (heap w) as h0 eqn:Hh0.
  forget_heap Hset.
  (* the five pops *)
  pop_step ls "NAME" tn Hset db_name.
  pop_step ls "HOST" th Hset host.
  pop_step ls "PORT" tp Hset port.
  pop_step ls "USER" tu Hset user.
  pop_step ls "PASSWORD" tw Hset password.
  (* options = pop('OPTIONS', {}) *)
  unfold bind at 1, alloc at 1. simpl heap. rewrite set_heap_set_heap.
  assert (Hls : (length h0 <= ls < length h5)%nat).
  { destruct Hset as (_ & ? & Hlook & _). apply lookup_lt_Some in Hlook. lia. }
  match type of Hset with
  | settled _ _ _ _ ?S' =>
      destruct (options_run h0 (set_heap (h5 ++ [ODict []]) w) ls (length h5)
                  items4 S' O)
        as (lo & items_o & h6 & Hrun & Hlen6 & Hset_o)
  end.
  { apply settled_alloc; [done|constructor]. }
  { by rewrite !dict_get_del_ne. }
  { simpl. by rewrite lookup_app_r, Nat.sub_diag. }
  { lia. }
  { lia. }
  unfold bind at 1. rewrite Hrun. rewrite set_heap_set_heap.
  simpl heap in Hlen6. rewrite length_app in Hlen6. simpl in Hlen6.
  clear Hrun Hset.
  (* self.operation_flags = options.pop('OPERATIONS', {}) *)
  unfold bind at 1, alloc at 1. simpl heap. rewrite set_heap_set_heap.
  assert (Hlo : (length h0 <= lo < length h6)%nat).
  { destruct Hset_o as (_ & ? & Hlook & _). apply lookup_lt_Some in Hlook. lia. }
  destruct (flags_pop_run h0 (set_heap (h6 ++ [ODict []]) w) lo (length h6)
              items_o O P)
    as (lc & oc & h7 & Hrun & Hlen7 & Hset7 & Hflags & Hlc & Hlclo & Hoc & Hchildren).
  { apply settled_alloc; [done|constructor]. }
  { done. }
  { simpl. by rewrite lookup_app_r, Nat.sub_diag. }
  { lia. }
  { lia. }
  unfold bind at 1. rewrite Hrun. rewrite set_heap_set_heap.
  simpl heap in Hlen7. rewrite length_app in Hlen7. simpl in Hlen7.
  clear Hrun Hset_o.
  unfold bind at 1, set_operation_flags at 1, modify_wrapper, modify.
  (* any(k in ['save', 'delete', 'update'] for k in self.operation_flags) *)
  pose proof Hflags as (lc' & items_p & [= <-] & Hlc_look & Hitems_p)%denotes_dict.
  assert (oc = ODict items_p) as -> by congruence.
  unfold bind at 1, iterate at 1, bind at 1, load. simpl heap. rewrite Hlc_look.
  unfold ret at 1. unfold bind at 1. rewrite any_contained_in_run.
  assert (Hkey : has_operation_key items_p = has_operation_key P).
  { unfold has_operation_key. by rewrite (items_denote_keys _ _ _ Hitems_p). }
  rewrite Hkey. clear Hkey Hoc.
  (* lower-case all OPTIONS keys *)
  set (items7 := dict_del "OPERATIONS" items_o) in *.
  assert (Hkeys7 : map fst items7 = map fst (dict_del "OPERATIONS" O)).
  { destruct Hset7 as (_ & _ & _ & Hden). by apply items_denote_keys in Hden. }
  assert (Hnodup7 : NoDup (map fst items7)).
  { rewrite Hkeys7. by apply NoDup_dict_del. }
  destruct (lower_keys_lower (map fst items7) items7)
    as (items' & Hloop & Hlower & Hsub);
    [done|by intros k Hk; apply dict_get_is_Some
         |by intros k Hk; left; apply dict_get_is_Some|].
  assert (Hrest : forall (W : World) (ext8 : list obj) (rest : M unit),
    heap W = h7 ++ ext8 -> downward h0 (h7 ++ ext8) ->
    (keys <- dict_items (VRef lo) "iterkeys" ;;
     for_each (map fst keys.2) (fun key =>
       value <- dict_pop (VRef lo) key ;;
       dict_setitem (VRef lo) (lower key) value) ;;;
     rest) W
    = rest (set_heap (<[lo := ODict items']> (h7 ++ ext8)) W) /\
    (<[lo := ODict items']> (h7 ++ ext8)) !! lo = Some (ODict items') /\
    (forall k, k ∈ map fst items' -> lower k = k) /\
    (forall k t,
       dict_get k O = Some t -> k <> "OPERATIONS" ->
       (forall k2, k2 ∈ map fst O -> k2 <> "OPERATIONS" -> k2 <> k ->
                   lower k2 <> lower k) ->
       exists v, dict_get (lower k) items' = Some v /\
                 denotes (<[lo := ODict items']> (h7 ++ ext8)) v t) /\
    denotes (<[lo := ODict items']> (h7 ++ ext8)) (VRef lc) (TDict P)).
  { intros W ext8 rest HW Hdown8.
    destruct Hset7 as (Hdown7 & _ & Hlook7 & Hden7).
    assert (Hlook8 : heap W !! lo = Some (ODict items7)).
    { rewrite HW. by apply lookup_app_l_Some. }
    split_and!.
    - unfold bind at 1, dict_items, bind at 1, load. rewrite Hlook8.
      unfold ret at 1. simpl snd. unfold bind at 1.
      rewrite (lower_keys_run _ W lo items7 items' Hlook8 Hloop).
      by rewrite HW.
    - apply list_lookup_insert_eq. rewrite length_app. lia.
    - intros k Hk. apply Hlower. by apply dict_get_is_Some.
    - intros k t Hk Hne Hother.
      destruct (items_denote_get h7 items7 (dict_del "OPERATIONS" O) k t)
        as (v & Hv & Hvt); [done|by rewrite dict_get_del_ne|].
      exists v. split.
      + eapply lower_keys_value; [exact Hnodup7| | |exact Hv|exact Hloop].
        * apply dict_get_is_Some. by eexists.
        * intros k2 Hk2 Hk2k. rewrite Hkeys7 in Hk2.
          apply elem_of_dict_del_keys in Hk2 as [Hin Hk2ne]. by apply Hother.
      + apply (denotes_insert_above h0); [done| |by apply denotes_app].
        pose proof (Hdown7 lo _ ltac:(lia) Hlook7) as Hall. simpl in Hall.
        eapply Forall_forall in Hall; [done|]. by eapply dict_get_elem_of.
    - apply (denotes_insert_apart h0 _ lo lc (ODict items_p));
        [done|done|by apply lookup_app_l_Some|done|by apply denotes_app]. }
  assert (Hlc7 : (lc < length h7)%nat) by (by eapply lookup_lt_Some).
  destruct (has_operation_key P) eqn:Hop; simpl negb; cbv iota.
  - (* the flags name an operation: kept as they are *)
    unfold bind at 1, ret at 1.
    match goal with
    | |- context [set_wrapper ?X (set_heap h7 w)] =>
        destruct (Hrest (set_wrapper X (set_heap h7 w)) []
                    (open_connection (VRef ls)
                       (if tree_truthy tn then db_name else VNone)
                       (if tree_truthy th then host else VNone)
                       (if tree_truthy tp then port else VNone)
                       (if tree_truthy tu then user else VNone)
                       (if tree_truthy tw then password else VNone) (VRef lo)))
          as (Hrun & Hlook & Hlow & Hvals & Hfl)
    end.
    { simpl. by rewrite app_nil_r. }
    { rewrite app_nil_r. apply Hset7. }
    rewrite app_nil_r in *.
    do 10 eexists. split; [exact Hrun|].
    split; simpl; try done. by rewrite Hop.
  - (* flags apply to all operations *)
    unfold bind at 1, bind at 1, alloc at 1. simpl heap.
    unfold set_operation_flags at 1, modify_wrapper, modify.
    match goal with
    | |- context [set_wrapper ?X ?W0] =>
        destruct (Hrest (set_wrapper X W0)
                    [ODict [("save", VRef lc); ("delete", VRef lc); ("update", VRef lc)]]
                    (open_connection (VRef ls)
                       (if tree_truthy tn then db_name else VNone)
                       (if tree_truthy th then host else VNone)
                       (if tree_truthy tp then port else VNone)
                       (if tree_truthy tu then user else VNone)
                       (if tree_truthy tw then password else VNone) (VRef lo)))
          as (Hrun & Hlook & Hlow & Hvals & Hfl)
    end.
    { done. }
    { apply (downward_alloc h0); [apply Hset7|]. simpl.
      repeat constructor; simpl; lia. }
    do 10 eexists. split; [exact Hrun|].
    split; simpl; try done. rewrite Hop.
    exists (length h7). split; [done|].
    rewrite list_lookup_insert_ne by lia.
    by rewrite lookup_app_r, Nat.sub_diag.
Qed.

(** Opening the connection leaves the heap and the operation flags. *)
Lemma open_connection_frame
    (settings db_name host port user password options : val) (w : World) :
  heap (open_connection settings db_name host port user password options w).2
    = heap w /\
  operation_flags
    (wrapper (open_connection settings db_name host port user password options w).2)
    = operation_flags (wrapper w).
Proof.
  pose proof (keeps_open_connection
    (fun w' => heap w' = heap w /\
               operation_flags (wrapper w') = operation_flags (wrapper w))) as Hkeeps.
  specialize (Hkeeps ltac:(intros w1 w2 Hh _ Hf _ [H1 H2]; split; congruence)
    Connection_fault Database_fault authenticate
    settings db_name host port user password options ltac:(done) w ltac:(done)).
  destruct (open_connection _ _ _ _ _ _ _ w) as [[a|e|] w'];
    simpl; [apply Hkeeps|exact Hkeeps..].
Qed.

(** The constructor of the driver is called once, with the items that the
    options have then. *)
Lemma open_connection_calls
    (settings db_name host port user password : val) (lo : loc)
    (items : list (string * val)) (w : World) :
  heap w !! lo = Some (ODict items) ->
  driver_calls
    (open_connection settings db_name host port user password (VRef lo) w).2
  = driver_calls w ++ [mkConnectionCall host port items].
Proof.
  intros Hlo.
  pose proof (open_connection_triple
    (fun w' => driver_calls w'
               = driver_calls w ++ [mkConnectionCall host port items])) as Htriple.
  specialize (Htriple ltac:(intros w1 w2 _ _ _ Hc Hw1; congruence)
    Connection_fault Database_fault authenticate (fun w' => w' = w)
    settings db_name host port user password (VRef lo)).
  specialize (Htriple ltac:(
    intros w' ->; unfold Connection_call, bind, dict_items, bind, load;
    rewrite Hlo; simpl;
    destruct (_ || _); [done|]; by destruct (Connection_fault _ _ _)) w eq_refl).
  destruct (open_connection _ _ _ _ _ _ _ w) as [[a|e|] w'];
    simpl; exact Htriple.
Qed.

(** C6. When the mapping under 'OPERATIONS' has none of the keys 'save',
    'delete', 'update', the operation flags are a new mapping that has it
    under each of the three (one and the same object); when it has one of
    them, the operation flags are that mapping as it is. *)
Theorem operation_flags_broadcast (fuel : nat) (w : World)
    (S O P : list (string * tree)) :
  reify fuel (heap w) (settings_dict (wrapper w)) = Some (TDict S) ->
  well_formed_settings S O P ->
  exists flags,
    operation_flags (wrapper (_connect fuel w).2) = Some flags /\
    denotes (heap (_connect fuel w).2) flags
      (if has_operation_key P then TDict P
       else TDict [("save", TDict P); ("delete", TDict P); ("update", TDict P)]) /\
    (has_operation_key P = false ->
     exists shared,
       denotes (heap (_connect fuel w).2) flags
         (TDict [("save", TDict P); ("delete", TDict P); ("update", TDict P)]) /\
       exists lb, flags = VRef lb /\
         heap (_connect fuel w).2 !! lb
         = Some (ODict [("save", VRef shared); ("delete", VRef shared);
                        ("update", VRef shared)])).
Proof.
  intros Hreify Hwf.
  destruct (connect_run fuel w S O P Hreify Hwf)
    as (settings & db_name & host & port & user & password & lo & lc & w1 & items
        & Hrun & Hstate).
  rewrite Hrun.
  destruct (open_connection_frame settings db_name host port user password
              (VRef lo) w1) as [-> ->].
  destruct Hstate as [_ _ _ _ Hflags Hop].
  assert (Hbroadcast : forall lb,
    heap w1 !! lb
      = Some (ODict [("save", VRef lc); ("delete", VRef lc); ("update", VRef lc)]) ->
    denotes (heap w1) (VRef lb)
      (TDict [("save", TDict P); ("delete", TDict P); ("update", TDict P)])).
  { intros lb Hlb. apply denotes_ref.
    exists (ODict [("save", VRef lc); ("delete", VRef lc); ("update", VRef lc)]),
      [TDict P; TDict P; TDict P].
    split; [done|]. split; [|done]. simpl. by repeat constructor. }
  destruct (has_operation_key P).
  - exists (VRef lc). by split_and!.
  - destruct Hop as (lb & Hlb & Hlook). exists (VRef lb). split_and!; [done|by auto|].
    intros _. exists lc. split; [by auto|]. by exists lb.
Qed.


End ConnectRun.

(** *** Concrete settings *)

Module SettingsFacts.
Import Settings.

Lemma well_formed (O P : list (string * tree)) :
  NoDup (map fst O) -> flags_tree O = Some P ->
  well_formed_settings (settings_tree O) O P.
Proof. intros Hnodup HP. split; try done; by eexists. Qed.

Lemma NoDup_by_decide {A} `{EqDecision A} (l : list A) :
  bool_decide (NoDup l) = true -> NoDup l.
Proof. apply bool_decide_eq_true_1. Qed.

Lemma operation_flags_broadcast_example :
  exists flags,
    operation_flags (wrapper (_connect 3 timeout_world).2) = Some flags /\
    denotes (heap (_connect 3 timeout_world).2) flags
      (if has_operation_key timeout_flags then TDict timeout_flags
       else TDict [("save", TDict timeout_flags); ("delete", TDict timeout_flags);
                   ("update", TDict timeout_flags)]) /\
    (has_operation_key timeout_flags = false ->
     exists shared,
       denotes (heap (_connect 3 timeout_world).2) flags
         (TDict [("save", TDict timeout_flags); ("delete", TDict timeout_flags);
                 ("update", TDict timeout_flags)]) /\
       exists lb, flags = VRef lb /\
         heap (_connect 3 timeout_world).2 !! lb
         = Some (ODict [("save", VRef shared); ("delete", VRef shared);
                        ("update", VRef shared)])).
Proof.
  apply (operation_flags_broadcast Connection_fault Database_fault authenticate
           3 timeout_world (settings_tree [("OPERATIONS", TDict timeout_flags)])
           [("OPERATIONS", TDict timeout_flags)] timeout_flags).
  - reflexivity.
  - apply well_formed; [|reflexivity]. apply NoDup_by_decide. reflexivity.
Defined.

(** The two cases of the specification, as they run. *)
Example flags_broadcast_timeout :
  operation_flags (wrapper (_connect 3 timeout_world).2) = Some (VRef 8%nat) /\
  heap (_connect 3 timeout_world).2 !! 8%nat
    = Some (ODict [("save", VRef 3%nat); ("delete", VRef 3%nat); ("update", VRef 3%nat)]) /\
  heap (_connect 3 timeout_world).2 !! 3%nat = Some (ODict [("timeout", VInt 5)]).
Proof. repeat split. Qed.

Example flags_kept_save :
  exists flags,
    operation_flags (wrapper (_connect 4 save_world).2) = Some flags /\
    reify 3 (heap (_connect 4 save_world).2) flags = Some (TDict save_flags) /\
    dict_get "delete" save_flags = None /\ dict_get "update" save_flags = None.
Proof. eexists. repeat split. Qed.


Example options_lower_case_call :
  driver_calls (_connect 2 mixed_case_world).2
  = [mkConnectionCall (VStr "localhost") (VInt 27017)
       [("slaveokay", VBool true); ("w", VInt 1)]].
Proof. reflexivity. Qed.


(** The value under 'OPERATIONS' is not handed to the constructor. *)
Example options_without_operations :
  driver_calls (_connect 3 timeout_world).2
  = [mkConnectionCall (VStr "localhost") (VInt 27017) []].
Proof. reflexivity. Qed.

Lemma sql_flush_clears_example :
  exists w',
    sql_flush 0 VNone ["users"; "system.indexes"] VNone flush_world = (Ret [], w') /\
    (forall table, table ∈ ["users"; "system.indexes"] ->
       startswith "system." table = false ->
       rows w' (database_name test_database) table = []) /\
    (forall db table,
       db <> database_name test_database \/ table ∉ ["users"; "system.indexes"] \/
       startswith "system." table = true ->
       store w' !! (db, table) = store flush_world !! (db, table)) /\
    heap w' = heap flush_world /\ wrapper w' = wrapper flush_world.
Proof.
  apply (sql_flush_clears Connection_fault Database_fault authenticate
           0 VNone ["users"; "system.indexes"] VNone test_database flush_world).
  reflexivity.
Defined.

Example sql_flush_users_only :
  rows (sql_flush 0 VNone ["users"; "system.indexes"] VNone flush_world).2
    "test" "users" = [] /\
  rows (sql_flush 0 VNone ["users"; "system.indexes"] VNone flush_world).2
    "test" "system.indexes" = [[("name", VStr "_id_")]].
Proof. split; vm_compute; reflexivity. Qed.

End SettingsFacts.

(** ** More properties of the conversions, of the flush and of the connection *)

Lemma comprehension_raise {A B} (f : A -> M B) (xs ys : list A) (x : A)
    (zs : list B) (e : exn) (w : World) :
  Forall2 (fun x z => f x w = (Ret z, w)) xs zs ->
  f x w = (Raise e, w) ->
  comprehension f (xs ++ x :: ys) w = (Raise e, w).
Proof.
  intros Hxs Hx. induction Hxs as [|x0 z xs zs Hx0 _ IH]; simpl.
  - unfold bind at 1. by rewrite Hx.
  - unfold bind at 1. rewrite Hx0. unfold bind at 1. by rewrite IH.
Qed.

Section ConversionsMore.

Variable ObjectId : val -> exn + string.
Variable ObjectId_str : string -> string.
Variable super_value_for_db : val -> Field -> string -> string -> val -> M val.
Variable super_value_from_db : val -> Field -> string -> string -> M val.
Variable unicode_other : World -> val -> string.

Abbreviation value_for_db := (value_for_db ObjectId super_value_for_db).
Abbreviation value_for_db_body := (value_for_db_body ObjectId super_value_for_db).
Abbreviation value_from_db :=
  (value_from_db ObjectId_str super_value_from_db unicode_other).
Abbreviation key_tree := (key_tree ObjectId).

Lemma value_for_db_accepted (fuel : nat) (v : val) (binary : string)
    (field : Field) (kind : string) (lookup : val) (w : World) :
  super_value_for_db v field kind "key" lookup w = (Ret v, w) ->
  as_collection (heap w) v = None ->
  ObjectId v = inr binary ->
  value_for_db (S fuel) v field kind "key" lookup w = (Ret (VObjectId binary), w).
Proof.
  intros Hsuper Hcoll Hid. simpl. unfold safe_call, value_for_db_body.
  run. rewrite Hsuper, Hcoll. by rewrite Hid.
Qed.

Lemma value_for_db_rejected (fuel : nat) (v : val) (e : exn)
    (field : Field) (kind : string) (lookup : val) (w : World) :
  super_value_for_db v field kind "key" lookup w = (Ret v, w) ->
  as_collection (heap w) v = None ->
  ObjectId v = inl e ->
  value_for_db (S fuel) v field kind "key" lookup w
  = match e with
    | InvalidId _ =>
        match v with
        | VUnicode s => (Raise (InvalidId (invalid_id_message (preview s) field)), w)
        | _ => (Raise AssertionError, w)
        end
    | PyMongoError msg => (Raise (DatabaseError msg), w)
    | _ => (Raise e, w)
    end.
Proof.
  intros Hsuper Hcoll Hid. simpl. unfold safe_call, value_for_db_body.
  run. rewrite Hsuper, Hcoll. rewrite Hid.
  destruct e; try done. by destruct v.
Qed.

(** X3. A malformed key that is no unicode object (a byte string, say)
    fails with AssertionError, not with InvalidId: the handler of InvalidId
    asserts that the value is a unicode object before it words its
    message. *)
Theorem value_for_db_not_unicode (fuel : nat) (v : val) (m : string)
    (field : Field) (kind : string) (lookup : val) (w : World) :
  super_value_for_db v field kind "key" lookup w = (Ret v, w) ->
  as_collection (heap w) v = None ->
  ObjectId v = inl (InvalidId m) ->
  (forall s, v <> VUnicode s) ->
  value_for_db (S fuel) v field kind "key" lookup w = (Raise AssertionError, w).
Proof.
  intros Hsuper Hcoll Hid Hv.
  rewrite (value_for_db_rejected fuel v (InvalidId m)) by done.
  destruct v; try done. by destruct (Hv s).
Qed.

(** X4. An error of [ObjectId] other than InvalidId (and other than an
    error of the driver, which [safe_call] turns into a database error)
    leaves [value_for_db] as it is, and the world is unchanged: only
    InvalidId is reworded. *)
Theorem value_for_db_other_error (fuel : nat) (v : val) (e : exn)
    (field : Field) (kind : string) (lookup : val) (w : World) :
  super_value_for_db v field kind "key" lookup w = (Ret v, w) ->
  as_collection (heap w) v = None ->
  ObjectId v = inl e ->
  (forall m, e <> InvalidId m) -> (forall m, e <> PyMongoError m) ->
  value_for_db (S fuel) v field kind "key" lookup w = (Raise e, w).
Proof.
  intros Hsuper Hcoll Hid Hinv Hdrv.
  rewrite (value_for_db_rejected fuel v e) by done.
  destruct e; try done; [by destruct (Hinv msg)|by destruct (Hdrv msg)].
Qed.

(** X5. Converting a key is idempotent: an identifier that [value_for_db]
    has made of a key is converted to itself, for a driver whose [ObjectId]
    accepts an identifier and copies it. *)
Theorem value_for_db_idempotent (fuel fuel' : nat) (v : val) (binary : string)
    (field : Field) (kind : string) (lookup : val) (w : World) :
  super_value_for_db v field kind "key" lookup w = (Ret v, w) ->
  super_value_for_db (VObjectId binary) field kind "key" lookup w
    = (Ret (VObjectId binary), w) ->
  as_collection (heap w) v = None ->
  ObjectId v = inr binary ->
  ObjectId (VObjectId binary) = inr binary ->
  (stored <- value_for_db (S fuel) v field kind "key" lookup ;;
   value_for_db (S fuel') stored field kind "key" lookup) w
  = (Ret (VObjectId binary), w).
Proof.
  intros Hsuper Hsuper' Hcoll Hid Hid'. unfold bind.
  rewrite (value_for_db_accepted fuel v binary) by done.
  by apply value_for_db_accepted.
Qed.

(** X2. A collection with a malformed key fails as a whole: when the keys
    before it are accepted, [value_for_db] raises the InvalidId of the
    first malformed unicode key, no list is made and the world is as it
    was. *)
Theorem value_for_db_collection_rejected (fuel : nat) (l : loc) (k : seqkind)
    (xs ys : list val) (s m : string)
    (field : Field) (kind : string) (lookup : val) (w : World) :
  heap w !! l = Some (OSeq k (xs ++ VUnicode s :: ys)) ->
  Forall (fun x => (exists t, is_string x t) /\ exists b, ObjectId x = inr b) xs ->
  ObjectId (VUnicode s) = inl (InvalidId m) ->
  (forall x, super_value_for_db x field kind "key" lookup w = (Ret x, w)) ->
  value_for_db (S (S fuel)) (VRef l) field kind "key" lookup w
  = (Raise (InvalidId (invalid_id_message (preview s) field)), w).
Proof.
  intros Hl Hxs Hid Hsuper.
  change (value_for_db (S (S fuel))) with
    (fun v f fk ty lk => safe_call (value_for_db_body (value_for_db (S fuel)) v f fk ty lk)).
  unfold safe_call, value_for_db_body. run.
  rewrite Hsuper. unfold as_collection. rewrite Hl.
  assert (Hzs : exists zs, Forall2 (fun x z =>
            value_for_db (S fuel) x field kind "key" lookup w = (Ret z, w)) xs zs).
  { clear Hl. induction Hxs as [|x xs [[t Ht] [b Hb]] _ [zs IH]].
    - by exists [].
    - exists (VObjectId b :: zs). constructor; [|done].
      apply value_for_db_accepted; [done| |done].
      by eapply string_not_collection. }
  destruct Hzs as [zs Hzs].
  rewrite (comprehension_raise _ xs ys (VUnicode s) zs
             (InvalidId (invalid_id_message (preview s) field)) w Hzs); [done|].
  exact (value_for_db_rejected fuel (VUnicode s) (InvalidId m) field kind lookup w
           (Hsuper _) eq_refl Hid).
Qed.

Section Nested.

Variable field : Field.
Variable kind : string.
Variable lookup : val.
Hypothesis super_hands_on : forall x w,
  super_value_for_db x field kind "key" lookup w = (Ret x, w).

Lemma comprehension_grow (f : val -> M val) (n : nat) (xs : list val)
    (ts ts' : list tree) (w : World) :
  (forall v t t' w,
     reify n (heap w) v = Some t -> key_tree t t' ->
     exists v' ext,
       f v w = (Ret v', set_heap (heap w ++ ext) w) /\
       reify (S n) (heap w ++ ext) v' = Some t') ->
  Forall2 (fun v t => reify n (heap w) v = Some t) xs ts ->
  Forall2 key_tree ts ts' ->
  exists vs ext,
    comprehension f xs w = (Ret vs, set_heap (heap w ++ ext) w) /\
    Forall2 (fun v t => reify (S n) (heap w ++ ext) v = Some t) vs ts'.
Proof.
  intros Hf. revert ts ts' w.
  induction xs as [|x xs IH]; intros ts ts' w Hxs Hts.
  - apply Forall2_nil_inv_l in Hxs as ->. apply Forall2_nil_inv_l in Hts as ->.
    exists [], []. rewrite app_nil_r, set_heap_id. by split.
  - apply Forall2_cons_inv_l in Hxs as (t & ts0 & Hx & Hxs & ->).
    apply Forall2_cons_inv_l in Hts as (t' & ts0' & Ht & Hts & ->).
    destruct (Hf x t t' w Hx Ht) as (v' & ext1 & Hrun1 & Hv').
    destruct (IH ts0 ts0' (set_heap (heap w ++ ext1) w)) as (vs & ext2 & Hrun2 & Hvs).
    { simpl. eapply Forall2_impl; [exact Hxs|]. intros v t0 Hv. by apply reify_app. }
    { done. }
    simpl in Hrun2, Hvs.
    exists (v' :: vs), (ext1 ++ ext2). split.
    + simpl. unfold bind at 1. rewrite Hrun1. unfold bind at 1. rewrite Hrun2.
      unfold ret. by rewrite set_heap_set_heap, app_assoc.
    + rewrite app_assoc. constructor; [by apply reify_app|done].
Qed.

Lemma value_for_db_tree (n : nat) (v : val) (t t' : tree) (w : World) :
  reify n (heap w) v = Some t -> key_tree t t' ->
  exists v' ext,
    value_for_db (S n) v field kind "key" lookup w
      = (Ret v', set_heap (heap w ++ ext) w) /\
    reify (S n) (heap w ++ ext) v' = Some t'.
Proof.
  revert v t t' w. induction n as [|n IH]; intros v t t' w Hv Ht.
  - destruct v; try discriminate; injection Hv as <-;
      inversion Ht as [v0 bin Hbin|]; subst;
      exists (VObjectId bin), []; rewrite app_nil_r, set_heap_id;
      (split; [by apply value_for_db_accepted|done]).
  - assert (Hcase : (exists l, v = VRef l) \/ (forall l, v <> VRef l))
      by (destruct v; first [by right|left; by eexists]).
    destruct Hcase as [[l ->]|Hatom].
    + apply reify_ref in Hv as (n' & o & ts & [= <-] & Hl & Hts & ->).
      destruct o as [k xs|items]; [|by inversion Ht].
      simpl in Ht, Hts. inversion Ht as [|k0 ts0 ts' Hts']; subst.
      destruct (comprehension_grow
                  (fun sub => value_for_db (S n) sub field kind "key" lookup)
                  n xs ts ts' w IH Hts Hts') as (vs & ext & Hrun & Hvs).
      exists (VRef (length (heap w ++ ext))), (ext ++ [OSeq KList vs]). split.
      * change (value_for_db (S (S n))) with
          (fun v f fk ty lk =>
             safe_call (value_for_db_body (value_for_db (S n)) v f fk ty lk)).
        set (self := value_for_db (S n)) in *. clearbody self.
        unfold safe_call, value_for_db_body. run.
        rewrite super_hands_on. unfold as_collection. rewrite Hl.
        rewrite Hrun. simpl. by rewrite app_assoc.
      * rewrite app_assoc.
        apply (reify_ref_intro _ _ _ (OSeq KList vs) ts').
        -- by rewrite lookup_app_r, Nat.sub_diag.
        -- change (children (OSeq KList vs)) with vs.
           eapply Forall2_impl; [exact Hvs|].
           intros v t0 Hv0. by apply (reify_app (S n)).
    + rewrite (reify_atom _ _ _ Hatom) in Hv. injection Hv as <-.
      inversion Ht as [v0 bin Hbin|]; subst.
      exists (VObjectId bin), []. rewrite app_nil_r, set_heap_id. split; [|done].
      apply value_for_db_accepted; [done| |done].
      destruct v; try done. by destruct (Hatom l).
Qed.

End Nested.

(** X1. [value_for_db] converts collections of keys recursively: when the
    mapper's generic converter hands keys on as they are, a value that
    stands for a tree of lists, tuples and sets of accepted keys is
    converted, with fuel for its depth, to a new value that stands for the
    tree of the same shape with a list for every collection and an
    identifier for every key; the heap only grows. *)
Theorem value_for_db_nested (n : nat) (v : val) (t t' : tree)
    (field : Field) (kind : string) (lookup : val) (w : World) :
  (forall x w', super_value_for_db x field kind "key" lookup w' = (Ret x, w')) ->
  reify n (heap w) v = Some t -> key_tree t t' ->
  exists v' ext,
    value_for_db (S n) v field kind "key" lookup w
      = (Ret v', set_heap (heap w ++ ext) w) /\
    denotes (heap w ++ ext) v' t'.
Proof.
  intros Hsuper Hv Ht.
  destruct (value_for_db_tree field kind lookup Hsuper n v t t' w Hv Ht)
    as (v' & ext & Hrun & Hv').
  exists v', ext. split; [done|]. by exists (S n).
Qed.

(** X6. For the storage type 'key', [value_from_db] hands the generic
    converter the unicode text of the value: the text of an identifier, a
    unicode object itself, an ASCII byte string decoded; a byte string
    that is not ASCII raises UnicodeDecodeError. *)
Theorem value_from_db_key_text (v : val) (field : Field) (kind : string) (w : World) :
  is_None v || is_NOT_PROVIDED v = false ->
  (exists s,
     value_from_db v field kind "key" w
       = safe_call (super_value_from_db (VUnicode s) field kind "key") w /\
     (forall b, v = VObjectId b -> s = ObjectId_str b) /\
     (forall u, is_string v u -> s = u)) \/
  (exists u, v = VStr u /\ is_ascii u = false /\
     value_from_db v field kind "key" w = (Raise UnicodeDecodeError, w)).
Proof.
  intros Hv. unfold value_from_db, value_from_db_body. rewrite Hv.
  change (String.eqb "key" "key") with true. cbv iota.
  change (String.eqb "key" "date") with false.
  change (String.eqb "key" "time") with false. cbv iota.
  destruct v; try discriminate;
    try (left; eexists; split;
           [reflexivity|split; [intros ? [=]|intros ? [[=]|[=]]]]; fail).
  - (* str *) destruct (is_ascii s) eqn:Hascii.
    + left. exists s. split.
      * unfold unicode. rewrite Hascii. reflexivity.
      * split; [by intros ? [=]|]. by intros u [[= ->]|[=]].
    + right. exists s. split; [done|]. split; [done|].
      unfold unicode. rewrite Hascii. reflexivity.
  - (* unicode *) left. exists s. split; [reflexivity|].
    split; [by intros ? [=]|]. by intros u [[=]|[= ->]].
  - (* identifier *) left. exists (ObjectId_str binary). split; [reflexivity|].
    split; [by intros ? [= ->]|]. by intros u [[=]|[=]].
Qed.

End ConversionsMore.

(** X7. [value_to_db_date] keeps the day and drops the time of day: a date
    and every timestamp of that day are stored as the midnight of the day,
    and storing what was stored gives it again.  A time of day, which has
    no year, is refused with AttributeError. *)
Theorem value_to_db_date_midnight (y m d h mi s us : Z) (w : World) :
  valid_date y m d = true ->
  value_to_db_date (VDate y m d) w = (Ret (VDatetime y m d 0 0 0 0), w) /\
  value_to_db_date (VDatetime y m d h mi s us) w
    = (Ret (VDatetime y m d 0 0 0 0), w) /\
  (stored <- value_to_db_date (VDatetime y m d h mi s us) ;;
   value_to_db_date stored) w
    = (Ret (VDatetime y m d 0 0 0 0), w) /\
  value_to_db_date (VTime h mi s us) w = (Raise (AttributeError "year"), w).
Proof.
  intros Hvalid.
  assert (Hstamp : forall h mi s us,
    value_to_db_date (VDatetime y m d h mi s us) w
    = (Ret (VDatetime y m d 0 0 0 0), w)).
  { intros. unfold value_to_db_date. run. by rewrite Hvalid. }
  split_and!.
  - unfold value_to_db_date. run. by rewrite Hvalid.
  - apply Hstamp.
  - unfold bind. rewrite Hstamp. apply Hstamp.
  - done.
Qed.

(** X8. [value_to_db_time] keeps the time of day, microseconds included,
    and puts it on the day 1-1-1: a time and every timestamp with that
    time of day are stored alike, and storing what was stored gives it
    again.  A date, which has no hour, is refused with AttributeError. *)
Theorem value_to_db_time_first_day (y m d h mi s us : Z) (w : World) :
  valid_time h mi s us = true ->
  value_to_db_time (VTime h mi s us) w = (Ret (VDatetime 1 1 1 h mi s us), w) /\
  value_to_db_time (VDatetime y m d h mi s us) w
    = (Ret (VDatetime 1 1 1 h mi s us), w) /\
  (stored <- value_to_db_time (VDatetime y m d h mi s us) ;;
   value_to_db_time stored) w
    = (Ret (VDatetime 1 1 1 h mi s us), w) /\
  value_to_db_time (VDate y m d) w = (Raise (AttributeError "hour"), w).
Proof.
  intros Hvalid.
  assert (Hstamp : forall y m d,
    value_to_db_time (VDatetime y m d h mi s us) w
    = (Ret (VDatetime 1 1 1 h mi s us), w)).
  { intros. unfold value_to_db_time. run. by rewrite Hvalid. }
  split_and!.
  - unfold value_to_db_time. run. by rewrite Hvalid.
  - apply Hstamp.
  - unfold bind. rewrite Hstamp. apply Hstamp.
  - done.
Qed.

Lemma set_store_store (w : World) : set_store (store w) w = w.
Proof. by destruct w. Qed.

Lemma set_store_set_store (s s' : gmap (string * string) (list document)) (w : World) :
  set_store s' (set_store s w) = set_store s' w.
Proof. done. Qed.

Lemma flushed_lookup (d : Database) (tables : list string)
    (s : gmap (string * string) (list document)) (k : string * string) :
  flushed d tables s !! k
  = if decide (cleared d tables k) then (fun _ => []) <$> s !! k else s !! k.
Proof.
  revert s. induction tables as [|table tables IH]; intros s; simpl.
  - destruct (decide _) as [(_ & Hin & _)|]; [|done]. by apply elem_of_nil in Hin.
  - destruct (startswith "system." table) eqn:Hsys; rewrite IH.
    + destruct (decide (cleared d tables k)) as [(H1 & H2 & H3)|Hn];
        destruct (decide (cleared d (table :: tables) k)) as [(H4 & H5 & H6)|Hn'];
        try done.
      * destruct Hn'. split_and!; try done. by right.
      * destruct Hn. split_and!; try done.
        apply elem_of_cons in H5 as [Heq|]; [|done].
        rewrite Heq in H6. congruence.
    + rewrite lookup_alter.
      destruct (decide ((database_name d, table) = k)) as [<-|Hk].
      * destruct (decide (cleared d (table :: tables) _)) as [_|Hn'].
        -- destruct (decide _); [|done]. by destruct (s !! _).
        -- destruct Hn'. split_and!; try done. by left.
      * destruct (decide (cleared d tables k)) as [(H1 & H2 & H3)|Hn];
          destruct (decide (cleared d (table :: tables) k)) as [(H4 & H5 & H6)|Hn'];
          try done.
        -- destruct Hn'. split_and!; try done. by right.
        -- destruct Hn. split_and!; try done.
           apply elem_of_cons in H5 as [Heq|]; [|done].
           destruct Hk. destruct k. simpl in *. by subst.
Qed.

Lemma flushed_again (d : Database) (tables tables' : list string)
    (s : gmap (string * string) (list document)) :
  (forall t, t ∈ tables' -> t ∈ tables) ->
  flushed d tables' (flushed d tables s) = flushed d tables s.
Proof.
  intros Hsub. apply map_eq. intros k. rewrite !flushed_lookup.
  destruct (decide (cleared d tables' k)) as [(H1 & H2 & H3)|]; [|done].
  destruct (decide (cleared d tables k)) as [_|Hn].
  - by destruct (s !! k).
  - destruct Hn. split_and!; try done. by apply Hsub.
Qed.

Lemma flushed_same (d : Database) (tables tables' : list string)
    (s : gmap (string * string) (list document)) :
  (forall t, t ∈ tables <-> t ∈ tables') ->
  flushed d tables s = flushed d tables' s.
Proof.
  intros Hsame. apply map_eq. intros k. rewrite !flushed_lookup.
  destruct (decide (cleared d tables k)) as [(H1 & H2 & H3)|Hn];
    destruct (decide (cleared d tables' k)) as [(H4 & H5 & H6)|Hn']; try done.
  - destruct Hn'. split_and!; try done. by apply Hsame.
  - destruct Hn. split_and!; try done. by apply Hsame.
Qed.

Lemma flushed_dom (d : Database) (tables : list string)
    (s : gmap (string * string) (list document)) :
  dom (flushed d tables s) = dom s.
Proof.
  apply set_eq. intros k. rewrite !elem_of_dom, flushed_lookup.
  destruct (decide _); [|done]. by rewrite fmap_is_Some.
Qed.

Section FlushMore.

Variable Connection_fault : val -> val -> list (string * val) -> option exn.
Variable Database_fault : string -> option exn.
Variable authenticate : Database -> val -> val -> exn + bool.

Abbreviation sql_flush_tables :=
  (sql_flush_tables Connection_fault Database_fault authenticate).
Abbreviation sql_flush := (sql_flush Connection_fault Database_fault authenticate).
Abbreviation table_names := (table_names Connection_fault Database_fault authenticate).
Abbreviation getattr_database :=
  (getattr_database Connection_fault Database_fault authenticate).

Lemma sql_flush_tables_system (fuel : nat) (tables : list string) (w : World) :
  (forall table, table ∈ tables -> startswith "system." table = true) ->
  sql_flush_tables fuel tables w = (Ret tt, w).
Proof.
  induction tables as [|table tables IH]; intros Hsys; [done|]. simpl.
  rewrite (Hsys table) by (by left). apply IH. intros t Ht. apply Hsys. by right.
Qed.

Lemma sql_flush_tables_store (fuel : nat) (d : Database) (tables : list string)
    (w : World) :
  database (wrapper w) = Some d ->
  sql_flush_tables fuel tables w = (Ret tt, set_store (flushed d tables (store w)) w).
Proof.
  revert w. induction tables as [|table tables IH]; intros w Hd; simpl.
  - by rewrite set_store_store.
  - destruct (startswith "system." table) eqn:Hsys; [by apply IH|].
    unfold bind at 1, getattr_database, bind at 1, get_world. rewrite Hd.
    unfold ret, bind at 1, Collection_remove, modify.
    by rewrite IH.
Qed.

Lemma table_names_run (fuel : nat) (d : Database) (w : World) :
  database (wrapper w) = Some d ->
  table_names fuel w = (Ret (collection_names d w), w).
Proof.
  intros Hd. unfold table_names, getattr_database, bind, get_world. by rewrite Hd.
Qed.

Lemma elem_of_collection_names (d : Database) (w : World) (table : string) :
  table ∈ collection_names d w <-> is_Some (store w !! (database_name d, table)).
Proof.
  unfold collection_names. rewrite list_elem_of_fmap. split.
  - intros ([db t] & -> & Hin). apply list_elem_of_filter in Hin as [Hdb Hin].
    simpl in *. subst db. by apply elem_of_elements, elem_of_dom in Hin.
  - intros Hsome. exists (database_name d, table). split; [done|].
    apply list_elem_of_filter. split; [done|].
    by apply elem_of_elements, elem_of_dom.
Qed.

(** X9. [sql_flush] asked for system collections only (or for no table)
    returns the empty list and leaves the world as it is, whatever the
    state of the wrapper: no connection is opened. *)
Theorem sql_flush_system_only (fuel : nat) (style : val) (tables : list string)
    (sequence_list : val) (w : World) :
  (forall table, table ∈ tables -> startswith "system." table = true) ->
  sql_flush fuel style tables sequence_list w = (Ret [], w).
Proof.
  intros Hsys. unfold sql_flush, bind. by rewrite sql_flush_tables_system.
Qed.

(** X10. Flushing is idempotent: after [sql_flush] of [tables], a second
    [sql_flush] of any of these tables changes nothing. *)
Theorem sql_flush_again (fuel : nat) (style : val) (tables tables' : list string)
    (sequence_list : val) (d : Database) (w : World) :
  database (wrapper w) = Some d ->
  (forall table, table ∈ tables' -> table ∈ tables) ->
  exists w',
    sql_flush fuel style tables sequence_list w = (Ret [], w') /\
    sql_flush fuel style tables' sequence_list w' = (Ret [], w').
Proof.
  intros Hd Hsub. eexists. split.
  - unfold sql_flush, bind. by rewrite (sql_flush_tables_store fuel d).
  - unfold sql_flush, bind. rewrite (sql_flush_tables_store fuel d) by done.
    simpl. by rewrite flushed_again.
Qed.

(** X11. The outcome of [sql_flush] depends on which tables are named, not on
    their order nor on how often each is named. *)
Theorem sql_flush_same_tables (fuel : nat) (style : val)
    (tables tables' : list string) (sequence_list : val) (d : Database)
    (w : World) :
  database (wrapper w) = Some d ->
  (forall table, table ∈ tables <-> table ∈ tables') ->
  sql_flush fuel style tables sequence_list w
  = sql_flush fuel style tables' sequence_list w.
Proof.
  intros Hd Hsame. unfold sql_flush, bind.
  rewrite !(sql_flush_tables_store fuel d) by done.
  by rewrite (flushed_same d tables tables').
Qed.

(** X12. Flushing the tables that [table_names] lists empties every
    collection of the database but the system collections, which keep
    their documents; the collections are emptied, not dropped:
    [table_names] lists the same names afterwards. *)
Theorem sql_flush_table_names (fuel : nat) (style sequence_list : val)
    (d : Database) (w : World) :
  database (wrapper w) = Some d ->
  exists names w',
    table_names fuel w = (Ret names, w) /\
    sql_flush fuel style names sequence_list w = (Ret [], w') /\
    (forall table, startswith "system." table = false ->
       rows w' (database_name d) table = []) /\
    (forall table, startswith "system." table = true ->
       rows w' (database_name d) table = rows w (database_name d) table) /\
    (forall db table, db <> database_name d -> rows w' db table = rows w db table) /\
    table_names fuel w' = (Ret names, w').
Proof.
  intros Hd. exists (collection_names d w). eexists. split_and!.
  - by apply table_names_run.
  - unfold sql_flush, bind. by rewrite (sql_flush_tables_store fuel d).
  - intros table Hsys. unfold rows. simpl. rewrite flushed_lookup.
    destruct (decide _) as [_|Hn]; [by destruct (store w !! _)|].
    destruct (store w !! (database_name d, table)) eqn:Hlook; [|done].
    destruct Hn. split_and!; try done.
    apply elem_of_collection_names. simpl. by rewrite Hlook.
  - intros table Hsys. unfold rows. simpl. rewrite flushed_lookup.
    destruct (decide _) as [(_ & _ & Hn)|]; [|done]. simpl in Hn. congruence.
  - intros db table Hdb. unfold rows. simpl. rewrite flushed_lookup.
    destruct (decide _) as [(Hn & _)|]; [|done]. done.
  - rewrite table_names_run with (d := d) by done. f_equal. f_equal.
    unfold collection_names. simpl. by rewrite flushed_dom.
Qed.

(** X14. The connection is opened once: when an access to [database] has
    given the database, every later access gives the same one and leaves
    the world as it is. *)
Theorem getattr_database_once (fuel fuel' : nat) (d : Database) (w w1 : World) :
  getattr_database fuel w = (Ret d, w1) ->
  getattr_database fuel' w1 = (Ret d, w1).
Proof.
  unfold getattr_database at 1, bind at 1, get_world.
  destruct (database (wrapper w)) as [d0|] eqn:Hd.
  - intros [= <- <-]. unfold getattr_database, bind, get_world. by rewrite Hd.
  - unfold bind at 1.
    destruct (connected (wrapper w)); [done|]. unfold ret at 1.
    unfold bind at 1.
    destruct (_connect _ _ _ fuel w) as [[[]|e|] w2]; [|done..].
    unfold bind, get_world.
    destruct (database (wrapper w2)) as [d2|] eqn:Hd2; [|done].
    intros [= <- <-]. unfold getattr_database, bind, get_world. by rewrite Hd2.
Qed.

End FlushMore.

Lemma same_handles_refl (w : World) : same_handles w w.
Proof. by repeat split. Qed.

Lemma same_handles_trans (w1 w2 w3 : World) :
  same_handles w1 w2 -> same_handles w2 w3 -> same_handles w1 w3.
Proof.
  intros (?&?&?&?&?&?&?) (?&?&?&?&?&?&?). repeat split; congruence.
Qed.

Lemma same_handles_set_heap (h : list obj) (w : World) : same_handles w (set_heap h w).
Proof. by repeat split. Qed.

Lemma triple_keeps_bind {A B} (J : World -> Prop) (m : M A) (f : A -> M B)
    (R : A -> Prop) (Q : B -> World -> Prop) (E : World -> Prop) :
  keeps J m R -> (forall w, J w -> E w) ->
  (forall a, R a -> triple J (f a) Q E) ->
  triple J (bind m f) Q E.
Proof.
  intros Hm HE Hf. eapply triple_bind.
  - eapply triple_conseq; [exact Hm|done|done|exact HE].
  - intros a w [Hw Ha]. by apply Hf.
Qed.

Lemma triple_keeps {A} (J : World -> Prop) (m : M A) (R : A -> Prop)
    (Q : A -> World -> Prop) (E : World -> Prop) :
  keeps J m R -> (forall w, J w -> E w) -> (forall a w, J w -> R a -> Q a w) ->
  triple J m Q E.
Proof.
  intros Hm HE HQ. eapply triple_conseq; [exact Hm|done| |exact HE].
  intros a w [Hw Ha]. by apply HQ.
Qed.

(** *** Code that works on the heap only *)

Section Apart.

(** An invariant that does not speak of the heap, of the count of lookups
    nor of the operation flags. *)
Variable J : World -> Prop.
Hypothesis J_apart : forall w w', same_handles w w' -> J w -> J w'.

Lemma apart_modify (f : World -> World) :
  (forall w, same_handles w (f w)) -> keeps J (modify f) (fun _ => True).
Proof.
  intros Hf. apply triple_modify. intros w Hw. split; [|done].
  by apply (J_apart w).
Qed.

Lemma apart_alloc (o : obj) : keeps J (alloc o) (fun _ => True).
Proof. intros w Hw. simpl. split; [|done]. by apply (J_apart w). Qed.

Lemma apart_alloc_loc (o : obj) : keeps J (alloc_loc o) (fun _ => True).
Proof. intros w Hw. simpl. split; [|done]. by apply (J_apart w). Qed.

Lemma apart_store_obj (l : loc) (o : obj) : keeps J (store_obj l o) (fun _ => True).
Proof. by apply apart_modify. Qed.

Lemma apart_dict_pop (d : val) (key : string) :
  keeps J (dict_pop d key) (fun _ => True).
Proof.
  eapply keeps_bind; [apply keeps_read_items|]. intros p _.
  destruct (dict_get key p.2); [|apply keeps_raise].
  eapply keeps_bind; [apply apart_store_obj|]. intros _ _. by apply keeps_ret.
Qed.

Lemma apart_dict_pop_default (d : val) (key : string) (default : val) :
  keeps J (dict_pop_default d key default) (fun _ => True).
Proof.
  eapply keeps_bind; [apply keeps_read_items|]. intros p _.
  destruct (dict_get key p.2); [|by apply keeps_ret].
  eapply keeps_bind; [apply apart_store_obj|]. intros _ _. by apply keeps_ret.
Qed.

Lemma apart_dict_setitem (d : val) (key : string) (value : val) :
  keeps J (dict_setitem d key value) (fun _ => True).
Proof.
  eapply keeps_bind; [apply keeps_read_items|]. intros p _. apply apart_store_obj.
Qed.

Lemma apart_any_contained_in (ks : list val) (names : list string) :
  keeps J (any_contained_in ks names) (fun _ => True).
Proof.
  induction ks as [|k ks IH]; [by apply keeps_ret|]. simpl.
  eapply (keeps_bind _ _ _ (fun _ => True)).
  - destruct k;
      first [ by apply keeps_ret
            | eapply keeps_bind; [by apply apart_modify|];
              intros _ _; by apply keeps_ret ].
  - intros [] _; [by apply keeps_ret|done].
Qed.

Lemma apart_deepcopy_all (copy : val -> memo_table -> M (val * memo_table))
    (xs : list val) (memo : memo_table) :
  (forall x memo, keeps J (copy x memo) (fun _ => True)) ->
  keeps J (deepcopy_all copy xs memo) (fun _ => True).
Proof.
  intros Hcopy. revert memo. induction xs as [|x xs IH]; intros memo.
  - by apply keeps_ret.
  - simpl. eapply keeps_bind; [by apply Hcopy|]. intros p _.
    eapply keeps_bind; [by apply IH|]. intros q _. by apply keeps_ret.
Qed.

Lemma apart_deepcopy_memo (fuel : nat) (x : val) (memo : memo_table) :
  keeps J (deepcopy_memo fuel x memo) (fun _ => True).
Proof.
  revert x memo. induction fuel as [|fuel IH]; intros x memo.
  - destruct x; try by apply keeps_ret.
    simpl. destruct (memo_get l memo); [by apply keeps_ret|apply keeps_stuck].
  - destruct x; try by apply keeps_ret.
    simpl. destruct (memo_get l memo); [by apply keeps_ret|].
    eapply keeps_bind; [apply keeps_load|]. intros o _.
    eapply keeps_bind; [by apply apart_deepcopy_all|]. intros p _.
    eapply keeps_bind; [apply apart_alloc_loc|]. intros y _. by apply keeps_ret.
Qed.

Lemma apart_deepcopy (fuel : nat) (x : val) :
  keeps J (deepcopy fuel x) (fun _ => True).
Proof.
  eapply keeps_bind; [apply apart_deepcopy_memo|]. intros p _. by apply keeps_ret.
Qed.

Lemma apart_set_operation_flags (flags : val) :
  keeps J (set_operation_flags flags) (fun _ => True).
Proof. by apply apart_modify. Qed.

Section ApartWrapper.

Variable Connection_fault : val -> val -> list (string * val) -> option exn.
Variable Database_fault : string -> option exn.
Variable authenticate : Database -> val -> val -> exn + bool.

Abbreviation open_connection :=
  (open_connection Connection_fault Database_fault authenticate).
Abbreviation _connect := (_connect Connection_fault Database_fault authenticate).

Lemma apart_pop (settings : val) (name : string) (default : val) :
  keeps J (pop settings name default) (fun _ => True).
Proof.
  eapply keeps_bind; [apply apart_dict_pop|]. intros value _.
  eapply keeps_bind; [apply keeps_truthy|]. intros keep _. by apply keeps_ret.
Qed.

(** [_connect] up to its [try] works on the heap and on the operation
    flags only: what holds of the rest of the world when the connection is
    opened is what held at the start. *)
Lemma connect_triple (fuel : nat) (Q : unit -> World -> Prop) (E : World -> Prop) :
  (forall w, J w -> E w) ->
  (forall settings db_name host port user password options,
     triple J (open_connection settings db_name host port user password options) Q E) ->
  triple J (_connect fuel) Q E.
Proof.
  intros HE Hopen. unfold _connect.
  eapply triple_keeps_bind; [apply keeps_get_world|done|]. intros w _.
  eapply triple_keeps_bind; [apply apart_deepcopy|done|]. intros settings _.
  do 5 (eapply triple_keeps_bind; [apply apart_pop|done|]; intros ? _).
  eapply triple_keeps_bind; [apply apart_alloc|done|]. intros empty _.
  eapply triple_keeps_bind; [apply apart_pop|done|]. intros options _.
  eapply triple_keeps_bind; [apply apart_alloc|done|]. intros empty' _.
  eapply triple_keeps_bind; [apply apart_dict_pop_default|done|]. intros flags _.
  eapply triple_keeps_bind; [apply apart_set_operation_flags|done|]. intros _ _.
  eapply triple_keeps_bind; [apply keeps_iterate|done|]. intros ks _.
  eapply triple_keeps_bind; [apply apart_any_contained_in|done|]. intros found _.
  eapply (triple_keeps_bind _ _ _ (fun _ => True)); [|done|].
  { destruct found; simpl; [by apply keeps_ret|].
    eapply keeps_bind; [apply apart_alloc|].
    intros broadcast _. apply apart_set_operation_flags. }
  intros _ _.
  eapply triple_keeps_bind; [apply keeps_read_items|done|]. intros keys _.
  eapply (triple_keeps_bind _ _ _ (fun _ => True)); [|done|intros _ _; apply Hopen].
  apply keeps_for_each. intros key.
  eapply keeps_bind; [apply apart_dict_pop|]. intros value _.
  apply apart_dict_setitem.
Qed.

End ApartWrapper.

End Apart.

Section ConnectOutcome.

Variable Connection_fault : val -> val -> list (string * val) -> option exn.
Variable Database_fault : string -> option exn.
Variable authenticate : Database -> val -> val -> exn + bool.

Abbreviation open_connection :=
  (open_connection Connection_fault Database_fault authenticate).
Abbreviation _connect := (_connect Connection_fault Database_fault authenticate).
Abbreviation _reconnect := (_reconnect Connection_fault Database_fault authenticate).
Abbreviation getattr_database :=
  (getattr_database Connection_fault Database_fault authenticate).
Abbreviation sql_flush := (sql_flush Connection_fault Database_fault authenticate).

Lemma same_handles_failed (w0 w : World) : same_handles w0 w -> connect_failed w0 w.
Proof. intros (?&?&?&?&?&?&?). split_and!; try done. by left. Qed.

Lemma open_connection_outcome (w0 : World)
    (settings db_name host port user password options : val) :
  triple (same_handles w0)
    (open_connection settings db_name host port user password options)
    (fun _ => connect_succeeded w0) (connect_failed w0).
Proof.
  set (S1 := fun w : World =>
    connected (wrapper w) = connected (wrapper w0) /\ signals w = signals w0 /\
    store w = store w0 /\ called w0 w).
  set (S2 := fun w : World =>
    S1 w /\ exists c d, connection (wrapper w) = Some c /\
                        database (wrapper w) = Some d /\ database_connection d = c).
  assert (HS1 : forall w, S1 w -> connect_failed w0 w).
  { intros w (?&?&?&?). split_and!; try done. by right. }
  assert (HS2 : forall w, S2 w -> connect_failed w0 w).
  { intros w [H _]. by apply HS1. }
  unfold open_connection.
  eapply (triple_bind _ _ _ (fun _ => S2)).
  { eapply (triple_try _ _ _ _ (connect_failed w0));
      [|intros e k Hk; destruct e; try done; injection Hk as <-;
        by apply triple_raise|done].
    eapply (triple_bind _ _ _ (fun _ => S1)).
    - unfold Connection_call.
      eapply triple_keeps_bind;
        [apply keeps_read_items|apply same_handles_failed|].
      intros p _ w (?&?&Hcalls&?&?&?&?). unfold bind, modify. simpl.
      assert (S1 (set_driver_calls
                    (driver_calls w ++ [mkConnectionCall host port p.2]) w)).
      { split_and!; try done. eexists. simpl. by rewrite Hcalls. }
      destruct (_ || _); simpl; [by apply HS1|].
      destruct (Connection_fault _ _ _); simpl; [by apply HS1|done].
    - intros c w Hw. unfold bind, set_connection, modify_wrapper, modify. simpl.
      unfold Connection_getitem. destruct (string_of db_name); simpl; [|by apply HS1].
      destruct (Database_fault _); simpl; [by apply HS1|].
      split; [done|]. by exists c, (mkDatabase c s []). }
  intros _.
  eapply triple_keeps_bind; [apply keeps_truthy|done|]. intros has_user _.
  eapply (triple_keeps_bind _ _ _ (fun _ => True)); [|done|].
  { destruct has_user; [apply keeps_truthy|by apply keeps_ret]. }
  intros has_password _.
  eapply (triple_keeps_bind _ _ _ (fun _ => True)); [|done|].
  { destruct (_ && _); [|by apply keeps_ret].
    eapply keeps_bind; [apply keeps_get_world|]. intros w' _.
    destruct (database (wrapper w')); [|apply keeps_raise].
    eapply keeps_bind; [apply keeps_lift|].
    intros [] _; [by apply keeps_ret|apply keeps_raise]. }
  intros _ _.
  eapply triple_keeps_bind; [apply keeps_dict_get_method|done|]. intros referencing _.
  eapply triple_keeps_bind; [apply keeps_truthy|done|]. intros automatic _.
  eapply (triple_keeps_bind _ _ _ (fun _ => True)); [|done|].
  { destruct automatic; [|by apply keeps_ret].
    apply triple_modify. intros w [HS (c & d & Hc & Hd & Hcd)].
    split; [|done]. split; [done|]. simpl. rewrite Hd. simpl. by eexists _, _. }
  intros _ _ w [(Hconn & Hsig & Hstore & Hcalled) Hhandles].
  unfold bind, set_connected, modify_wrapper, modify. simpl.
  split_and!; try done. by rewrite Hsig.
Qed.

(** The outcome of [_connect], whatever the settings and the driver. *)
Lemma connect_outcome_triple (fuel : nat) (w0 : World) :
  triple (same_handles w0) (_connect fuel)
    (fun _ => connect_succeeded w0) (connect_failed w0).
Proof.
  apply connect_triple.
  - intros w w' H1 H2. by eapply same_handles_trans.
  - apply same_handles_failed.
  - apply open_connection_outcome.
Qed.

(** X15. A connect attempt that succeeds leaves the wrapper connected, with
    a connection and a database of that connection, after one call of the
    driver's constructor and one [connection_created] signal; one that does
    not succeed leaves the [connected] flag as it was and sends no signal.
    No attempt changes the documents of the store. *)
Theorem connect_outcome (fuel : nat) (w : World) :
  match _connect fuel w with
  | (Ret _, w') => connect_succeeded w w'
  | (_, w') => connect_failed w w'
  end.
Proof. apply (connect_outcome_triple fuel w w), same_handles_refl. Qed.

Lemma reconnect_outcome_triple (fuel : nat) (w0 : World) :
  triple (fun w => w = w0) (_reconnect fuel)
    (fun _ w' => connect_succeeded w0 w')
    (fun w' => connected (wrapper w') = false /\ signals w' = signals w0 /\
               store w' = store w0 /\
               (connected (wrapper w0) = true -> driver_calls w' = driver_calls w0 ->
                connection (wrapper w') = None /\ database (wrapper w') = None)).
Proof.
  intros w ->. unfold _reconnect, bind at 1, get_world.
  destruct (connected (wrapper w0)) eqn:Hc.
  - unfold bind, set_connection, set_database, set_connected, modify_wrapper,
      modify.
    cbv beta iota.
    match goal with |- context [_connect fuel ?W] => set (w1 := W) end.
    assert (Hw1 : connected (wrapper w1) = false /\ signals w1 = signals w0 /\
                  store w1 = store w0 /\ driver_calls w1 = driver_calls w0 /\
                  connection (wrapper w1) = None /\ database (wrapper w1) = None)
      by done.
    destruct Hw1 as (Hc1 & Hs1 & Hst1 & Hd1 & Hcn1 & Hdb1).
    pose proof (connect_outcome_triple fuel w1 w1 (same_handles_refl w1)) as H.
    clearbody w1.
    destruct (_connect fuel w1) as [[[]|e|] w'].
    + destruct H as (?&?&?&?&[call Hcall]). split_and!; try done; try congruence.
      exists call. congruence.
    + destruct H as (?&?&?&Hor). split_and!; try congruence.
      intros _ Hcalls. destruct Hor as [(?&?&?)|[call Hcall]]; [split; congruence|].
      rewrite Hd1, <- Hcalls in Hcall.
      apply (f_equal length) in Hcall. rewrite length_app in Hcall. simpl in Hcall. lia.
    + destruct H as (?&?&?&Hor). split_and!; try congruence.
      intros _ Hcalls. destruct Hor as [(?&?&?)|[call Hcall]]; [split; congruence|].
      rewrite Hd1, <- Hcalls in Hcall.
      apply (f_equal length) in Hcall. rewrite length_app in Hcall. simpl in Hcall. lia.
  - unfold bind at 1, ret at 1.
    pose proof (connect_outcome_triple fuel w0 w0 (same_handles_refl w0)) as H.
    destruct (_connect fuel w0) as [[[]|e|] w'].
    + done.
    + destruct H as (?&?&?&Hor). split_and!; try done. congruence.
    + destruct H as (?&?&?&Hor). split_and!; try done. congruence.
Qed.

(** X16. After [_reconnect] the wrapper is connected exactly when the attempt
    succeeded.  A reconnect of a connected wrapper that fails before the
    driver is called leaves the wrapper without connection and without
    database: the old handles are dropped first. *)
Theorem reconnect_outcome (fuel : nat) (w : World) :
  match _reconnect fuel w with
  | (Ret _, w') => connect_succeeded w w'
  | (_, w') =>
      connected (wrapper w') = false /\ signals w' = signals w /\
      store w' = store w /\
      (connected (wrapper w) = true -> driver_calls w' = driver_calls w ->
       connection (wrapper w') = None /\ database (wrapper w') = None)
  end.
Proof. by apply (reconnect_outcome_triple fuel w w). Qed.

End ConnectOutcome.

Section LazyConnect.

Variable Connection_fault : val -> val -> list (string * val) -> option exn.
Variable Database_fault : string -> option exn.
Variable authenticate : Database -> val -> val -> exn + bool.

Abbreviation _connect := (_connect Connection_fault Database_fault authenticate).
Abbreviation getattr_database :=
  (getattr_database Connection_fault Database_fault authenticate).
Abbreviation sql_flush_tables :=
  (sql_flush_tables Connection_fault Database_fault authenticate).
Abbreviation sql_flush := (sql_flush Connection_fault Database_fault authenticate).
Abbreviation table_names := (table_names Connection_fault Database_fault authenticate).

Lemma sql_flush_tables_lazy (fuel : nat) (tables : list string) (w : World) :
  database (wrapper w) = None -> connected (wrapper w) = false ->
  (exists table, table ∈ tables /\ startswith "system." table = false) ->
  sql_flush_tables fuel tables w = (_connect fuel ;;; sql_flush_tables fuel tables) w.
Proof.
  intros Hd Hc. induction tables as [|table tables IH]; intros (t & Hin & Ht).
  { by apply elem_of_nil in Hin. }
  destruct (startswith "system." table) eqn:Hsys.
  - assert (Hskip : forall w', sql_flush_tables fuel (table :: tables) w'
                               = sql_flush_tables fuel tables w').
    { intros w'. simpl. by rewrite Hsys. }
    rewrite Hskip, IH.
    + unfold bind. destruct (_connect fuel w) as [[[]|e|] w1]; [|done..].
      by rewrite Hskip.
    + exists t. split; [|done]. apply elem_of_cons in Hin as [->|]; [congruence|done].
  - simpl. rewrite Hsys. unfold bind at 1, getattr_database at 1.
    unfold bind at 1, get_world at 1. rewrite Hd, Hc.
    unfold bind at 1, ret at 1. unfold bind at 1, bind at 3.
    pose proof (connect_outcome_triple Connection_fault Database_fault authenticate
                  fuel w w (same_handles_refl w)) as H.
    destruct (_connect fuel w) as [[[]|e|] w1]; [|done..].
    destruct H as (_ & (c & d & _ & Hd1 & _) & _).
    unfold bind at 1, get_world at 1. rewrite Hd1. unfold ret at 1.
    unfold bind at 2, getattr_database, bind at 2, get_world. by rewrite Hd1.
Qed.

(** X13. [sql_flush] through a wrapper that is not connected yet, for a
    table that is no system collection, is [_connect] followed by the
    flush; when the connect attempt fails, the flush fails in the same way
    and no document is removed. *)
Theorem sql_flush_connects_first (fuel : nat) (style : val) (tables : list string)
    (sequence_list : val) (w : World) :
  database (wrapper w) = None -> connected (wrapper w) = false ->
  (exists table, table ∈ tables /\ startswith "system." table = false) ->
  sql_flush fuel style tables sequence_list w
  = (_connect fuel ;;; sql_flush fuel style tables sequence_list) w /\
  (forall e w', _connect fuel w = (Raise e, w') ->
     sql_flush fuel style tables sequence_list w = (Raise e, w') /\
     store w' = store w).
Proof.
  intros Hd Hc Hex.
  assert (Heq : sql_flush fuel style tables sequence_list w
                = (_connect fuel ;;; sql_flush fuel style tables sequence_list) w).
  { unfold sql_flush, bind at 1. rewrite sql_flush_tables_lazy by done.
    unfold bind. by destruct (_connect fuel w) as [[[]|e|] w1]. }
  split; [done|]. intros e w' Hrun. rewrite Heq. unfold bind. rewrite Hrun.
  split; [done|].
  pose proof (connect_outcome_triple Connection_fault Database_fault authenticate
                  fuel w w (same_handles_refl w)) as H.
  rewrite Hrun in H. by destruct H as (_ & _ & ? & _).
Qed.

End LazyConnect.

Lemma dict_pop_missing (w : World) (l : loc) (items : list (string * val))
    (k : string) :
  heap w !! l = Some (ODict items) -> dict_get k items = None ->
  dict_pop (VRef l) k w = (Raise (KeyError k), w).
Proof.
  intros Hl Hk. unfold dict_pop, bind, dict_items, bind, load.
  rewrite Hl. unfold ret. simpl. by rewrite Hk.
Qed.

Section MissingKey.

Variable Connection_fault : val -> val -> list (string * val) -> option exn.
Variable Database_fault : string -> option exn.
Variable authenticate : Database -> val -> val -> exn + bool.

Abbreviation _connect := (_connect Connection_fault Database_fault authenticate).

Lemma pop_missing (h0 : list obj) (w : World) (l : loc) items S (k : string)
    (d : val) :
  settled h0 (heap w) l items S -> dict_get k S = None ->
  pop (VRef l) k d w = (Raise (KeyError k), w).
Proof.
  intros (_ & _ & Hlook & Hitems) Hk. unfold pop, bind.
  rewrite (dict_pop_missing w l items); [done|done|].
  by eapply items_denote_get_None.
Qed.

Ltac forget_heap Hset :=
  simpl heap in Hset |- *;
  match type of Hset with
  | settled _ ?H' _ ?I' _ =>
      let h := fresh "h" in
      let items := fresh "items" in
      set (h := H') in *; clearbody h;
      set (items := I') in *; clearbody items
  end.

Ltac pop_present ls key Hset :=
  match goal with
  | |- context [set_heap ?H ?w] =>
      match type of Hset with
      | settled _ _ _ _ ?S' =>
          let Hrun := fresh "Hrun" in
          let Hnew := fresh "Hset" in
          let t := fresh "t" in
          let Ht := fresh "Ht" in
          let v := fresh "v" in
          assert (exists t, dict_get key S' = Some t) as [t Ht];
          [|destruct (pop_run _ (set_heap H w) ls _ _ key t VNone Hset Ht)
              as (v & _ & _ & _ & Hrun & Hnew);
            unfold bind at 1; rewrite Hrun; rewrite set_heap_set_heap;
            clear Hrun Hset Ht; rename Hnew into Hset; forget_heap Hset]
      end
  end.

(** X17. When the settings lack one of 'NAME', 'HOST', 'PORT', 'USER',
    'PASSWORD' and 'OPTIONS', [_connect] raises KeyError for the first of
    them that is missing, in this order ('OPTIONS' too: its default stands
    in for a false value, not for a missing key); only the heap has changed
    then: the driver was not called and the wrapper is as it was. *)
Theorem connect_missing_key (fuel : nat) (w : World) (S : list (string * tree))
    (present rest : list string) (missing : string) :
  reify fuel (heap w) (settings_dict (wrapper w)) = Some (TDict S) ->
  ["NAME"; "HOST"; "PORT"; "USER"; "PASSWORD"; "OPTIONS"]
    = present ++ missing :: rest ->
  (forall k, k ∈ present -> is_Some (dict_get k S)) ->
  dict_get missing S = None ->
  exists h', _connect fuel w = (Raise (KeyError missing), set_heap h' w).
Proof.
  intros Hreify Hkeys Hpresent Hmissing.
  unfold _connect. unfold bind at 1, get_world.
  destruct (deepcopy_memo_correct (heap w) fuel (settings_dict (wrapper w)) [] w
              (TDict S) []) as (v' & memo' & ext & Hrun & Hdown & _ & Hyoung & Hv');
    [by rewrite app_nil_r|apply downward_start|apply memo_ok_nil|done|].
  unfold bind at 1, deepcopy, bind at 1. rewrite Hrun. unfold ret at 1. simpl fst.
  apply denotes_dict in Hv' as (ls & items_s & -> & Hls & Hitems_s).
  assert (Hset : settled (heap w) (heap w ++ ext) ls items_s S).
  { split_and!; try done. simpl in Hyoung. apply Hyoung. }
  clear Hrun Hreify Hdown Hls Hitems_s Hyoung.
  remember (heap w) as h0 eqn:Hh0.
  forget_heap Hset.
  assert (Hstop : forall (W : World) items' S' (rest : val -> M unit) d,
    settled h0 (heap W) ls items' S' -> dict_get missing S' = None ->
    (x <- pop (VRef ls) missing d ;; rest x) W = (Raise (KeyError missing), W)).
  { intros W items' S' k d HW Hnone. unfold bind.
    by rewrite (pop_missing h0 W ls items' S'). }
  destruct present as [|k1 present]; simplify_eq/=.
  { eexists. by eapply Hstop. }
  pop_present ls "NAME" Hset. { apply Hpresent. set_solver. }
  destruct present as [|k2 present]; simplify_eq/=.
  { eexists. eapply Hstop; [done|]. by rewrite ?dict_get_del_ne. }
  pop_present ls "HOST" Hset.
  { rewrite ?dict_get_del_ne by done. apply Hpresent. set_solver. }
  destruct present as [|k3 present]; simplify_eq/=.
  { eexists. eapply Hstop; [done|]. by rewrite ?dict_get_del_ne. }
  pop_present ls "PORT" Hset.
  { rewrite ?dict_get_del_ne by done. apply Hpresent. set_solver. }
  destruct present as [|k4 present]; simplify_eq/=.
  { eexists. eapply Hstop; [done|]. by rewrite ?dict_get_del_ne. }
  pop_present ls "USER" Hset.
  { rewrite ?dict_get_del_ne by done. apply Hpresent. set_solver. }
  destruct present as [|k5 present]; simplify_eq/=.
  { eexists. eapply Hstop; [done|]. by rewrite ?dict_get_del_ne. }
  pop_present ls "PASSWORD" Hset.
  { rewrite ?dict_get_del_ne by done. apply Hpresent. set_solver. }
  destruct present as [|k6 present]; simplify_eq/=.
  { unfold bind at 1, alloc at 1. simpl heap. rewrite set_heap_set_heap.
    eexists.
    match goal with
    | |- context [set_heap ?H w] =>
        match type of Hset with
        | settled _ _ _ _ ?S' =>
            rewrite (Hstop (set_heap H w) items4 S');
              [reflexivity| |]
        end
    end.
    - simpl. apply settled_alloc; [done|constructor].
    - by rewrite ?dict_get_del_ne. }
  destruct present; simplify_eq/=.
Qed.

End MissingKey.

Lemma denotes_leaf (h : list obj) (v x : val) :
  denotes h v (TLeaf x) -> v = x /\ forall l, x <> VRef l.
Proof.
  intros [n Hn]. destruct v; try (destruct n; injection Hn as <-; by split).
  apply reify_ref in Hn as (n' & o & ts & _ & _ & _ & Ht). by destruct o.
Qed.

Lemma truthy_plain (v : val) (w : World) :
  (forall l, v <> VRef l) -> truthy v w = (Ret (tree_truthy (TLeaf v)), w).
Proof.
  intros Hv. apply truthy_run. exists 0%nat. by apply reify_atom.
Qed.

Lemma truthy_or_None (v : val) (w : World) :
  (forall l, v <> VRef l) ->
  truthy (or_None v) w = (Ret (tree_truthy (TLeaf v)), w).
Proof.
  intros Hv. unfold or_None.
  destruct (tree_truthy (TLeaf v)) eqn:Ht; [|done].
  by rewrite truthy_plain, Ht.
Qed.

Lemma dict_get_del_None {V} (k key : string) (items : list (string * V)) :
  dict_get k items = None -> dict_get k (dict_del key items) = None.
Proof.
  intros Hk. destruct (decide (k = key)) as [->|Hne].
  - apply dict_get_del_eq.
  - by rewrite dict_get_del_ne.
Qed.

Lemma elem_of_dict_set_keys {V} (k key : string) (v : V) (items : list (string * V)) :
  k ∈ map fst (dict_set key v items) <-> k = key \/ k ∈ map fst items.
Proof.
  rewrite <- !dict_get_is_Some. destruct (decide (k = key)) as [->|Hne].
  - rewrite dict_get_set_eq. split; [by left|by eexists].
  - rewrite dict_get_set_ne by done. split; [by right|by intros [?|?]].
Qed.

Lemma elem_of_dict_del_keys_iff {V} (k key : string) (items : list (string * V)) :
  k ∈ map fst (dict_del key items) <-> k ∈ map fst items /\ k <> key.
Proof.
  rewrite <- !dict_get_is_Some. destruct (decide (k = key)) as [->|Hne].
  - rewrite dict_get_del_eq. split; [by intros [? ?]|by intros [_ ?]].
  - rewrite dict_get_del_ne by done. split; [done|by intros [? _]].
Qed.

(** The keys after the loop are the lower-case forms of the keys before
    it. *)
Lemma lower_keys_keys (keys : list string) (items items' : list (string * val)) :
  lower_keys keys items = Some items' ->
  forall k, k ∈ map fst items' ->
    k ∈ map fst items \/ exists k0, k0 ∈ keys /\ k = lower k0.
Proof.
  revert items. induction keys as [|key keys IH]; intros items Hloop k Hk.
  - injection Hloop as <-. by left.
  - simpl in Hloop. unfold lower_key in Hloop.
    destruct (dict_get key items) as [v|] eqn:Hv; [|done].
    destruct (IH _ Hloop k Hk) as [Hin|(k0 & Hk0 & ->)].
    + apply elem_of_dict_set_keys in Hin as [->|Hin].
      * right. exists key. split; [by left|done].
      * apply elem_of_dict_del_keys_iff in Hin as [Hin _]. by left.
    + right. exists k0. split; [by right|done].
Qed.

Lemma lower_keys_stays (keys : list string) (items items' : list (string * val))
    (name : string) :
  lower name = name -> name ∈ map fst items ->
  lower_keys keys items = Some items' -> name ∈ map fst items'.
Proof.
  intros Hname. revert items. induction keys as [|key keys IH]; intros items Hin Hloop.
  - by injection Hloop as <-.
  - simpl in Hloop. unfold lower_key in Hloop.
    destruct (dict_get key items) as [v|] eqn:Hv; [|done].
    eapply IH; [|exact Hloop].
    apply elem_of_dict_set_keys. destruct (decide (name = key)) as [->|Hne].
    + left. by rewrite Hname.
    + right. by apply elem_of_dict_del_keys_iff.
Qed.

Lemma lower_keys_present (keys : list string) (items items' : list (string * val))
    (key : string) :
  key ∈ keys -> lower_keys keys items = Some items' ->
  lower key ∈ map fst items'.
Proof.
  revert items. induction keys as [|k keys IH]; intros items Hin Hloop.
  { by apply elem_of_nil in Hin. }
  simpl in Hloop. unfold lower_key in Hloop.
  destruct (dict_get k items) as [v|] eqn:Hv; [|done].
  destruct (decide (key = k)) as [->|Hne].
  - eapply lower_keys_stays; [apply lower_idemp| |exact Hloop].
    apply elem_of_dict_set_keys. by left.
  - apply elem_of_cons in Hin as [->|Hin]; [done|]. by eapply IH.
Qed.

Lemma dict_pop_default_frame (lo : loc) (k : string) (d v : val) (w w' : World) :
  dict_pop_default (VRef lo) k d w = (Ret v, w') ->
  same_handles w w' /\ wrapper w' = wrapper w /\
  length (heap w') = length (heap w) /\
  forall l, l <> lo -> heap w' !! l = heap w !! l.
Proof.
  unfold dict_pop_default, dict_items, bind, load.
  destruct (heap w !! lo) as [[kd xs|items]|]; [by destruct kd| |done].
  simpl. destruct (dict_get k items).
  - intros [= _ <-]. split_and!; try done.
    + simpl. by rewrite length_insert.
    + intros l Hl. simpl. by rewrite list_lookup_insert_ne.
  - by intros [= _ <-].
Qed.

Section ConnectValues.

Variable Connection_fault : val -> val -> list (string * val) -> option exn.
Variable Database_fault : string -> option exn.
Variable authenticate : Database -> val -> val -> exn + bool.

Abbreviation open_connection :=
  (open_connection Connection_fault Database_fault authenticate).
Abbreviation _connect := (_connect Connection_fault Database_fault authenticate).

Ltac forget_heap Hset :=
  simpl heap in Hset |- *;
  match type of Hset with
  | settled _ ?H' _ ?I' _ =>
      let h := fresh "h" in
      let items := fresh "items" in
      set (h := H') in *; clearbody h;
      set (items := I') in *; clearbody items
  end.

Ltac pop_plain ls key x Hset Hplain :=
  match goal with
  | |- context [set_heap ?H ?w] =>
      let Hrun := fresh "Hrun" in
      let Hnew := fresh "Hset" in
      let Hden := fresh "Hden" in
      let v := fresh "v" in
      destruct (pop_run _ (set_heap H w) ls _ _ key (TLeaf x) VNone Hset)
        as (v & _ & _ & Hden & Hrun & Hnew);
      [by rewrite ?dict_get_del_ne by done|];
      apply denotes_leaf in Hden as [-> Hplain];
      unfold bind at 1; rewrite Hrun; rewrite set_heap_set_heap;
      clear Hrun Hset; rename Hnew into Hset; forget_heap Hset
  end.

(** The first half of [_connect] on settings with plain values: what is
    handed to the second half. *)
Lemma connect_run_values (fuel : nat) (w : World) (S O P : list (string * tree))
    (name host port user password : val) :
  reify fuel (heap w) (settings_dict (wrapper w)) = Some (TDict S) ->
  well_formed_settings S O P ->
  plain_settings S name host port user password ->
  exists ls lo lc w1 items rest,
    _connect fuel w
    = open_connection (VRef ls) (or_None name) (or_None host) (or_None port)
        (or_None user) (or_None password) (VRef lo) w1 /\
    connect_state w w1 O P lo lc items /\
    connect_values w w1 S O ls lo items rest /\
    Forall (fun v => forall l, v <> VRef l) [name; host; port; user; password].
Proof.
  intros Hreify [_ _ _ _ _ HO Hnodup HP] [Hn Hh Hp Hu Hw].
  unfold _connect. unfold bind at 1, get_world.
  (* the deep copy *)
  destruct (deepcopy_memo_correct (heap w) fuel (settings_dict (wrapper w)) [] w
              (TDict S) []) as (v' & memo' & ext & Hrun & Hdown & _ & Hyoung & Hv');
    [by rewrite app_nil_r|apply downward_start|apply memo_ok_nil|done|].
  unfold bind at 1, deepcopy, bind at 1. rewrite Hrun. unfold ret at 1. simpl fst.
  apply denotes_dict in Hv' as (ls & items_s & -> & Hls & Hitems_s).
  assert (Hset0 : settled (heap w) (heap w ++ ext) ls items_s S).
  { split_and!; try done. simpl in Hyoung. apply Hyoung. }
  clear Hrun Hreify Hdown Hls Hitems_s Hyoung.
  rename Hset0 into Hset.
  remember (heap w) as h0 eqn:Hh0.
  forget_heap Hset.
  (* the five pops *)
  pop_plain ls "NAME" name Hset Hname.
  pop_plain ls "HOST" host Hset Hhost.
  pop_plain ls "PORT" port Hset Hport.
  pop_plain ls "USER" user Hset Huser.
  pop_plain ls "PASSWORD" password Hset Hpassword.
  (* options = pop('OPTIONS', {}) *)
  unfold bind at 1, alloc at 1. simpl heap. rewrite set_heap_set_heap.
  assert (Hls : (length h0 <= ls < length h5)%nat).
  { destruct Hset as (_ & ? & Hlook & _). apply lookup_lt_Some in Hlook. lia. }
  match type of Hset with
  | settled _ _ _ _ ?S' => set (S5 := S') in *
  end.
  assert (HO5 : dict_get "OPTIONS" S5 = Some (TDict O)).
  { unfold S5. by rewrite !dict_get_del_ne. }
  assert (Hset_a : settled h0 (h5 ++ [ODict []]) ls items4 S5).
  { apply settled_alloc; [done|constructor]. }
  destruct (options_run h0 (set_heap (h5 ++ [ODict []]) w) ls (length h5)
              items4 S5 O)
    as (lo & items_o & h6 & Hrun & Hlen6 & Hset_o).
  { done. }
  { done. }
  { simpl. by rewrite lookup_app_r, Nat.sub_diag. }
  { lia. }
  { lia. }
  destruct (pop_run h0 (set_heap (h5 ++ [ODict []]) w) ls items4 S5 "OPTIONS"
              (TDict O) (VRef (length h5)) Hset_a HO5)
    as (vo & _ & Hyoung_o & _ & Hrun' & Hset_ls).
  assert (Hh6 : h6 = <[ls := ODict (dict_del "OPTIONS" items4)]> (h5 ++ [ODict []])).
  { rewrite Hrun in Hrun'. by injection Hrun' as _ ->. }
  assert (Hlslo : ls <> lo).
  { rewrite Hrun in Hrun'. injection Hrun' as Hres _. revert Hres.
    destruct (negb _); intros Hres.
    - subst vo. simpl in Hyoung_o. lia.
    - injection Hres as ->. lia. }
  simpl heap in Hset_ls. rewrite <- Hh6 in Hset_ls.
  set (rest := dict_del "OPTIONS" items4) in *.
  assert (Hrest_ref :
    match dict_get "MONGODB_AUTOMATIC_REFERENCING" S with
    | None => dict_get "MONGODB_AUTOMATIC_REFERENCING" rest = None
    | Some (TLeaf x) =>
        dict_get "MONGODB_AUTOMATIC_REFERENCING" rest = Some x /\
        forall l, x <> VRef l
    | Some _ => True
    end).
  { destruct Hset_ls as (_ & _ & _ & Hden).
    destruct (dict_get "MONGODB_AUTOMATIC_REFERENCING" S) as [[x| |]|] eqn:Href;
      try done.
    - destruct (items_denote_get _ _ _ "MONGODB_AUTOMATIC_REFERENCING" (TLeaf x) Hden)
        as (v & Hv & Hvx).
      { unfold S5. by rewrite !dict_get_del_ne. }
      by apply denotes_leaf in Hvx as [-> ?].
    - eapply items_denote_get_None; [exact Hden|].
      unfold S5. by rewrite !dict_get_del_ne. }
  assert (Hls6 : h6 !! ls = Some (ODict rest)) by apply Hset_ls.
  unfold bind at 1. rewrite Hrun. rewrite set_heap_set_heap.
  simpl heap in Hlen6. rewrite length_app in Hlen6. simpl in Hlen6.
  clear Hrun Hrun' Hset Hset_a Hset_ls Hh6 Hyoung_o.
  (* self.operation_flags = options.pop('OPERATIONS', {}) *)
  unfold bind at 1, alloc at 1. simpl heap. rewrite set_heap_set_heap.
  assert (Hlo : (length h0 <= lo < length h6)%nat).
  { destruct Hset_o as (_ & ? & Hlook & _). apply lookup_lt_Some in Hlook. lia. }
  destruct (flags_pop_run h0 (set_heap (h6 ++ [ODict []]) w) lo (length h6)
              items_o O P)
    as (lc & oc & h7 & Hrun & Hlen7 & Hset7 & Hflags & Hlc & Hlclo & Hoc & Hchildren).
  { apply settled_alloc; [done|constructor]. }
  { done. }
  { simpl. by rewrite lookup_app_r, Nat.sub_diag. }
  { lia. }
  { lia. }
  assert (Hls7 : h7 !! ls = Some (ODict rest)).
  { apply dict_pop_default_frame in Hrun as (_ & _ & _ & Hframe).
    specialize (Hframe ls Hlslo). simpl in Hframe. rewrite Hframe.
    by apply lookup_app_l_Some. }
  unfold bind at 1. rewrite Hrun. rewrite set_heap_set_heap.
  simpl heap in Hlen7. rewrite length_app in Hlen7. simpl in Hlen7.
  clear Hrun Hset_o.
  unfold bind at 1, set_operation_flags at 1, modify_wrapper, modify.
  (* any(k in ['save', 'delete', 'update'] for k in self.operation_flags) *)
  pose proof Hflags as (lc' & items_p & [= <-] & Hlc_look & Hitems_p)%denotes_dict.
  assert (oc = ODict items_p) as -> by congruence.
  unfold bind at 1, iterate at 1, bind at 1, load. simpl heap. rewrite Hlc_look.
  unfold ret at 1. unfold bind at 1. rewrite any_contained_in_run.
  assert (Hkey : has_operation_key items_p = has_operation_key P).
  { unfold has_operation_key. by rewrite (items_denote_keys _ _ _ Hitems_p). }
  rewrite Hkey. clear Hkey Hoc.
  (* lower-case all OPTIONS keys *)
  set (items7 := dict_del "OPERATIONS" items_o) in *.
  assert (Hkeys7 : map fst items7 = map fst (dict_del "OPERATIONS" O)).
  { destruct Hset7 as (_ & _ & _ & Hden). by apply items_denote_keys in Hden. }
  assert (Hnodup7 : NoDup (map fst items7)).
  { rewrite Hkeys7. by apply NoDup_dict_del. }
  destruct (lower_keys_lower (map fst items7) items7)
    as (items' & Hloop & Hlower & Hsub);
    [done|by intros k Hk; apply dict_get_is_Some
         |by intros k Hk; left; apply dict_get_is_Some|].
  assert (Hrest : forall (W : World) (ext8 : list obj) (rest_m : M unit),
    heap W = h7 ++ ext8 -> downward h0 (h7 ++ ext8) ->
    (keys <- dict_items (VRef lo) "iterkeys" ;;
     for_each (map fst keys.2) (fun key =>
       value <- dict_pop (VRef lo) key ;;
       dict_setitem (VRef lo) (lower key) value) ;;;
     rest_m) W
    = rest_m (set_heap (<[lo := ODict items']> (h7 ++ ext8)) W) /\
    (<[lo := ODict items']> (h7 ++ ext8)) !! lo = Some (ODict items') /\
    (forall k, k ∈ map fst items' -> lower k = k) /\
    (forall k t,
       dict_get k O = Some t -> k <> "OPERATIONS" ->
       (forall k2, k2 ∈ map fst O -> k2 <> "OPERATIONS" -> k2 <> k ->
                   lower k2 <> lower k) ->
       exists v, dict_get (lower k) items' = Some v /\
                 denotes (<[lo := ODict items']> (h7 ++ ext8)) v t) /\
    denotes (<[lo := ODict items']> (h7 ++ ext8)) (VRef lc) (TDict P) /\
    (<[lo := ODict items']> (h7 ++ ext8)) !! ls = Some (ODict rest)).
  { intros W ext8 rest_m HW Hdown8.
    destruct Hset7 as (Hdown7 & _ & Hlook7 & Hden7).
    assert (Hlook8 : heap W !! lo = Some (ODict items7)).
    { rewrite HW. by apply lookup_app_l_Some. }
    split_and!.
    - unfold bind at 1, dict_items, bind at 1, load. rewrite Hlook8.
      unfold ret at 1. simpl snd. unfold bind at 1.
      rewrite (lower_keys_run _ W lo items7 items' Hlook8 Hloop).
      by rewrite HW.
    - apply list_lookup_insert_eq. rewrite length_app. lia.
    - intros k Hk. apply Hlower. by apply dict_get_is_Some.
    - intros k t Hk Hne Hother.
      destruct (items_denote_get h7 items7 (dict_del "OPERATIONS" O) k t)
        as (v & Hv & Hvt); [done|by rewrite dict_get_del_ne|].
      exists v. split.
      + eapply lower_keys_value; [exact Hnodup7| | |exact Hv|exact Hloop].
        * apply dict_get_is_Some. by eexists.
        * intros k2 Hk2 Hk2k. rewrite Hkeys7 in Hk2.
          apply elem_of_dict_del_keys in Hk2 as [Hin Hk2ne]. by apply Hother.
      + apply (denotes_insert_above h0); [done| |by apply denotes_app].
        pose proof (Hdown7 lo _ ltac:(lia) Hlook7) as Hall. simpl in Hall.
        eapply Forall_forall in Hall; [done|]. by eapply dict_get_elem_of.
    - apply (denotes_insert_apart h0 _ lo lc (ODict items_p));
        [done|done|by apply lookup_app_l_Some|done|by apply denotes_app].
    - rewrite list_lookup_insert_ne by done. by apply lookup_app_l_Some. }
  assert (Hkeys_in : forall k, k ∈ map fst items' ->
    exists k0, k0 ∈ map fst O /\ k0 <> "OPERATIONS" /\ k = lower k0).
  { intros k Hk.
    assert (Hlow : lower k = k) by (by apply Hlower, dict_get_is_Some).
    destruct (lower_keys_keys _ _ _ Hloop k Hk) as [Hin|(k0 & Hk0 & ->)].
    - rewrite Hkeys7 in Hin. apply elem_of_dict_del_keys in Hin as [Hin Hne].
      by exists k.
    - rewrite Hkeys7 in Hk0. apply elem_of_dict_del_keys in Hk0 as [Hin Hne].
      by exists k0. }
  assert (Hkeys_present : forall k0, k0 ∈ map fst O -> k0 <> "OPERATIONS" ->
    lower k0 ∈ map fst items').
  { intros k0 Hk0 Hne. eapply lower_keys_present; [|exact Hloop].
    rewrite Hkeys7. apply elem_of_dict_del_keys_iff. by split. }
  assert (Hlc7 : (lc < length h7)%nat) by (by eapply lookup_lt_Some).
  destruct (has_operation_key P) eqn:Hop; simpl negb; cbv iota.
  - (* the flags name an operation: kept as they are *)
    unfold bind at 1, ret at 1.
    match goal with
    | |- context [set_wrapper ?X (set_heap h7 w)] =>
        destruct (Hrest (set_wrapper X (set_heap h7 w)) []
                    (open_connection (VRef ls) (or_None name) (or_None host)
                       (or_None port) (or_None user) (or_None password) (VRef lo)))
          as (Hrun & Hlook & Hlow & Hvals & Hfl & Hsett)
    end.
    { simpl. by rewrite app_nil_r. }
    { rewrite app_nil_r. apply Hset7. }
    rewrite app_nil_r in *.
    do 6 eexists. split; [exact Hrun|].
    split; [|split].
    + split; simpl; try done. by rewrite Hop.
    + by split.
    + by repeat constructor.
  - (* flags apply to all operations *)
    unfold bind at 1, bind at 1, alloc at 1. simpl heap.
    unfold set_operation_flags at 1, modify_wrapper, modify.
    match goal with
    | |- context [set_wrapper ?X ?W0] =>
        destruct (Hrest (set_wrapper X W0)
                    [ODict [("save", VRef lc); ("delete", VRef lc); ("update", VRef lc)]]
                    (open_connection (VRef ls) (or_None name) (or_None host)
                       (or_None port) (or_None user) (or_None password) (VRef lo)))
          as (Hrun & Hlook & Hlow & Hvals & Hfl & Hsett)
    end.
    { done. }
    { apply (downward_alloc h0); [apply Hset7|]. simpl.
      repeat constructor; simpl; lia. }
    do 6 eexists. split; [exact Hrun|].
    split; [|split].
    + split; simpl; try done. rewrite Hop.
      exists (length h7). split; [done|].
      rewrite list_lookup_insert_ne by lia.
      by rewrite lookup_app_r, Nat.sub_diag.
    + by split.
    + by repeat constructor.
Qed.

End ConnectValues.

Section ConnectCases.

Variable Connection_fault : val -> val -> list (string * val) -> option exn.
Variable Database_fault : string -> option exn.
Variable authenticate : Database -> val -> val -> exn + bool.

Abbreviation open_connection :=
  (open_connection Connection_fault Database_fault authenticate).
Abbreviation _connect := (_connect Connection_fault Database_fault authenticate).
Abbreviation getattr_database :=
  (getattr_database Connection_fault Database_fault authenticate).

Lemma Connection_call_run (host port : val) (lo : loc)
    (items : list (string * val)) (w : World) :
  heap w !! lo = Some (ODict items) ->
  Connection_call Connection_fault host port (VRef lo) w
  = (if bool_decide ("host" ∈ map fst items) || bool_decide ("port" ∈ map fst items)
     then Raise (TypeError "got multiple values for keyword argument")
     else match Connection_fault host port items with
          | Some e => Raise e
          | None => Ret (mkConnection host port items)
          end,
     set_driver_calls (driver_calls w ++ [mkConnectionCall host port items]) w).
Proof.
  intros Hlo. unfold Connection_call, bind, dict_items, bind, load.
  rewrite Hlo. simpl. destruct (_ || _); [done|].
  by destruct (Connection_fault _ _ _).
Qed.

Lemma dict_get_method_run (ls : loc) (rest : list (string * val)) (k : string)
    (w : World) :
  heap w !! ls = Some (ODict rest) ->
  dict_get_method (VRef ls) k w = (Ret (default VNone (dict_get k rest)), w).
Proof.
  intros Hls. unfold dict_get_method, bind, dict_items, bind, load.
  by rewrite Hls.
Qed.

Lemma no_keyword_clash (O : list (string * tree)) (items : list (string * val)) :
  (forall k, k ∈ map fst items ->
     exists k0, k0 ∈ map fst O /\ k0 <> "OPERATIONS" /\ k = lower k0) ->
  (forall k, k ∈ map fst O -> k <> "OPERATIONS" ->
     lower k <> "host" /\ lower k <> "port") ->
  bool_decide ("host" ∈ map fst items) || bool_decide ("port" ∈ map fst items) = false.
Proof.
  intros Hkeys Hno. apply orb_false_intro; apply bool_decide_eq_false_2;
    intros (k0 & Hk0 & Hne & Heq)%Hkeys; destruct (Hno k0 Hk0 Hne); congruence.
Qed.

Lemma or_None_string (v : val) (s : string) :
  is_string v s -> s <> "" -> or_None v = v /\ string_of v = Some s.
Proof.
  intros [-> | ->] Hs; unfold or_None; simpl;
    (destruct (String.eqb_spec s ""); [done|by split]).
Qed.

(** The [try] of [_connect], when the driver accepts the call and knows
    the database: the wrapper gets the connection and the database. *)
Lemma open_handles_run (db_name host port : val) (name : string) (lo : loc)
    (items : list (string * val)) (w : World) :
  heap w !! lo = Some (ODict items) ->
  bool_decide ("host" ∈ map fst items) || bool_decide ("port" ∈ map fst items) = false ->
  Connection_fault host port items = None ->
  string_of db_name = Some name ->
  Database_fault name = None ->
  try_except
    (c <- Connection_call Connection_fault host port (VRef lo) ;;
     set_connection (Some c) ;;;
     d <- Connection_getitem Database_fault c db_name ;;
     set_database (Some d))
    (fun e => match e with
              | TypeError msg => Some (raise (ImproperlyConfigured msg))
              | _ => None
              end) w
  = (Ret tt,
     set_wrapper
       (mkWrapper (settings_dict (wrapper w)) (operation_flags (wrapper w))
          (Some (mkConnection host port items))
          (Some (mkDatabase (mkConnection host port items) name []))
          (connected (wrapper w)))
       (set_driver_calls (driver_calls w ++ [mkConnectionCall host port items]) w)).
Proof.
  intros Hlo Hclash Hfault Hname Hdb.
  unfold try_except, bind at 1. rewrite (Connection_call_run _ _ lo items w Hlo).
  rewrite Hclash, Hfault.
  unfold bind, set_connection, set_database, modify_wrapper, modify,
    Connection_getitem.
  cbv beta iota. rewrite Hname, Hdb. reflexivity.
Qed.

(** The constructor fails, or refuses keywords given twice. *)
Lemma open_fails_run (settings db_name host port user password : val) (lo : loc)
    (items : list (string * val)) (e : exn) (w : World) :
  heap w !! lo = Some (ODict items) ->
  (if bool_decide ("host" ∈ map fst items) || bool_decide ("port" ∈ map fst items)
   then TypeError "got multiple values for keyword argument" = e
   else Connection_fault host port items = Some e) ->
  open_connection settings db_name host port user password (VRef lo) w
  = (Raise (match e with TypeError msg => ImproperlyConfigured msg | _ => e end),
     set_driver_calls (driver_calls w ++ [mkConnectionCall host port items]) w).
Proof.
  intros Hlo He. unfold open_connection.
  unfold bind at 1, try_except, bind at 1.
  rewrite (Connection_call_run _ _ lo items w Hlo).
  destruct (_ || _).
  - by subst e.
  - rewrite He. by destruct e.
Qed.

(** The check of the credentials, before the code [rest]. *)
Lemma credentials_run (user password : val) (d : Database) (rest : M unit)
    (w : World) :
  (forall l, user <> VRef l) -> (forall l, password <> VRef l) ->
  database (wrapper w) = Some d ->
  (has_user <- truthy (or_None user) ;;
   has_password <- (if has_user then truthy (or_None password) else ret false) ;;
   (if has_user && has_password then
      w <- get_world ;;
      match database (wrapper w) with
      | Some d =>
          ok <- lift (authenticate d (or_None user) (or_None password)) ;;
          if ok then ret tt
          else raise (ImproperlyConfigured "Invalid username or password")
      | None => raise (AttributeError "database")
      end
    else ret tt) ;;;
   rest) w
  = if tree_truthy (TLeaf user) && tree_truthy (TLeaf password)
    then match authenticate d user password with
         | inl e => (Raise e, w)
         | inr true => rest w
         | inr false => (Raise (ImproperlyConfigured "Invalid username or password"), w)
         end
    else rest w.
Proof.
  intros Huser Hpassword Hd.
  unfold bind at 1. rewrite (truthy_or_None user) by done.
  destruct (tree_truthy (TLeaf user)) eqn:Hu; unfold bind at 1.
  - rewrite (truthy_or_None password) by done.
    destruct (tree_truthy (TLeaf password)) eqn:Hp; simpl andb; cbv iota.
    + unfold bind at 1, bind at 1, get_world. rewrite Hd.
      unfold or_None. rewrite Hu, Hp. unfold bind at 1.
      destruct (authenticate d user password) as [e|[]]; done.
    + done.
  - done.
Qed.

(** The end of [_connect], from the look at the settings for
    'MONGODB_AUTOMATIC_REFERENCING' on. *)
Lemma finish_run (ls : loc) (rest : list (string * val))
    (S : list (string * tree)) (auto : bool) (w : World) :
  heap w !! ls = Some (ODict rest) ->
  match dict_get "MONGODB_AUTOMATIC_REFERENCING" S with
  | None => dict_get "MONGODB_AUTOMATIC_REFERENCING" rest = None
  | Some (TLeaf x) =>
      dict_get "MONGODB_AUTOMATIC_REFERENCING" rest = Some x /\
      forall l, x <> VRef l
  | Some _ => True
  end ->
  automatic_referencing S = Some auto ->
  exists w',
    (referencing <- dict_get_method (VRef ls) "MONGODB_AUTOMATIC_REFERENCING" ;;
     automatic <- truthy referencing ;;
     (if automatic then
        modify_wrapper (fun x =>
          mkWrapper (settings_dict x) (operation_flags x) (connection x)
            (option_map (fun d => mkDatabase (database_connection d) (database_name d)
                                    (son_manipulators d ++ ["TransformDjango"]))
               (database x))
            (connected x))
      else ret tt) ;;;
     set_connected true ;;;
     modify (fun w => set_signals (signals w ++ [connection_created "DatabaseWrapper"]) w))
      w
    = (Ret tt, w') /\
    connection (wrapper w') = connection (wrapper w) /\
    database (wrapper w')
    = option_map (fun d => mkDatabase (database_connection d) (database_name d)
                    (son_manipulators d ++ (if auto then ["TransformDjango"] else [])))
        (database (wrapper w)) /\
    connected (wrapper w') = true /\
    driver_calls w' = driver_calls w /\
    signals w' = signals w ++ [connection_created "DatabaseWrapper"].
Proof.
  intros Hls Href Hauto. unfold automatic_referencing in Hauto.
  unfold bind at 1. rewrite (dict_get_method_run ls rest) by done.
  assert (Htruthy : truthy (default VNone
                      (dict_get "MONGODB_AUTOMATIC_REFERENCING" rest)) w
                    = (Ret auto, w)).
  { destruct (dict_get "MONGODB_AUTOMATIC_REFERENCING" S) as [[x| |]|];
      try discriminate.
    - destruct Href as [-> Hx]. injection Hauto as <-. by apply truthy_plain.
    - rewrite Href. by injection Hauto as <-. }
  unfold bind at 1. rewrite Htruthy. clear Htruthy Hauto Href.
  destruct auto; (eexists; split; [reflexivity|]); simpl; split_and!; try done.
  destruct (database (wrapper w)) as [d|]; [|done]. simpl.
  rewrite app_nil_r. by destruct d.
Qed.





End ConnectCases.

Module CasesFacts.
Import Cases.

Lemma value_to_db_date_midnight_example :
  value_to_db_date (VDate 2020 2 29) Driver.empty_world
    = (Ret (VDatetime 2020 2 29 0 0 0 0), Driver.empty_world) /\
  value_to_db_date (VDatetime 2020 2 29 13 30 0 0) Driver.empty_world
    = (Ret (VDatetime 2020 2 29 0 0 0 0), Driver.empty_world) /\
  (stored <- value_to_db_date (VDatetime 2020 2 29 13 30 0 0) ;;
   value_to_db_date stored) Driver.empty_world
    = (Ret (VDatetime 2020 2 29 0 0 0 0), Driver.empty_world) /\
  value_to_db_date (VTime 13 30 0 0) Driver.empty_world
    = (Raise (AttributeError "year"), Driver.empty_world).
Proof.
  apply (value_to_db_date_midnight 2020 2 29 13 30 0 0 Driver.empty_world).
  reflexivity.
Defined.

Lemma value_to_db_time_first_day_example :
  value_to_db_time (VTime 13 30 0 250) Driver.empty_world
    = (Ret (VDatetime 1 1 1 13 30 0 250), Driver.empty_world) /\
  value_to_db_time (VDatetime 2020 2 29 13 30 0 250) Driver.empty_world
    = (Ret (VDatetime 1 1 1 13 30 0 250), Driver.empty_world) /\
  (stored <- value_to_db_time (VDatetime 2020 2 29 13 30 0 250) ;;
   value_to_db_time stored) Driver.empty_world
    = (Ret (VDatetime 1 1 1 13 30 0 250), Driver.empty_world) /\
  value_to_db_time (VDate 2020 2 29) Driver.empty_world
    = (Raise (AttributeError "hour"), Driver.empty_world).
Proof.
  apply (value_to_db_time_first_day 2020 2 29 13 30 0 250 Driver.empty_world).
  reflexivity.
Defined.

Lemma value_for_db_not_unicode_example :
  Driver.value_for_db 1 (VStr "no key") Driver.pk_field "AutoField" "key" VNone
    Driver.empty_world
  = (Raise AssertionError, Driver.empty_world).
Proof.
  apply (value_for_db_not_unicode Driver.ObjectId Driver.super_value_for_db
           0%nat (VStr "no key") "no key is not a valid ObjectId").
  - reflexivity.
  - reflexivity.
  - reflexivity.
  - discriminate.
Defined.

Lemma value_for_db_other_error_example :
  Driver.value_for_db 1 (VInt 5) Driver.pk_field "AutoField" "key" VNone
    Driver.empty_world
  = (Raise (TypeError "id must be an instance of (str, unicode, ObjectId)"),
     Driver.empty_world).
Proof.
  apply (value_for_db_other_error Driver.ObjectId Driver.super_value_for_db
           0%nat (VInt 5)).
  - reflexivity.
  - reflexivity.
  - reflexivity.
  - discriminate.
  - discriminate.
Defined.

Lemma value_for_db_idempotent_example :
  (stored <- Driver.value_for_db 1 (VStr "abcdefghijkl") Driver.pk_field
               "AutoField" "key" VNone ;;
   Driver.value_for_db 1 stored Driver.pk_field "AutoField" "key" VNone)
    Driver.empty_world
  = (Ret (VObjectId "abcdefghijkl"), Driver.empty_world).
Proof.
  apply (value_for_db_idempotent Driver.ObjectId Driver.super_value_for_db
           0%nat 0%nat (VStr "abcdefghijkl") "abcdefghijkl").
  - reflexivity.
  - reflexivity.
  - reflexivity.
  - reflexivity.
  - reflexivity.
Defined.

Lemma value_for_db_collection_rejected_example :
  Driver.value_for_db 2 (VRef 0%nat) Driver.pk_field "AutoField" "key" VNone
    bad_key_world
  = (Raise (InvalidId (invalid_id_message (preview "no key") Driver.pk_field)),
     bad_key_world).
Proof.
  apply (value_for_db_collection_rejected Driver.ObjectId Driver.super_value_for_db
           0%nat 0%nat KList [VStr "abcdefghijkl"]
           [VUnicode "4f1e2d3c4b5a69788796a5b4"] "no key"
           "no key is not a valid ObjectId").
  - reflexivity.
  - repeat constructor.
    + exists "abcdefghijkl". by left.
    + by exists "abcdefghijkl".
  - reflexivity.
  - intros x. reflexivity.
Defined.

Lemma value_for_db_nested_example :
  exists v' ext,
    Driver.value_for_db 3 (VRef 1%nat) Driver.pk_field "AutoField" "key" VNone
      nested_keys_world
    = (Ret v', set_heap (heap nested_keys_world ++ ext) nested_keys_world) /\
    denotes (heap nested_keys_world ++ ext) v' nested_identifiers.
Proof.
  apply (value_for_db_nested Driver.ObjectId Driver.super_value_for_db
           2%nat (VRef 1%nat) nested_keys nested_identifiers).
  - intros x w'. reflexivity.
  - reflexivity.
  - repeat constructor.
Defined.

Lemma value_from_db_key_text_example :
  (exists s,
     Driver.value_from_db (VStr "abc") Driver.pk_field "AutoField" "key"
       Driver.empty_world
     = safe_call (Driver.super_value_from_db (VUnicode s) Driver.pk_field
                    "AutoField" "key") Driver.empty_world /\
     (forall b, VStr "abc" = VObjectId b -> s = Driver.ObjectId_str b) /\
     (forall u, is_string (VStr "abc") u -> s = u)) \/
  (exists u, VStr "abc" = VStr u /\ is_ascii u = false /\
     Driver.value_from_db (VStr "abc") Driver.pk_field "AutoField" "key"
       Driver.empty_world
     = (Raise UnicodeDecodeError, Driver.empty_world)).
Proof.
  apply (value_from_db_key_text Driver.ObjectId_str Driver.super_value_from_db
           Driver.unicode_other (VStr "abc")).
  reflexivity.
Defined.

Lemma sql_flush_system_only_example :
  Settings.sql_flush 0 VNone ["system.indexes"; "system.users"] VNone
    Settings.mixed_case_world
  = (Ret [], Settings.mixed_case_world).
Proof.
  apply (sql_flush_system_only Settings.Connection_fault Settings.Database_fault
           Settings.authenticate).
  intros table Hin. by repeat (apply elem_of_cons in Hin as [->|Hin]; [done|]);
    apply elem_of_nil in Hin.
Defined.

Lemma sql_flush_again_example :
  exists w',
    Settings.sql_flush 0 VNone ["users"; "system.indexes"] VNone Settings.flush_world
      = (Ret [], w') /\
    Settings.sql_flush 0 VNone ["users"] VNone w' = (Ret [], w').
Proof.
  apply (sql_flush_again Settings.Connection_fault Settings.Database_fault
           Settings.authenticate 0%nat VNone ["users"; "system.indexes"] ["users"]
           VNone Settings.test_database Settings.flush_world).
  - reflexivity.
  - intros table Hin. apply elem_of_cons in Hin as [->|Hin]; [by left|].
    by apply elem_of_nil in Hin.
Defined.

Lemma sql_flush_same_tables_example :
  Settings.sql_flush 0 VNone ["users"; "system.indexes"] VNone Settings.flush_world
  = Settings.sql_flush 0 VNone ["system.indexes"; "users"; "users"] VNone
      Settings.flush_world.
Proof.
  apply (sql_flush_same_tables Settings.Connection_fault Settings.Database_fault
           Settings.authenticate 0%nat VNone ["users"; "system.indexes"]
           ["system.indexes"; "users"; "users"] VNone Settings.test_database
           Settings.flush_world).
  - reflexivity.
  - intros table. rewrite !elem_of_cons, !elem_of_nil. tauto.
Defined.

Lemma sql_flush_table_names_example :
  exists names w',
    table_names Settings.Connection_fault Settings.Database_fault
      Settings.authenticate 0 Settings.flush_world
      = (Ret names, Settings.flush_world) /\
    Settings.sql_flush 0 VNone names VNone Settings.flush_world = (Ret [], w') /\
    (forall table, startswith "system." table = false ->
       rows w' (database_name Settings.test_database) table = []) /\
    (forall table, startswith "system." table = true ->
       rows w' (database_name Settings.test_database) table
       = rows Settings.flush_world (database_name Settings.test_database) table) /\
    (forall db table, db <> database_name Settings.test_database ->
       rows w' db table = rows Settings.flush_world db table) /\
    table_names Settings.Connection_fault Settings.Database_fault
      Settings.authenticate 0 w' = (Ret names, w').
Proof.
  apply (sql_flush_table_names Settings.Connection_fault Settings.Database_fault
           Settings.authenticate 0%nat VNone VNone Settings.test_database
           Settings.flush_world).
  reflexivity.
Defined.

Lemma getattr_database_once_example :
  exists d w1,
    getattr_database Settings.Connection_fault Settings.Database_fault
      Settings.authenticate 3 Settings.timeout_world = (Ret d, w1) /\
    getattr_database Settings.Connection_fault Settings.Database_fault
      Settings.authenticate 0 w1 = (Ret d, w1).
Proof.
  eexists _, _. split; [vm_compute; reflexivity|].
  apply (getattr_database_once Settings.Connection_fault Settings.Database_fault
           Settings.authenticate 3%nat 0%nat _ Settings.timeout_world).
  vm_compute. reflexivity.
Defined.

Lemma sql_flush_connects_first_example :
  Settings.sql_flush 2 VNone ["system.indexes"; "users"] VNone
    Settings.mixed_case_world
  = (Settings._connect 2 ;;;
     Settings.sql_flush 2 VNone ["system.indexes"; "users"] VNone)
      Settings.mixed_case_world /\
  (forall e w',
     Settings._connect 2 Settings.mixed_case_world = (Raise e, w') ->
     Settings.sql_flush 2 VNone ["system.indexes"; "users"] VNone
       Settings.mixed_case_world = (Raise e, w') /\
     store w' = store Settings.mixed_case_world).
Proof.
  apply (sql_flush_connects_first Settings.Connection_fault Settings.Database_fault
           Settings.authenticate 2%nat VNone ["system.indexes"; "users"] VNone
           Settings.mixed_case_world).
  - reflexivity.
  - reflexivity.
  - exists "users". split; [|reflexivity]. right. by left.
Defined.

Lemma connect_missing_key_example :
  exists h',
    Settings._connect 1 no_port_world
    = (Raise (KeyError "PORT"), set_heap h' no_port_world).
Proof.
  apply (connect_missing_key Settings.Connection_fault Settings.Database_fault
           Settings.authenticate 1%nat no_port_world no_port_tree
           ["NAME"; "HOST"] ["USER"; "PASSWORD"; "OPTIONS"] "PORT").
  - reflexivity.
  - reflexivity.
  - intros k Hk. apply elem_of_cons in Hk as [->|Hk]; [by eexists|].
    apply elem_of_cons in Hk as [->|Hk]; [by eexists|]. by apply elem_of_nil in Hk.
  - reflexivity.
Defined.

Lemma account_well_formed : well_formed_settings account_tree [] [].
Proof. split; try done; try by eexists. constructor. Qed.





End CasesFacts.
